(** * seven-segment-seer: the calibration and decoding engine

  A shallow embedding of [SegmentDisplayReaderConfiguration.js] and
  [SegmentDisplayReader.js], followed by the properties of the
  specification that were checked against it.

  Conventions of the embedding.
  - Pixel coordinates, array indices, counters and bitmasks are integers
    ([Z]); every one of them stays far below 2^53, where JavaScript's
    number arithmetic on integers is exact.
  - Gray values, thresholds, brightness offsets and cluster centres are
    JavaScript numbers, i.e. IEEE 754 binary64 values.  They are modelled
    by the Standard Library's [spec_float] at precision 53, whose
    operations round exactly as the hardware does (module [Js]).
  - A method that reads or writes [this] takes the reader state and
    returns the new one, together with the notifications it raised
    ([Effect]).  A [TypeError] (reading a property of [undefined]) is
    [None]; so is running out of [fuel] in the one unbounded loop, the
    flood fill's [while (queue.length)].
  - The frame that [captureImageData] grabs from the video source is an
    argument of the method that grabs it. *)

From Stdlib Require Import ZArith Floats.SpecFloat Strings.Ascii Strings.String.
From stdpp Require Import base list gmap strings.

Local Open Scope Z_scope.

(** ** JavaScript numbers *)

Module Js.

Definition number := spec_float.

Definition prec : Z := 53.
Definition emax : Z := 1024.

(** The number denoted by an integer literal or an integer-valued
    expression. *)
Definition ofZ (n : Z) : number := binary_normalize prec emax n 0 false.

Definition NaN : number := S754_nan.
Definition Infinity : number := S754_infinity false.

Definition add : number -> number -> number := SFadd prec emax.
Definition sub : number -> number -> number := SFsub prec emax.
Definition mul : number -> number -> number := SFmul prec emax.
Definition div : number -> number -> number := SFdiv prec emax.
Definition abs : number -> number := SFabs.

(** [a < b], [a <= b], [a > b] and [a === b] on numbers; each is false as
    soon as an operand is NaN. *)
Definition lt (a b : number) : bool := SFltb a b.
Definition le (a b : number) : bool := SFleb a b.
Definition gt (a b : number) : bool := SFltb b a.
Definition eq (a b : number) : bool := SFeqb a b.

Definition isNaN (a : number) : bool :=
  match a with S754_nan => true | _ => false end.

(** [Math.max(a, b)]: NaN if either is NaN, and +0 is larger than -0. *)
Definition max (a b : number) : number :=
  if isNaN a || isNaN b then NaN
  else if lt a b then b
  else if lt b a then a
  else match a with S754_zero true => b | _ => a end.

(** [Math.min(a, b)]: NaN if either is NaN, and -0 is smaller than +0. *)
Definition min (a b : number) : number :=
  if isNaN a || isNaN b then NaN
  else if lt a b then a
  else if lt b a then b
  else match a with S754_zero true => a | _ => b end.

(** The literal [0.7]: the binary64 value nearest to 7/10, which is
    0x1.6666666666666p-1 = 6305039478318694 * 2^-53. *)
Definition lit_0_7 : number := S754_finite false 6305039478318694 (-53).

(** [Math.floor] of a number, as an integer.  For a finite value
    (-1)^s * m * 2^e this is the floor of the exact rational.  NaN and the
    infinities have no integer floor; they are mapped to 0 and never
    arise where the program takes a floor (of [length * 0.7], with
    [length] an array length). *)
Definition floor (a : number) : Z :=
  match a with
  | S754_finite s m e =>
      let v := if s then Z.neg m else Z.pos m in
      if 0 <=? e then v * 2 ^ e else v / 2 ^ (- e)
  | _ => 0
  end.

(** Truthiness of a number: everything but 0, -0 and NaN. *)
Definition truthy (a : number) : bool :=
  match a with
  | S754_zero _ | S754_nan => false
  | _ => true
  end.

End Js.

(** ** Arrays

  A JavaScript array is a list.  Reading [a[i]] gives [None] for
  [undefined], which is what an index outside the array reads (the
  indices of this program are always integers). *)

Definition at_ {A} (a : list A) (i : Z) : option A :=
if i <? 0 then None else a !! Z.to_nat i.

(** [create2dArray(height, width, fillValue)] *)
Definition create2dArray {A} (height width : Z) (fillValue : A) : list (list A) :=
replicate (Z.to_nat height) (replicate (Z.to_nat width) fillValue).

(** ** SegmentDisplayReaderConfiguration *)

Module SegmentDisplayReaderConfiguration.

Import Js.

Record Pixel := { r : Z; g : Z; b : Z }.

(** The values a caller can hand to a setter.  Strings and objects are
    left out: their conversion to a number is ECMAScript's string parser
    and [ToPrimitive], which are not part of this repository. *)
Inductive JsValue :=
| JNumber (n : number)
| JBoolean (b : bool)
| JUndefined
| JNull.

(** ECMAScript [ToNumber], which [isNaN], [>] and [<] apply to their
    operand. *)
Definition ToNumber (v : JsValue) : number :=
  match v with
  | JNumber n => n
  | JBoolean true => ofZ 1
  | JBoolean false => ofZ 0
  | JUndefined => NaN
  | JNull => ofZ 0
  end.

Definition typeof_boolean (v : JsValue) : bool :=
  match v with JBoolean _ => true | _ => false end.

Record t := {
  debugMaskColors : list (list Pixel);
  decimalPointFloodFillThreshold : JsValue;
  grayThreshold : JsValue;
  rotate180 : JsValue
}.

Definition constructor : t := {|
  decimalPointFloodFillThreshold := JNumber (ofZ 40);
  grayThreshold := JNumber (ofZ 90);
  rotate180 := JBoolean true;
  debugMaskColors :=
    [ [ {| r := 82; g := 4; b := 10 |}; {| r := 233; g := 26; b := 33 |} ];
      [ {| r := 91; g := 38; b := 18 |}; {| r := 255; g := 136; b := 42 |} ];
      [ {| r := 82; g := 67; b := 0 |}; {| r := 255; g := 242; b := 0 |} ];
      [ {| r := 12; g := 71; b := 30 |}; {| r := 32; g := 200; b := 72 |} ];
      [ {| r := 0; g := 42; b := 79 |}; {| r := 0; g := 162; b := 232 |} ];
      [ {| r := 61; g := 12; b := 61 |}; {| r := 143; g := 56; b := 144 |} ] ]
|}.

Definition set_debugMaskColors (value : list (list Pixel)) (c : t) : t :=
  {| debugMaskColors := value;
     decimalPointFloodFillThreshold := decimalPointFloodFillThreshold c;
     grayThreshold := grayThreshold c;
     rotate180 := rotate180 c |}.

(** [!isNaN(value) && value > 0 && value < 255] *)
Definition validThreshold (value : JsValue) : bool :=
  negb (isNaN (ToNumber value))
  && gt (ToNumber value) (ofZ 0)
  && lt (ToNumber value) (ofZ 255).

Definition set_decimalPointFloodFillThreshold (value : JsValue) (c : t) : t :=
  if validThreshold value then
    {| debugMaskColors := debugMaskColors c;
       decimalPointFloodFillThreshold := value;
       grayThreshold := grayThreshold c;
       rotate180 := rotate180 c |}
  else c.

Definition set_grayThreshold (value : JsValue) (c : t) : t :=
  if validThreshold value then
    {| debugMaskColors := debugMaskColors c;
       decimalPointFloodFillThreshold := decimalPointFloodFillThreshold c;
       grayThreshold := value;
       rotate180 := rotate180 c |}
  else c.

Definition set_rotate180 (value : JsValue) (c : t) : t :=
  if typeof_boolean value then
    {| debugMaskColors := debugMaskColors c;
       decimalPointFloodFillThreshold := decimalPointFloodFillThreshold c;
       grayThreshold := grayThreshold c;
       rotate180 := value |}
  else c.

(** An assignment to one of the four properties, which runs its setter. *)
Inductive Assignment :=
| AssignDebugMaskColors (value : list (list Pixel))
| AssignDecimalPointFloodFillThreshold (value : JsValue)
| AssignGrayThreshold (value : JsValue)
| AssignRotate180 (value : JsValue).

Definition assign (a : Assignment) (c : t) : t :=
  match a with
  | AssignDebugMaskColors value => set_debugMaskColors value c
  | AssignDecimalPointFloodFillThreshold value => set_decimalPointFloodFillThreshold value c
  | AssignGrayThreshold value => set_grayThreshold value c
  | AssignRotate180 value => set_rotate180 value c
  end.

(** A sequence of assignments, in order. *)
Definition assigns (l : list Assignment) (c : t) : t := foldl (fun c a => assign a c) c l.

End SegmentDisplayReaderConfiguration.


(** ** timingWorker.js

    The worker holds one interval; [readStart] arms it (clearing a previous
    one first) and [readStop] clears it.  While it is armed the worker
    posts [read] every 100 ms. *)

Module TimingWorker.

Inductive Message := readStart | readStop.

(** The worker's state: whether the interval is armed. *)
Definition onMessage (m : Message) (armed : bool) : bool :=
  match m with
  | readStart => true
  | readStop => false
  end.

End TimingWorker.

(** ** The timers of the timing worker

    The worker keeps one variable, [interval], that holds the handle of the
    timer it started last.  [running] is the set of the timers that are
    live, [issued] the last handle that [setInterval] returned (handles are
    positive and increase).  A live timer posts ['read'] to the reader every
    100 milliseconds. *)
Module Timers.
Import TimingWorker.

Record Worker := {
  interval : option nat;
  running : gset nat;
  issued : nat
}.

Definition initial : Worker := {| interval := None; running := ∅; issued := 0 |}.

(** [clearInterval(handle)]: no timer has the handle [undefined]. *)
Definition clearInterval (handle : option nat) (w : Worker) : Worker :=
  match handle with
  | Some h => {| interval := interval w; running := running w ∖ {[ h ]}; issued := issued w |}
  | None => w
  end.

(** [interval = setInterval(...)]. *)
Definition setInterval (w : Worker) : Worker :=
  let h := S (issued w) in
  {| interval := Some h; running := {[ h ]} ∪ running w; issued := h |}.

(** The listener in the revision of the worker that the sources hold after
    the configuration class: [readStart] clears the timer it holds before
    it starts one. *)
Definition listener (m : Message) (w : Worker) : Worker :=
  match m with
  | readStart => setInterval (clearInterval (interval w) w)
  | readStop => clearInterval (interval w) w
  end.

(** The listener in the revision at the head of [timingWorker.js]:
    [readStart] starts a timer and does not clear the one it holds. *)
Definition listenerWithoutClear (m : Message) (w : Worker) : Worker :=
  match m with
  | readStart => setInterval w
  | readStop => clearInterval (interval w) w
  end.

(** The worker after the messages [ms]. *)
Definition receive (listen : Message -> Worker -> Worker) (ms : list Message) (w : Worker) : Worker :=
  foldl (fun w m => listen m w) w ms.

(** [onMessage] over the messages [ms]. *)
Definition armedAfter (ms : list Message) (armed : bool) : bool :=
  foldl (fun a m => onMessage m a) armed ms.

(** Some timer is live. *)
Definition ticking (w : Worker) : bool := bool_decide (running w ≠ ∅).

(** The worker has no timer but the one whose handle [interval] holds. *)
Definition oneTimer (w : Worker) : Prop :=
  (forall h, h ∈ running w -> interval w = Some h)
  ∧ (forall h, interval w = Some h -> (h <= issued w)%nat).

(** The timer [h] is live and is no longer the one that [interval] holds:
    no message can stop it. *)
Definition leaked (h : nat) (w : Worker) : Prop :=
  h ∈ running w ∧ exists h', interval w = Some h' ∧ (h < h')%nat ∧ (h' <= issued w)%nat.

End Timers.

(** ** SegmentDisplayReader *)

Module SegmentDisplayReader.

Import Js.

(** *** Types of the JSDoc header *)

Abbreviation Coordinate := (Z * Z)%type.
Abbreviation CoordinateArray := (list (Z * Z)).
Abbreviation SevenSegmentDisplay := (list (list (Z * Z))).
Abbreviation OutputDisplays := (list (list (list (Z * Z)))).
Abbreviation Bitmask2d := (list (list Z)).
Abbreviation Grid := (list (list number)).

(** An [ImageData]: the RGBA bytes, row by row.  Its own [width] and
    [height] are never read; the reader indexes it with the canvas width. *)
Record ImageData := { data : list Z }.

Record BoundingRect := {
  rect_x : number; rect_y : number; rect_width : number; rect_height : number
}.

Record HoleComponent := {
  pixels : CoordinateArray;
  centerX : option number;
  centerY : option number;
  rect : option BoundingRect
}.

(** What a method makes visible outside the reader. *)
Inductive Effect :=
| Alert (message : string)
| ConsoleWarnHoles (digit : Z) (holes : Z)
| DispatchChange (value : string)
| DispatchOutput (value : string)
| WorkerPost (m : TimingWorker.Message).

(** The canvas the frames are drawn on; only its size matters. *)
Record Canvas := { width : Z; height : Z }.

(** The fields of [this]. *)
Record Reader := {
  canvas : Canvas;
  calibrationImages : list ImageData;
  lastDisplay : option string;
  calibrated : bool;
  showDebugMask : bool;
  consistentOutputCount : Z;
  grayThreshold : number;
  floodFillDpThreshold : number;
  rotate180 : bool;
  segmentSamples : OutputDisplays;
  grayArray : Grid;
  litReference : Grid;
  unlitReference : Grid;
  backgroundMask : Bitmask2d
}.

Definition emptySegmentSamples : OutputDisplays := replicate 6 (replicate 8 []).

(** [createPixelArray(fillValue)] *)
Definition createPixelArray {A} (c : Canvas) (fillValue : A) : list (list A) :=
  create2dArray (height c) (width c) fillValue.

(** The constructor.  The configuration's thresholds are only ever compared
    with [>], which converts them to numbers; they are stored converted.
    [rotate180] is only tested for truthiness. *)
Definition constructor (canvas0 : Canvas) (configuration : SegmentDisplayReaderConfiguration.t) : Reader :=
  {| canvas := canvas0;
     calibrationImages := [];
     lastDisplay := None;
     calibrated := false;
     showDebugMask := false;
     consistentOutputCount := 0;
     grayThreshold :=
       SegmentDisplayReaderConfiguration.ToNumber
         (SegmentDisplayReaderConfiguration.grayThreshold configuration);
     floodFillDpThreshold :=
       SegmentDisplayReaderConfiguration.ToNumber
         (SegmentDisplayReaderConfiguration.decimalPointFloodFillThreshold configuration);
     rotate180 :=
       match SegmentDisplayReaderConfiguration.rotate180 configuration with
       | SegmentDisplayReaderConfiguration.JBoolean b => b
       | SegmentDisplayReaderConfiguration.JNumber n => truthy n
       | _ => false
       end;
     segmentSamples := emptySegmentSamples;
     grayArray := createPixelArray canvas0 (ofZ 0);
     litReference := createPixelArray canvas0 (ofZ 0);
     unlitReference := createPixelArray canvas0 (ofZ 0);
     backgroundMask := createPixelArray canvas0 0 |}.

(** *** bitmaskToPixelArray

    Row by row, the coordinates [[x, y]] of the cells that are [=== 1]. *)
Definition bitmaskToPixelArray (bitmask : Bitmask2d) : CoordinateArray :=
  mjoin (imap (fun y row =>
           omap id (imap (fun x value =>
                      if value =? 1 then Some (Z.of_nat x, Z.of_nat y) else None) row))
         bitmask).

(** *** getPixelGrayValue

    [undefined + n] is NaN, so a byte read outside the buffer makes the
    gray value NaN. *)
Definition getPixelGrayValue (c : Canvas) (pixelGrid : ImageData) (x y : Z) : number :=
  let index := (y * width c + x) * 4 in
  match at_ (data pixelGrid) index, at_ (data pixelGrid) (index + 1),
        at_ (data pixelGrid) (index + 2) with
  | Some r, Some g, Some b => div (ofZ (r + g + b)) (ofZ 3)
  | _, _, _ => NaN
  end.

(** *** generateBitmask *)

(** A value that has a JavaScript truthiness. *)
Class Truthy (T : Type) := isTruthy : T -> bool.
#[export] Instance Truthy_Z : Truthy Z := fun v => negb (v =? 0).
#[export] Instance Truthy_number : Truthy number := truthy.

(** The 8 neighbours, in the order of the source. *)
Definition directions : list (Z * Z) :=
  [ (-1, -1); (0, -1); (1, -1);
    (-1, 0); (1, 0);
    (-1, 1); (0, 1); (1, 1) ].

(** [row[i] = v] on a bitmask row.  Inside the row the cell is replaced.
    Past its end JavaScript extends the array, leaving holes; a hole reads
    as [undefined], which every reader of a bitmask treats as it treats 0,
    so the holes are recorded as 0.  A negative [i] creates a property that
    is not an element: the list of elements is unchanged. *)
Definition assignIndex (row : list Z) (i : Z) (v : Z) : list Z :=
  if i <? 0 then row
  else if i <? Z.of_nat (length row) then <[Z.to_nat i := v]> row
  else row ++ replicate (Z.to_nat i - length row) 0 ++ [v].

(** [result[ny][nx] = 1]; a [TypeError] when [result] has no row [ny]. *)
Definition assignCell (result : Bitmask2d) (nx ny : Z) : option Bitmask2d :=
  row ← at_ result ny;
  Some (<[Z.to_nat ny := assignIndex row nx 1]> result).

Section GenerateBitmask.

(** [T] is the type of the matrix cells.  A predicate may read and write
    variables of its closure; [Env] is their type.  It receives the cell
    ([None] for [undefined]), the coordinate and the matrix, and may throw. *)
Context {T Env : Type}.

Definition BitmaskMatchFunction : Type :=
  Env -> option T -> Coordinate -> list (list T) -> option (bool * Env).

(** The variables of the [while] loop. *)
Record Flood := {
  queue : CoordinateArray;
  visited : gset (Z * Z);
  result : Bitmask2d;
  env : Env
}.

(** The body of [for (const [dx, dy] of directions)] at the dequeued
    coordinate [(x, y)]. *)
Definition visitDirection (testFunction : BitmaskMatchFunction) (testArray : list (list T))
    (x y : Z) (d : Z * Z) (f : Flood) : option Flood :=
  let nx := x + d.1 in
  let ny := y + d.2 in
  match at_ testArray ny with
  | Some row =>
      if bool_decide ((nx, ny) ∈ visited f) then Some f
      else
        let visited' := {[ (nx, ny) ]} ∪ visited f in
        '(matched, env') ← testFunction (env f) (at_ row nx) (nx, ny) testArray;
        if (matched : bool) then
          result' ← assignCell (result f) nx ny;
          Some {| queue := queue f ++ [(nx, ny)]; visited := visited';
                  result := result'; env := env' |}
        else
          Some {| queue := queue f; visited := visited';
                  result := result f; env := env' |}
  | None => Some f
  end.

Fixpoint visitDirections (testFunction : BitmaskMatchFunction) (testArray : list (list T))
    (x y : Z) (ds : list (Z * Z)) (f : Flood) : option Flood :=
  match ds with
  | [] => Some f
  | d :: ds' =>
      f' ← visitDirection testFunction testArray x y d f;
      visitDirections testFunction testArray x y ds' f'
  end.

(** [while (queue.length)]: one unit of fuel per dequeued coordinate. *)
Fixpoint floodLoop (fuel : nat) (testFunction : BitmaskMatchFunction)
    (testArray : list (list T)) (f : Flood) : option Flood :=
  match queue f with
  | [] => Some f
  | (x, y) :: rest =>
      match fuel with
      | O => None
      | S fuel' =>
          f' ← visitDirections testFunction testArray x y directions
                 {| queue := rest; visited := visited f;
                    result := result f; env := env f |};
          floodLoop fuel' testFunction testArray f'
      end
  end.

(** [generateBitmask(testArray, testFunction, result, queue = [])].  It
    returns the bitmask, and here also the final closure variables of the
    predicate. *)
Definition generateBitmask `{Truthy T} (fuel : nat) (c : Canvas)
    (testArray : list (list T)) (testFunction : option BitmaskMatchFunction)
    (result0 : option Bitmask2d) (queue0 : CoordinateArray) (env0 : Env)
    : option (Bitmask2d * Env) :=
  match testFunction with
  | None =>
      Some (fmap (M := list) (fmap (M := list) (fun value => if isTruthy value then 1 else 0)) testArray, env0)
  | Some testFunction =>
      let result1 := default (createPixelArray c 0) result0 in
      let queue1 := match queue0 with [] => [(0, 0)] | _ => queue0 end in
      f ← floodLoop fuel testFunction testArray
            {| queue := queue1; visited := ∅; result := result1; env := env0 |};
      Some (result f, env f)
  end.

End GenerateBitmask.

Arguments BitmaskMatchFunction : clear implicits.
Arguments Flood : clear implicits.

(** A predicate without closure state that never throws. *)
Definition purePredicate {T} (p : option T -> Coordinate -> bool)
    : BitmaskMatchFunction T unit :=
  fun e value coord _ => Some (p value coord, e).

(** A loop whose body may throw. *)
Fixpoint forEachM {A B} (body : B -> A -> option B) (b : B) (l : list A) : option B :=
  match l with
  | [] => Some b
  | a :: l' => b' ← body b a; forEachM body b' l'
  end.

(** The coordinates visited by [for y { for x { ... } }]. *)
Definition rowMajor (c : Canvas) : CoordinateArray :=
  y ← seqZ 0 (height c); (fun x => (x, y)) <$> seqZ 0 (width c).

(** The matrix that the double loop over the canvas fills cell by cell,
    starting from [createPixelArray]. *)
Definition fillCells {A} (c : Canvas) (cell : Z -> Z -> A) : list (list A) :=
  (fun y => (fun x => cell x y) <$> seqZ 0 (width c)) <$> seqZ 0 (height c).

(** Truthiness of a bitmask cell that may be [undefined]. *)
Definition truthyCell (cell : option Z) : bool :=
  match cell with Some v => isTruthy v | None => false end.

(** *** resetCalibration *)
Definition resetCalibration (st : Reader) : Reader * list Effect :=
  ({| canvas := canvas st;
      calibrationImages := [];
      lastDisplay := None;
      calibrated := false;
      showDebugMask := showDebugMask st;
      consistentOutputCount := 0;
      grayThreshold := grayThreshold st;
      floodFillDpThreshold := floodFillDpThreshold st;
      rotate180 := rotate180 st;
      segmentSamples := emptySegmentSamples;
      grayArray := createPixelArray (canvas st) (ofZ 0);
      litReference := createPixelArray (canvas st) (ofZ 0);
      unlitReference := createPixelArray (canvas st) (ofZ 0);
      backgroundMask := createPixelArray (canvas st) 0 |},
   [WorkerPost TimingWorker.readStop]).

(** *** getOrderedCalibrationImages

    The brightness sums are sums of bytes, exact in binary64; [None] stands
    for the NaN that a byte read outside a buffer produces. *)
Definition sumRGB (d : list Z) (index : Z) : option Z :=
  r ← at_ d index; g ← at_ d (index + 1); b ← at_ d (index + 2); Some (r + g + b).

(** [for (index = 0; index < length; index += 4) sum += d[index] + d[index + 1] + d[index + 2]] *)
Definition brightness (length : Z) (d : list Z) : option Z :=
  foldl (fun sum index => s ← sum; v ← sumRGB d index; Some (s + v))
        (Some 0) ((fun i => 4 * i) <$> seqZ 0 ((length + 3) / 4)).

Definition brighter (sumA sumB : option Z) : bool :=
  match sumA, sumB with
  | Some a, Some b => b <? a
  | _, _ => false
  end.

Definition getOrderedCalibrationImages (st : Reader) : option ImageData * option ImageData :=
  let imageA := calibrationImages st !! 0%nat in
  let imageB := calibrationImages st !! 1%nat in
  match imageA, imageB with
  | Some a, Some b =>
      let length := Z.of_nat (length (data a)) in
      if brighter (brightness length (data a)) (brightness length (data b))
      then (Some a, Some b)
      else (Some b, Some a)
  | _, _ => (imageA, imageB)
  end.

(** *** findHoleComponent *)

Definition backgroundMatchFunction (detectablePixelArray : Bitmask2d)
    : BitmaskMatchFunction Z unit :=
  fun e _ '(x, y) _ =>
    row ← at_ detectablePixelArray y;
    Some (bool_decide (at_ row x = Some 0), e).

(** The closure variable of this predicate is the [visited] set of
    [determineLocations]. *)
Definition holeMatchFunction (pixelArray background : Bitmask2d)
    : BitmaskMatchFunction Z (gset (Z * Z)) :=
  fun visited _ '(x, y) _ =>
    if bool_decide ((x, y) ∈ visited) then Some (false, visited)
    else
      let visited' := {[ (x, y) ]} ∪ visited in
      prow ← at_ pixelArray y;
      if bool_decide (at_ prow x = Some 0) then
        brow ← at_ background y;
        Some (negb (truthyCell (at_ brow x)), visited')
      else Some (false, visited').

Definition findHoleComponent (fuel : nat) (c : Canvas) (pixelArray background : Bitmask2d)
    (visited : gset (Z * Z)) (startCoordinate : Coordinate)
    : option (HoleComponent * gset (Z * Z)) :=
  '(bitmask, visited') ← generateBitmask fuel c pixelArray
       (Some (holeMatchFunction pixelArray background)) None [startCoordinate] visited;
  Some ({| pixels := bitmaskToPixelArray bitmask;
           centerX := None; centerY := None; rect := None |}, visited').

(** *** floodFillDecimalPoint *)

(** [value > this.floodFillDpThreshold]; an [undefined] value is not
    greater than anything. *)
Definition aboveDpThreshold (st : Reader) (value : option number) (_ : Coordinate) : bool :=
  match value with
  | Some v => gt v (floodFillDpThreshold st)
  | None => false
  end.

Definition bitmaskTestFunction (st : Reader) : BitmaskMatchFunction number unit :=
  purePredicate (aboveDpThreshold st).

Definition nearStart (startX startY : Z) (p : Coordinate) : bool :=
  (startX - 6 <? p.1) && (p.1 <? startX + 6) && (startY - 6 <? p.2) && (p.2 <? startY + 6).

Definition floodFillDecimalPoint (fuel : nat) (st : Reader) (startX startY : Z)
    : option CoordinateArray :=
  '(mask, _) ← generateBitmask fuel (canvas st) (grayArray st)
       (Some (bitmaskTestFunction st)) None [(startX, startY)] tt;
  let maskedCoordinates := bitmaskToPixelArray mask in
  Some (filter (fun p => nearStart startX startY p = true) maskedCoordinates).

(** *** determineLocations *)

(** [Array.prototype.sort] with a comparator.  The sort is stable, and for
    a comparator that orders the elements consistently every stable sort
    returns the same array; this is insertion sort. *)
Fixpoint insertSorted {A} (compare : A -> A -> number) (x : A) (l : list A) : list A :=
  match l with
  | [] => [x]
  | y :: l' =>
      if gt (compare y x) (ofZ 0) then x :: y :: l'
      else y :: insertSorted compare x l'
  end.

Definition sort {A} (compare : A -> A -> number) (l : list A) : list A :=
  foldl (fun sorted x => insertSorted compare x sorted) [] l.

(** [value ?? 0] *)
Definition orZero (value : option number) : number := default (ofZ 0) value.

(** Step 2: the reference grids, the difference grid and the detectable
    pixels, from the gray values of the lit and the unlit frame. *)
Definition difference (onGray offGray : Z -> Z -> number) (x y : Z) : number :=
  abs (sub (onGray x y) (offGray x y)).

Definition detectablePixels (c : Canvas) (grayThreshold0 : number)
    (onGray offGray : Z -> Z -> number) : Bitmask2d :=
  fillCells c (fun x y =>
    if gt (difference onGray offGray x y) grayThreshold0 then 1 else 0).

(** Step 4: the scan for hole components. *)
Definition scanPixel (fuel : nat) (c : Canvas) (detectablePixelArray backgroundPixels : Bitmask2d)
    (acc : gset (Z * Z) * list HoleComponent) (p : Coordinate)
    : option (gset (Z * Z) * list HoleComponent) :=
  let '(visited, holeComponents) := acc in
  let '(x, y) := p in
  drow ← at_ detectablePixelArray y;
  if bool_decide (at_ drow x = Some 0) then
    brow ← at_ backgroundPixels y;
    if negb (truthyCell (at_ brow x)) && negb (bool_decide ((x, y) ∈ visited)) then
      '(component, visited') ←
         findHoleComponent fuel c detectablePixelArray backgroundPixels visited (x, y);
      Some (visited',
            if 10 <? Z.of_nat (length (pixels component))
            then holeComponents ++ [component] else holeComponents)
    else Some acc
  else Some acc.

Definition findHoles (fuel : nat) (c : Canvas) (detectablePixelArray backgroundPixels : Bitmask2d)
    : option (list HoleComponent) :=
  snd <$> forEachM (scanPixel fuel c detectablePixelArray backgroundPixels) (∅, []) (rowMajor c).

(** Step 6: centre and bounding rectangle of a hole. *)
Definition measureHole (component : HoleComponent) : HoleComponent :=
  let pixelCount := Z.of_nat (length (pixels component)) in
  let sumX := foldl (fun s p => s + p.1) 0 (pixels component) in
  let sumY := foldl (fun s p => s + p.2) 0 (pixels component) in
  let leftX := foldl (fun m p => min m (ofZ p.1)) Infinity (pixels component) in
  let topY := foldl (fun m p => min m (ofZ p.2)) Infinity (pixels component) in
  let rightX := foldl (fun m p => max m (ofZ p.1)) (ofZ 0) (pixels component) in
  let bottomY := foldl (fun m p => max m (ofZ p.2)) (ofZ 0) (pixels component) in
  {| pixels := pixels component;
     centerX := Some (div (ofZ sumX) (ofZ pixelCount));
     centerY := Some (div (ofZ sumY) (ofZ pixelCount));
     rect := Some {| rect_x := leftX; rect_y := topY;
                     rect_width := add (sub rightX leftX) (ofZ 1);
                     rect_height := add (sub bottomY topY) (ofZ 1) |} |}.

(** Step 7: k-means over the holes' centre X, [k = 6]. *)
Definition k : nat := 6.

(** The inner loop over the group centres for one hole: the index of the
    nearest centre, the lowest one on a tie. *)
Definition nearestCenter (centers : list (option number)) (component : HoleComponent) : nat :=
  snd (foldl (fun '(minDist, bestK) ki =>
          match centerX component, centers !! ki with
          | Some cx, Some (Some center) =>
              let dist := abs (sub cx center) in
              if lt dist minDist then (dist, ki) else (minDist, bestK)
          | _, _ => (minDist, bestK)
          end) (Infinity, 0%nat) (seq 0 k)).

(** One pass of the [while] body: the new assignments, whether one changed,
    and the recomputed centres. *)
Definition assignHoles (holeComponents : list HoleComponent) (centers : list (option number))
    (assignments : list nat) : list nat * bool :=
  let best := nearestCenter centers <$> holeComponents in
  (best, existsb (fun '(old, new) => negb (old =? new)%nat) (zip assignments best)).

Definition updateCenters (holeComponents : list HoleComponent) (assignments : list nat)
    (centers : list (option number)) : list (option number) :=
  let '(sums, counts) :=
    foldl (fun '(sums, counts) '(ki, component) =>
             match centerX component with
             | Some cx => (alter (fun s => add s cx) ki sums, alter Z.succ ki counts)
             | None => (sums, counts)
             end)
          (replicate k (ofZ 0), replicate k 0) (zip assignments holeComponents) in
  imap (fun index center =>
          match sums !! index, counts !! index with
          | Some sum, Some count => if 0 <? count then Some (div sum (ofZ count)) else center
          | _, _ => center
          end) centers.

(** [while (changed && iteration < 10)]; [rounds] is [10 - iteration]. *)
Fixpoint kMeans (rounds : nat) (holeComponents : list HoleComponent)
    (centers : list (option number)) (assignments : list nat)
    : list (option number) * list nat :=
  match rounds with
  | O => (centers, assignments)
  | S rounds' =>
      let '(assignments', changed) := assignHoles holeComponents centers assignments in
      let centers' := updateCenters holeComponents assignments' centers in
      if changed then kMeans rounds' holeComponents centers' assignments'
      else (centers', assignments')
  end.

(** [groups[assignments[index]].push(holeComponents[index])] for every hole. *)
Definition groupHoles (holeComponents : list HoleComponent) (assignments : list nat)
    : list (list HoleComponent) :=
  foldl (fun groups '(ki, component) => alter (fun group => group ++ [component]) ki groups)
        (replicate k []) (zip assignments holeComponents).

(** Step 10: [addToSeg(index, x, y)], on the segment storage of one digit. *)
Definition addToSeg (c : Canvas) (detectablePixelArray : Bitmask2d)
    (segments : SevenSegmentDisplay) (index : nat) (x y : Z) : option SevenSegmentDisplay :=
  if (-1 <? x) && (x <? width c) && (-1 <? y) && (y <? height c)
     && bool_decide (at_ detectablePixelArray y ≫= (fun row => at_ row x) = Some 1)
  then segment ← segments !! index; Some (<[index := segment ++ [(x, y)]]> segments)
  else Some segments.

Definition reach : Z := 7.
Definition horizontalReach : Z := 6.

Definition sampleUpper (c : Canvas) (detectablePixelArray : Bitmask2d)
    (segments : SevenSegmentDisplay) (p : Coordinate) : option SevenSegmentDisplay :=
  let '(x, y) := p in
  s ← addToSeg c detectablePixelArray segments 0 x (y - horizontalReach);
  s ← addToSeg c detectablePixelArray s 5 (x - reach) y;
  s ← addToSeg c detectablePixelArray s 1 (x + reach) y;
  addToSeg c detectablePixelArray s 6 x (y + horizontalReach).

Definition sampleLower (c : Canvas) (detectablePixelArray : Bitmask2d)
    (segments : SevenSegmentDisplay) (p : Coordinate) : option SevenSegmentDisplay :=
  let '(x, y) := p in
  s ← addToSeg c detectablePixelArray segments 4 (x - reach) y;
  s ← addToSeg c detectablePixelArray s 2 (x + reach) y;
  addToSeg c detectablePixelArray s 3 x (y + horizontalReach).

(** Step 11: the rightmost X and bottommost Y over segments 0 to 6, both
    starting from -1. *)
Definition extremes (segments : SevenSegmentDisplay) : option (Z * Z) :=
  forEachM (fun acc segmentIndex =>
              segmentPixels ← segments !! segmentIndex;
              Some (foldl (fun '(rightmostX, bottommostY) '(px, py) =>
                             (if rightmostX <? px then px else rightmostX,
                              if bottommostY <? py then py else bottommostY))
                          acc segmentPixels))
           (-1, -1) (seq 0 7).

(** [segments[7] = dpPixels]; the loop of [extremes] has read segments 0 to
    6, so the array has at least 7 entries here. *)
Definition assignDecimalPoint (segments : SevenSegmentDisplay) (dpPixels : CoordinateArray)
    : SevenSegmentDisplay :=
  if (length segments =? 7)%nat then segments ++ [dpPixels] else <[7%nat := dpPixels]> segments.

(** The body of [groupObjects.forEach(({ group }, digit) => ...)].  [st]
    carries the difference grid and the sample sets as they are when the
    body runs. *)
Definition locateDigit (fuel : nat) (detectablePixelArray : Bitmask2d)
    (acc : Reader * list Effect) (entry : nat * list HoleComponent)
    : option (Reader * list Effect) :=
  let '(st, effects) := acc in
  let '(digit, group) := entry in
  if negb (length group =? 2)%nat then
    Some (st, effects ++ [ConsoleWarnHoles (Z.of_nat digit) (Z.of_nat (length group))])
  else
    match sort (fun a b => sub (orZero (centerY a)) (orZero (centerY b))) group with
    | [upper; lower] =>
        segments ← segmentSamples st !! digit;
        segments ← forEachM (sampleUpper (canvas st) detectablePixelArray) segments (pixels upper);
        segments ← forEachM (sampleLower (canvas st) detectablePixelArray) segments (pixels lower);
        '(rightmostX, bottommostY) ← extremes segments;
        segments ←
          (if negb (rightmostX =? -1) && negb (bottommostY =? -1) then
             dpPixels ← floodFillDecimalPoint fuel st (rightmostX + 2) (bottommostY + 2);
             Some (assignDecimalPoint segments dpPixels)
           else Some segments);
        Some ({| canvas := canvas st;
                 calibrationImages := calibrationImages st;
                 lastDisplay := lastDisplay st;
                 calibrated := calibrated st;
                 showDebugMask := showDebugMask st;
                 consistentOutputCount := consistentOutputCount st;
                 grayThreshold := grayThreshold st;
                 floodFillDpThreshold := floodFillDpThreshold st;
                 rotate180 := rotate180 st;
                 segmentSamples := <[digit := segments]> (segmentSamples st);
                 grayArray := grayArray st;
                 litReference := litReference st;
                 unlitReference := unlitReference st;
                 backgroundMask := backgroundMask st |}, effects)
    | _ => None
    end.

Definition notEnoughHoles : string :=
  "Not enough holes detected. Please ensure all segments are visible and in focus, then try calibrating again.".

(** [determineLocations] from the gray values of the ordered frames on. *)
Definition locate (fuel : nat) (st : Reader) (onGray offGray : Z -> Z -> number)
    : option (bool * Reader * list Effect) :=
  let c := canvas st in
  let detectablePixelArray := detectablePixels c (grayThreshold st) onGray offGray in
  '(backgroundPixels, _) ← generateBitmask fuel c detectablePixelArray
       (Some (backgroundMatchFunction detectablePixelArray)) None [] tt;
  let st1 :=
    {| canvas := c;
       calibrationImages := calibrationImages st;
       lastDisplay := lastDisplay st;
       calibrated := calibrated st;
       showDebugMask := showDebugMask st;
       consistentOutputCount := consistentOutputCount st;
       grayThreshold := grayThreshold st;
       floodFillDpThreshold := floodFillDpThreshold st;
       rotate180 := rotate180 st;
       segmentSamples := segmentSamples st;
       grayArray := fillCells c (difference onGray offGray);
       litReference := fillCells c onGray;
       unlitReference := fillCells c offGray;
       backgroundMask := backgroundPixels |} in
  holeComponents ← findHoles fuel c detectablePixelArray backgroundPixels;
  if negb (length holeComponents =? 12)%nat then
    let '(st2, effects) := resetCalibration st1 in
    Some (false, st2, Alert notEnoughHoles :: effects)
  else
    let holeComponents := measureHole <$> holeComponents in
    let componentCount := length holeComponents in
    let holeComponents :=
      sort (fun a b => sub (orZero (centerX a)) (orZero (centerX b))) holeComponents in
    centers ← mapM (fun index => centerX <$> holeComponents !! (index * componentCount / k)%nat)
                   (seq 0 k);
    let '(centers, assignments) := kMeans 10 holeComponents centers (replicate 12 0%nat) in
    let groups := groupHoles holeComponents assignments in
    let groupObjects :=
      sort (fun a b => sub (orZero a.2) (orZero b.2))
           (imap (fun index group => (group, default None (centers !! index))) groups) in
    '(st3, effects) ← forEachM (locateDigit fuel detectablePixelArray) (st1, [])
                         (imap (fun digit groupObject => (digit, groupObject.1)) groupObjects);
    Some (true, st3, effects).

(** [getPixelGrayValue] destructures its image: an [undefined] image is a
    [TypeError] at the first pixel, if the canvas has one. *)
Definition determineLocations (fuel : nat) (st : Reader) : option (bool * Reader * list Effect) :=
  match getOrderedCalibrationImages st with
  | (Some litImage, Some unlitImage) =>
      locate fuel st (getPixelGrayValue (canvas st) litImage)
                     (getPixelGrayValue (canvas st) unlitImage)
  | _ =>
      if (0 <? height (canvas st)) && (0 <? width (canvas st)) then None
      else locate fuel st (fun _ _ => NaN) (fun _ _ => NaN)
  end.

(** *** attemptCalibration *)
Definition attemptCalibration (fuel : nat) (st : Reader) : option (bool * Reader * list Effect) :=
  '(success, st', effects) ← determineLocations fuel st;
  if (success : bool) then
    Some (success,
          {| canvas := canvas st';
             calibrationImages := calibrationImages st';
             lastDisplay := lastDisplay st';
             calibrated := true;
             showDebugMask := showDebugMask st';
             consistentOutputCount := consistentOutputCount st';
             grayThreshold := grayThreshold st';
             floodFillDpThreshold := floodFillDpThreshold st';
             rotate180 := rotate180 st';
             segmentSamples := segmentSamples st';
             grayArray := grayArray st';
             litReference := litReference st';
             unlitReference := unlitReference st';
             backgroundMask := backgroundMask st' |},
          effects ++ [WorkerPost TimingWorker.readStart])
  else Some (success, st', effects).

(** *** captureCalibrationImage

    [frame] is what [captureImageData] returns when the method runs. *)
Definition pushCalibrationImage (frame : ImageData) (st : Reader) : Reader :=
  {| canvas := canvas st;
     calibrationImages := calibrationImages st ++ [frame];
     lastDisplay := lastDisplay st;
     calibrated := calibrated st;
     showDebugMask := showDebugMask st;
     consistentOutputCount := consistentOutputCount st;
     grayThreshold := grayThreshold st;
     floodFillDpThreshold := floodFillDpThreshold st;
     rotate180 := rotate180 st;
     segmentSamples := segmentSamples st;
     grayArray := grayArray st;
     litReference := litReference st;
     unlitReference := unlitReference st;
     backgroundMask := backgroundMask st |}.

Definition captureCalibrationImage (fuel : nat) (autoAttemptCalibration : bool)
    (frame : ImageData) (st : Reader) : option (Reader * list Effect) :=
  let initialLength := length (calibrationImages st) in
  if (initialLength =? 2)%nat then
    let '(st1, effects) := resetCalibration st in
    Some (pushCalibrationImage frame st1, effects)
  else if (initialLength <? 2)%nat then
    let st1 := pushCalibrationImage frame st in
    if (length (calibrationImages st1) =? 2)%nat && autoAttemptCalibration then
      '(_, st2, effects) ← attemptCalibration fuel st1;
      Some (st2, effects)
    else Some (st1, [])
  else Some (st, []).

(** *** estimateAmbientOffset *)

(** The values of [for (i = 0; i < limit; i += step)]. *)
Definition stepValues (limit step : Z) : list Z :=
  (fun i => i * step) <$> seqZ 0 ((limit + step - 1) / step).

(** An [undefined] operand of an arithmetic operation is NaN. *)
Definition orNaN (value : option number) : number := default NaN value.

Definition estimateAmbientOffset (st : Reader) (currentData : ImageData) : number :=
  if (length (backgroundMask st) =? 0)%nat then ofZ 0
  else
    let stepY := Z.max 1 (height (canvas st) / 40) in
    let stepX := Z.max 1 (width (canvas st) / 40) in
    let '(sum, count) :=
      foldl (fun acc y =>
               match at_ (backgroundMask st) y, at_ (unlitReference st) y with
               | Some maskRow, Some unlitRow =>
                   foldl (fun '(sum, count) x =>
                            if truthyCell (at_ maskRow x) then
                              let pixelGray := getPixelGrayValue (canvas st) currentData x y in
                              (add sum (sub pixelGray (orNaN (at_ unlitRow x))), count + 1)
                            else (sum, count))
                         acc (stepValues (width (canvas st)) stepX)
               | _, _ => acc
               end)
            (ofZ 0, 0) (stepValues (height (canvas st)) stepY) in
    if count =? 0 then ofZ 0 else div sum (ofZ count).

(** *** isPixelLit *)
Definition isPixelLit (st : Reader) (pixelGray : number) (x y : Z) (ambientOffset : number) : bool :=
  match at_ (litReference st) y, at_ (unlitReference st) y with
  | Some litRow, Some unlitRow =>
      let litGray := orNaN (at_ litRow x) in
      let unlitGray := orNaN (at_ unlitRow x) in
      let adjustedGray := sub pixelGray ambientOffset in
      let range := max (abs (sub litGray unlitGray)) (ofZ 1) in
      let distanceToLit := div (abs (sub adjustedGray litGray)) range in
      let distanceToUnlit := div (abs (sub adjustedGray unlitGray)) range in
      le distanceToLit distanceToUnlit
  | _, _ =>
      gt pixelGray
         match at_ (grayArray st) y with
         | Some fallbackRow => orNaN (at_ fallbackRow x)
         | None => ofZ 0
         end
  end.

(** Whether the sample pixel [p] is lit in the frame [currentData]. *)
Definition sampleLit (st : Reader) (currentData : ImageData) (ambientOffset : number)
    (p : Coordinate) : bool :=
  isPixelLit st (getPixelGrayValue (canvas st) currentData p.1 p.2) p.1 p.2 ambientOffset.

(** *** readDisplays *)

(** [charMap]; a JavaScript string is a [string] with one character per
    UTF-16 code unit. *)
Definition charMap (bitmask : Z) : option string :=
  match bitmask with
  | 0 => Some " "
  | 2 => Some "'"
  | 4 => Some "i"
  | 6 => Some "1"
  | 7 => Some "7"
  | 8 => Some "_"
  | 16 => Some ","
  | 28 => Some "u"
  | 30 => Some "J"
  | 32 => Some "`"
  | 34 => Some (String (Ascii.ascii_of_nat 34) EmptyString)
  | 48 => Some "I"
  | 56 => Some "L"
  | 57 => Some "C"
  | 61 => Some "G"
  | 62 => Some "U"
  | 63 => Some "0"
  | 64 => Some "-"
  | 79 => Some "3"
  | 80 => Some "r"
  | 83 => Some "?"
  | 84 => Some "n"
  | 88 => Some "c"
  | 91 => Some "2"
  | 92 => Some "o"
  | 94 => Some "d"
  | 95 => Some "a"
  | 102 => Some "4"
  | 103 => Some "q"
  | 109 => Some "5"
  | 110 => Some "Y"
  | 111 => Some "9"
  | 113 => Some "F"
  | 115 => Some "P"
  | 116 => Some "h"
  | 118 => Some "H"
  | 119 => Some "A"
  | 120 => Some "t"
  | 121 => Some "E"
  | 123 => Some "e"
  | 124 => Some "b"
  | 125 => Some "6"
  | 127 => Some "8"
  | _ => None
  end.

(** The three characters U+00F4, U+00BF, U+00BE shown for a bitmask that
    is not in [charMap]. *)
Definition unknownGlyph : string :=
  String (Ascii.ascii_of_nat 244)
    (String (Ascii.ascii_of_nat 191) (String (Ascii.ascii_of_nat 190) EmptyString)).

(** The loop over the sample pixels of one segment: whether the countdown
    [toLight] is brought to 0 by [--toLight === 0] before the pixels run
    out. *)
Fixpoint countdown (lit : Coordinate -> bool) (pixels0 : CoordinateArray) (toLight : Z) : bool :=
  match pixels0 with
  | [] => false
  | p :: rest =>
      if lit p then
        if toLight - 1 =? 0 then true else countdown lit rest (toLight - 1)
      else countdown lit rest toLight
  end.

(** [Math.floor(pixelCount * 0.5)] is the integer quotient by 2: halving is
    exact in binary64. *)
Definition segmentOn (lit : Coordinate -> bool) (pixels0 : CoordinateArray) : bool :=
  let pixelCount := Z.of_nat (length pixels0) in
  let toLight := pixelCount / 2 in
  countdown lit pixels0 toLight.

(** The loop over the 8 segments of one digit: the bitmask and
    [lightDecimalPoint]. *)
Definition decodeDigit (lit : Coordinate -> bool) (digitSegments : SevenSegmentDisplay)
    : option (Z * bool) :=
  forEachM (fun '(bitmask, lightDecimalPoint) segment =>
              pixels0 ← digitSegments !! segment;
              if segmentOn lit pixels0 then
                if (segment =? 7)%nat then Some (bitmask, true)
                else Some (bitmask + Z.shiftl 1 (Z.of_nat segment), lightDecimalPoint)
              else Some (bitmask, lightDecimalPoint))
           (0, false) (seq 0 8).

Definition digitText (decoded : Z * bool) : string :=
  (default unknownGlyph (charMap decoded.1)) +:+ (if decoded.2 then "." else EmptyString).

(** The correction for the Stack Pointer and Index Register notation. *)
Definition correctNotation (result0 : string) : string :=
  if bool_decide (String.get 2 result0 = Some "."%char) then
    if String.prefix "5P" result0 then "S" +:+ String.substring 1 (String.length result0 - 1) result0
    else if String.prefix "1n" result0 then "I" +:+ String.substring 1 (String.length result0 - 1) result0
    else result0
  else result0.

(** The text of the six digits in the frame. *)
Definition decodeDisplays (st : Reader) (currentData : ImageData) : option string :=
  let ambientOffset := estimateAmbientOffset st currentData in
  result0 ← forEachM (fun text digit =>
                        digitSegments ← segmentSamples st !! digit;
                        decoded ← decodeDigit (sampleLit st currentData ambientOffset) digitSegments;
                        Some (text +:+ digitText decoded))
                     EmptyString (seq 0 6);
  Some (correctNotation result0).

(** The comparison with the previous reading that ends [readDisplays]. *)
Definition track (result0 : string) (st : Reader) : Reader * list Effect :=
  if bool_decide (lastDisplay st = Some result0) then
    ({| canvas := canvas st;
        calibrationImages := calibrationImages st;
        lastDisplay := lastDisplay st;
        calibrated := calibrated st;
        showDebugMask := showDebugMask st;
        consistentOutputCount := consistentOutputCount st + 1;
        grayThreshold := grayThreshold st;
        floodFillDpThreshold := floodFillDpThreshold st;
        rotate180 := rotate180 st;
        segmentSamples := segmentSamples st;
        grayArray := grayArray st;
        litReference := litReference st;
        unlitReference := unlitReference st;
        backgroundMask := backgroundMask st |},
     if consistentOutputCount st =? 3 then [DispatchOutput result0] else [])
  else
    ({| canvas := canvas st;
        calibrationImages := calibrationImages st;
        lastDisplay := Some result0;
        calibrated := calibrated st;
        showDebugMask := showDebugMask st;
        consistentOutputCount := 0;
        grayThreshold := grayThreshold st;
        floodFillDpThreshold := floodFillDpThreshold st;
        rotate180 := rotate180 st;
        segmentSamples := segmentSamples st;
        grayArray := grayArray st;
        litReference := litReference st;
        unlitReference := unlitReference st;
        backgroundMask := backgroundMask st |},
     [DispatchChange result0]).

(** [readDisplays].  The debug overlay, drawn last when [showDebugMask] is
    set, paints the canvas and changes nothing of the reader; it is left
    out. *)
Definition readDisplays (currentData : ImageData) (st : Reader) : option (Reader * list Effect) :=
  result0 ← decodeDisplays st currentData;
  Some (track result0 st).

(** The readings of successive ticks, fed to [track] one after the other. *)
Fixpoint tracks (results : list string) (st : Reader) : Reader * list Effect :=
  match results with
  | [] => (st, [])
  | result0 :: rest =>
      let '(st1, effects1) := track result0 st in
      let '(st2, effects2) := tracks rest st1 in
      (st2, effects1 ++ effects2)
  end.

(** *** refine *)

(** [Math.floor(pixelCount * 0.7)], computed in binary64 as the source does. *)
Definition highLimit (pixelCount : Z) : Z := floor (mul (ofZ pixelCount) lit_0_7).

(** The body of the loop over the segments, on one sample set. *)
Definition refineSegment (lit : Coordinate -> bool) (pixels0 : CoordinateArray) : CoordinateArray :=
  let litPixels := filter (fun p => lit p = true) pixels0 in
  let offPixels := filter (fun p => lit p = false) pixels0 in
  let pixelCount := Z.of_nat (length pixels0) in
  if highLimit pixelCount <? Z.of_nat (length litPixels) then litPixels
  else if highLimit pixelCount <? Z.of_nat (length offPixels) then offPixels
  else pixels0.

Definition refineDigit (lit : Coordinate -> bool) (digitSegments : SevenSegmentDisplay)
    : option SevenSegmentDisplay :=
  forEachM (fun segments segment =>
              pixels0 ← segments !! segment;
              Some (<[segment := refineSegment lit pixels0]> segments))
           digitSegments (seq 0 8).

Definition refine (currentData : ImageData) (st : Reader) : option Reader :=
  let ambientOffset := estimateAmbientOffset st currentData in
  samples ← forEachM (fun samples digit =>
                        digitSegments ← samples !! digit;
                        digitSegments' ← refineDigit (sampleLit st currentData ambientOffset) digitSegments;
                        Some (<[digit := digitSegments']> samples))
                     (segmentSamples st) (seq 0 6);
  Some {| canvas := canvas st;
          calibrationImages := calibrationImages st;
          lastDisplay := lastDisplay st;
          calibrated := calibrated st;
          showDebugMask := showDebugMask st;
          consistentOutputCount := consistentOutputCount st;
          grayThreshold := grayThreshold st;
          floodFillDpThreshold := floodFillDpThreshold st;
          rotate180 := rotate180 st;
          segmentSamples := samples;
          grayArray := grayArray st;
          litReference := litReference st;
          unlitReference := unlitReference st;
          backgroundMask := backgroundMask st |}.

(** *** The reader's interface, as one transition function *)

Inductive Call :=
| CaptureCalibrationImage (autoAttemptCalibration : bool) (frame : ImageData)
| AttemptCalibration
| ResetCalibration
| ReadDisplays (frame : ImageData)
| Refine (frame : ImageData).

Definition call (fuel : nat) (c : Call) (st : Reader) : option (Reader * list Effect) :=
  match c with
  | CaptureCalibrationImage auto frame => captureCalibrationImage fuel auto frame st
  | AttemptCalibration =>
      '(_, st', effects) ← attemptCalibration fuel st; Some (st', effects)
  | ResetCalibration => Some (resetCalibration st)
  | ReadDisplays frame => readDisplays frame st
  | Refine frame => st' ← refine frame st; Some (st', [])
  end.

(** A sequence of calls, each continuing from the state the previous one
    left. *)
Fixpoint calls (fuel : nat) (cs : list Call) (st : Reader) : option (Reader * list Effect) :=
  match cs with
  | [] => Some (st, [])
  | c :: cs' =>
      '(st1, effects1) ← call fuel c st;
      '(st2, effects2) ← calls fuel cs' st1;
      Some (st2, effects1 ++ effects2)
  end.

(** *** debugMask

    The frame's [data] is a [Uint8ClampedArray]: a store clamps the value
    to 0..255, and a store at an index outside the buffer does nothing. *)
Definition clampByte (v : Z) : Z := Z.max 0 (Z.min 255 v).

Definition storeByte (d : list Z) (index v : Z) : list Z :=
  if index <? 0 then d else <[Z.to_nat index := clampByte v]> d.

(** The body of the innermost loop, for one sample pixel of [digit].
    [colors] is [this.debugMaskColors], which the constructor copies from
    the configuration; [colors[digit][isOn ? 1 : 0]] is destructured, a
    [TypeError] when it is [undefined]. *)
Definition paintPixel (st : Reader)
    (colors : list (list SegmentDisplayReaderConfiguration.Pixel))
    (ambientOffset : number) (digit : nat) (currentData : ImageData) (p : Coordinate) : option ImageData :=
  let '(x, y) := p in
  let currentGray := getPixelGrayValue (canvas st) currentData x y in
  let isOn := isPixelLit st currentGray x y ambientOffset in
  pair ← colors !! digit;
  color ← pair !! (if isOn then 1 else 0)%nat;
  let pixelIndex := (y * width (canvas st) + x) * 4 in
  let d := storeByte (data currentData) pixelIndex (SegmentDisplayReaderConfiguration.r color) in
  let d := storeByte d (pixelIndex + 1) (SegmentDisplayReaderConfiguration.g color) in
  let d := storeByte d (pixelIndex + 2) (SegmentDisplayReaderConfiguration.b color) in
  Some {| data := storeByte d (pixelIndex + 3) 255 |}.

(** [debugMask(currentData, ambientOffset)]; the result is the frame that
    [putImageData] draws on the canvas. *)
Definition debugMask (st : Reader)
    (colors : list (list SegmentDisplayReaderConfiguration.Pixel))
    (currentData : ImageData) (ambientOffset : number) : option ImageData :=
  forEachM (fun frame digit =>
              digitSegments ← segmentSamples st !! digit;
              forEachM (fun frame segment =>
                          pixels0 ← digitSegments !! segment;
                          forEachM (paintPixel st colors ambientOffset digit) frame pixels0)
                       frame (seq 0 8))
           currentData (seq 0 6).

(** *** The listener of the worker's messages

    The constructor's listener: a message of the worker stops the worker
    when the reader is not calibrated, and otherwise reads the displays
    (the worker posts nothing but ['read']). *)
Definition onWorkerMessage (frame : ImageData) (st : Reader) : option (Reader * list Effect) :=
  if calibrated st then readDisplays frame st
  else Some (st, [WorkerPost TimingWorker.readStop]).

(** What happens to a reader: a call of one of its methods, or a message of
    the worker with the frame that the camera shows then. *)
Inductive Event :=
| Called (c : Call)
| Ticked (frame : ImageData).

(** The reader and the effects after one event. *)
Definition handle (fuel : nat) (ev : Event) (st : Reader) : option (Reader * list Effect) :=
  match ev with
  | Called c => call fuel c st
  | Ticked frame => onWorkerMessage frame st
  end.

(** A sequence of events, each continuing from the state the previous one
    left. *)
Fixpoint handles (fuel : nat) (evs : list Event) (st : Reader) : option (Reader * list Effect) :=
  match evs with
  | [] => Some (st, [])
  | ev :: evs' =>
      '(st1, effects1) ← handle fuel ev st;
      '(st2, effects2) ← handles fuel evs' st1;
      Some (st2, effects1 ++ effects2)
  end.

End SegmentDisplayReader.

(** * Vocabulary and fixtures of the properties *)

Import Js SegmentDisplayReader.

Module Cfg := SegmentDisplayReaderConfiguration.

(** The stable-output notifications among the effects. *)
Definition isOutput (e : Effect) : bool :=
  match e with DispatchOutput _ => true | _ => false end.

(** The number of sample pixels that a classifier finds lit. *)
Definition litCount (lit : Coordinate -> bool) (pixels0 : CoordinateArray) : Z :=
  Z.of_nat (length (filter (fun p => lit p = true) pixels0)).

(** A reader whose references are 200 (lit) and 50 (unlit) everywhere, on a
    canvas of the given width and one row. *)
Definition flatReader (width0 : Z) (samples : OutputDisplays) : Reader :=
  let c := {| width := width0; height := 1 |} in
  {| canvas := c;
     calibrationImages := [];
     lastDisplay := None;
     calibrated := true;
     showDebugMask := false;
     consistentOutputCount := 0;
     grayThreshold := ofZ 90;
     floodFillDpThreshold := ofZ 40;
     rotate180 := false;
     segmentSamples := samples;
     grayArray := createPixelArray c (ofZ 150);
     litReference := createPixelArray c (ofZ 200);
     unlitReference := createPixelArray c (ofZ 50);
     backgroundMask := createPixelArray c 0 |}.

(** A one-row frame from the gray value of each pixel. *)
Definition grayFrame (grays : list Z) : ImageData :=
  {| data := v ← grays; [v; v; v; 255] |}.

(** Sample sets in which only segment A of digit 0 has pixels. *)
Definition onlySegmentA (pixels0 : CoordinateArray) : OutputDisplays :=
  <[0%nat := <[0%nat := pixels0]> (replicate 8 [])]> emptySegmentSamples.

(** The first [n] pixels of row 0. *)
Definition rowPixels (n : Z) : CoordinateArray := (fun x => (x, 0)) <$> seqZ 0 n.

(** A matrix with the canvas's number of rows and columns. *)
Definition hasSize {A} (m : list (list A)) (c : Canvas) : Prop :=
  length m = Z.to_nat (height c)
  ∧ Forall (fun row => length row = Z.to_nat (width c)) m.

Definition inCanvas (c : Canvas) (p : Coordinate) : Prop :=
  0 <= p.1 < width c ∧ 0 <= p.2 < height c.

(** The coordinates of the canvas, as a set. *)
Definition cellSet (c : Canvas) : gset (Z * Z) := list_to_set (rowMajor c).

(** The canvas cells that a flood fill has not tested yet. *)
Definition unvisited {Env} (c : Canvas) (f : Flood Env) : nat :=
  size (cellSet c ∖ visited f).

(** The cell of a matrix at a coordinate, [None] where there is none. *)
Definition cellAt {A} (m : list (list A)) (p : Coordinate) : option A :=
  at_ m p.2 ≫= (fun row => at_ row p.1).

(** [q] is one of the 8 neighbours of [p]. *)
Definition adjacent (p q : Coordinate) : Prop :=
  exists d, d ∈ directions ∧ q = (p.1 + d.1, p.2 + d.2).

(** The flood fill tests [q] and the predicate accepts it: the matrix has
    the row of [q], and the predicate holds of the cell there (which is
    [undefined] outside the row) and of [q]. *)
Definition accepted {T} (include : option T -> Coordinate -> bool)
    (testArray : list (list T)) (q : Coordinate) : Prop :=
  exists row, at_ testArray q.2 = Some row ∧ include (at_ row q.1) q = true.

(** [q] is reached from a seed by one or more steps to a neighbour, each
    one arriving at an accepted coordinate.  The seed itself need not be
    accepted, and is reached only if such a path leads back to it. *)
Inductive reachable {T} (include : option T -> Coordinate -> bool)
    (testArray : list (list T)) (seeds : CoordinateArray) : Coordinate -> Prop :=
| reach_seed s q :
    s ∈ seeds -> adjacent s q -> accepted include testArray q ->
    reachable include testArray seeds q
| reach_step p q :
    reachable include testArray seeds p -> adjacent p q ->
    accepted include testArray q ->
    reachable include testArray seeds q.

(** The seeds that [generateBitmask] starts from. *)
Definition seedsOrOrigin (queue0 : CoordinateArray) : CoordinateArray :=
  match queue0 with [] => [(0, 0)] | _ => queue0 end.

(** Fuel that is enough for every flood fill from one seed on the canvas. *)
Definition enoughFuel (c : Canvas) (fuel : nat) : Prop :=
  (1 + Z.to_nat (height c) * Z.to_nat (width c) < fuel)%nat.

(** The coordinates from which the flood fill expands: the seeds, and the
    tested coordinates that the predicate accepted. *)
Definition expands {T} (include : option T -> Coordinate -> bool)
    (testArray : list (list T)) (seeds : CoordinateArray)
    (visited0 : gset (Z * Z)) (p : Coordinate) : Prop :=
  p ∈ seeds ∨ (p ∈ visited0 ∧ accepted include testArray p).

(** Every neighbour of [p] on a row of the matrix has been tested. *)
Definition surrounded {T} (testArray : list (list T)) (visited0 : gset (Z * Z))
    (p : Coordinate) : Prop :=
  forall q, adjacent p q -> is_Some (at_ testArray q.2) -> q ∈ visited0.

(** The invariant of the flood fill with a predicate [include] that has no
    closure state; [current] is the coordinate whose neighbours are being
    visited, if any. *)
Record floodInvariant {T} (include : option T -> Coordinate -> bool)
    (testArray : list (list T)) (c : Canvas) (seeds : CoordinateArray)
    (current : option Coordinate) (f : Flood unit) : Prop := {
  inv_size : hasSize (result f) c;
  inv_marked : forall p,
    cellAt (result f) p = Some 1 <-> p ∈ visited f ∧ accepted include testArray p;
  inv_binary : forall p, inCanvas c p ->
    cellAt (result f) p = Some 0 ∨ cellAt (result f) p = Some 1;
  inv_sound : forall p,
    p ∈ visited f -> accepted include testArray p ->
    reachable include testArray seeds p;
  inv_queue : forall p,
    p ∈ queue f -> expands include testArray seeds (visited f) p;
  inv_closed : forall p,
    expands include testArray seeds (visited f) p ->
    Some p = current ∨ p ∈ queue f ∨ surrounded testArray (visited f) p
}.

(** While the neighbours of [p] are visited: the invariant with [p] as the
    current coordinate, and the directions already taken are covered. *)
Definition floodVisiting {T} (include : option T -> Coordinate -> bool)
    (testArray : list (list T)) (c : Canvas) (seeds : CoordinateArray)
    (p : Coordinate) (taken : list (Z * Z)) (f : Flood unit) : Prop :=
  floodInvariant include testArray c seeds (Some p) f
  ∧ expands include testArray seeds (visited f) p
  ∧ forall d, d ∈ taken -> is_Some (at_ testArray (p.2 + d.2)) ->
              (p.1 + d.1, p.2 + d.2) ∈ visited f.

(** Strictly within 6 of the start on both axes: at most 5 away. *)
Definition within6 (startX startY : Z) (p : Coordinate) : Prop :=
  startX - 6 < p.1 < startX + 6 ∧ startY - 6 < p.2 < startY + 6.

(** A synthetic display of six digits on a canvas of 146 x 8 pixels.  Digit
    [k] is an outline 13 pixels wide and 5 high whose left column is
    [x = 2 + 24 k] and whose top row is [y = 1]; its bars are rows 1, 3 and
    5, and between them it encloses two holes of 11 pixels each (rows 2
    and 4).  Below and to the right of digit 0 is a dot: row 6, columns 15
    to 23. *)
Definition displayCanvas : Canvas := {| width := 146; height := 8 |}.

Definition onOutline (x y : Z) : bool :=
  (2 <=? x) && ((x - 2) mod 24 <=? 12) && (1 <=? y) && (y <=? 5)
  && (Z.odd y || ((x - 2) mod 24 =? 0) || ((x - 2) mod 24 =? 12)).

Definition onDot (x y : Z) : bool := (y =? 6) && (15 <=? x) && (x <=? 23).

(** The frame in which every pixel has the given gray value on its three
    colour channels. *)
Definition frameOf (gray : Z -> Z -> Z) : ImageData :=
  {| data := p ← rowMajor displayCanvas; [gray p.1 p.2; gray p.1 p.2; gray p.1 p.2; 255] |}.

(** All segments lit: the outlines at 123, the dot at 78, the rest black. *)
Definition litFrame : ImageData :=
  frameOf (fun x y => if onOutline x y then 123 else if onDot x y then 78 else 0).

(** All segments dark: black everywhere. *)
Definition darkFrame : ImageData := frameOf (fun _ _ => 0).

(** All segments dark under a faint ambient light: outlines and dot black,
    the rest at 36.  Its summed brightness equals that of [litFrame]. *)
Definition dimFrame : ImageData :=
  frameOf (fun x y => if onOutline x y || onDot x y then 0 else 36).

Definition displayReader : Reader := constructor displayCanvas Cfg.constructor.

(** Capturing two calibration frames in a row, which calibrates. *)
Definition calibrateWith (first second : ImageData) : option Reader :=
  fst <$> calls 1200 [CaptureCalibrationImage true first;
                      CaptureCalibrationImage true second] displayReader.

(** The reader with other pending calibration images. *)
Definition withCalibrationImages (images : list ImageData) (st : Reader) : Reader :=
  {| canvas := canvas st;
     calibrationImages := images;
     lastDisplay := lastDisplay st;
     calibrated := calibrated st;
     showDebugMask := showDebugMask st;
     consistentOutputCount := consistentOutputCount st;
     grayThreshold := grayThreshold st;
     floodFillDpThreshold := floodFillDpThreshold st;
     rotate180 := rotate180 st;
     segmentSamples := segmentSamples st;
     grayArray := grayArray st;
     litReference := litReference st;
     unlitReference := unlitReference st;
     backgroundMask := backgroundMask st |}.

(** The outcome of a calibration, with the pending images of a successful
    one replaced. *)
Definition outcomeWithImages (images : list ImageData)
    (outcome : bool * Reader * list Effect) : bool * Reader * list Effect :=
  let '(success, st, effects) := outcome in
  (success, if success then withCalibrationImages images st else st, effects).

(** A bitmap of the canvas's size whose cells that are 1 all have [Q]. *)
Definition bitmapMarksOnly (c : Canvas) (Q : Coordinate -> Prop) (r : Bitmask2d) : Prop :=
  hasSize r c ∧ forall p, cellAt r p = Some 1 -> Q p.

(** A pixel of a hole: not detectable, and not background. *)
Definition holePixel (detectable background : Bitmask2d) (p : Coordinate) : Prop :=
  cellAt detectable p = Some 0 ∧ truthyCell (cellAt background p) = false.

(** The detectable pixels of the synthetic display: the outlines and the
    dot. *)
Definition displayDetectable : Bitmask2d :=
  detectablePixels displayCanvas (grayThreshold displayReader)
    (getPixelGrayValue displayCanvas litFrame) (getPixelGrayValue displayCanvas darkFrame).

(** The reader as [determineLocations] has it when it locates the digits of
    the synthetic display: the two frames are pending, the references and
    the difference grid are filled, the sample sets are empty. *)
Definition measuredDisplay : Reader :=
  {| canvas := displayCanvas;
     calibrationImages := [litFrame; darkFrame];
     lastDisplay := None;
     calibrated := false;
     showDebugMask := false;
     consistentOutputCount := 0;
     grayThreshold := grayThreshold displayReader;
     floodFillDpThreshold := floodFillDpThreshold displayReader;
     rotate180 := rotate180 displayReader;
     segmentSamples := emptySegmentSamples;
     grayArray := fillCells displayCanvas
                    (difference (getPixelGrayValue displayCanvas litFrame)
                                (getPixelGrayValue displayCanvas darkFrame));
     litReference := fillCells displayCanvas (getPixelGrayValue displayCanvas litFrame);
     unlitReference := fillCells displayCanvas (getPixelGrayValue displayCanvas darkFrame);
     backgroundMask :=
       default [] (fst <$> generateBitmask 1200 displayCanvas displayDetectable
                             (Some (backgroundMatchFunction displayDetectable)) None [] tt) |}.

(** A hole of the synthetic display: the 11 pixels of row [y] from column
    [x] on, with its centre and rectangle. *)
Definition holeAt (x y : Z) : HoleComponent :=
  measureHole {| pixels := (fun i => (x + i, y)) <$> seqZ 0 11;
                 centerX := None; centerY := None; rect := None |}.

(** ** Vocabulary of the further properties *)

(** Both thresholds pass the setters' test, and [rotate180] is a boolean. *)
Definition validConfiguration (c : Cfg.t) : Prop :=
  Cfg.validThreshold (Cfg.grayThreshold c) = true
  ∧ Cfg.validThreshold (Cfg.decimalPointFloodFillThreshold c) = true
  ∧ Cfg.typeof_boolean (Cfg.rotate180 c) = true.

(** The messages that a list of effects posts to the worker. *)
Definition posted (effects : list Effect) : list TimingWorker.Message :=
  omap (fun e => match e with WorkerPost m => Some m | _ => None end) effects.

(** The sample sets of the six digits: eight per digit, every sample pixel
    inside the canvas. *)
Definition samplesFit (c : Canvas) (samples : OutputDisplays) : Prop :=
  length samples = 6%nat
  ∧ Forall (fun digitSegments => length digitSegments = 8%nat) samples
  ∧ Forall (Forall (Forall (inCanvas c))) samples.

(** The reader is well formed: its sample sets fit the canvas, its four
    grids have the canvas's size, it holds at most two calibration images,
    and two when it is calibrated. *)
Record wellFormed (st : Reader) : Prop := {
  wf_samples : samplesFit (canvas st) (segmentSamples st);
  wf_grayArray : hasSize (grayArray st) (canvas st);
  wf_litReference : hasSize (litReference st) (canvas st);
  wf_unlitReference : hasSize (unlitReference st) (canvas st);
  wf_backgroundMask : hasSize (backgroundMask st) (canvas st);
  wf_images : (length (calibrationImages st) <= 2)%nat;
  wf_calibrated : calibrated st = true -> length (calibrationImages st) = 2%nat
}.

(** The two readers differ at most in their sample sets. *)
Definition sameFrame (st st' : Reader) : Prop :=
  canvas st' = canvas st
  ∧ calibrationImages st' = calibrationImages st
  ∧ lastDisplay st' = lastDisplay st
  ∧ calibrated st' = calibrated st
  ∧ consistentOutputCount st' = consistentOutputCount st
  ∧ grayArray st' = grayArray st
  ∧ litReference st' = litReference st
  ∧ unlitReference st' = unlitReference st
  ∧ backgroundMask st' = backgroundMask st.

(** The sample sets of segments A to G in [segments] are those of
    [segments0] with pixels appended, each of which has [P]. *)
Definition appendedTo (P : Coordinate -> Prop) (segments0 segments : SevenSegmentDisplay) : Prop :=
  forall i pixels0, (i < 7)%nat -> segments0 !! i = Some pixels0 ->
    exists added, segments !! i = Some (pixels0 ++ added) ∧ Forall P added.

(** The same for the sample sets of every digit. *)
Definition samplesAppendedTo (P : Coordinate -> Prop) (samples0 samples : OutputDisplays) : Prop :=
  forall digit segments0, samples0 !! digit = Some segments0 ->
    exists segments, samples !! digit = Some segments ∧ appendedTo P segments0 segments.

(** A pixel that calibration may sample for a segment: inside the canvas,
    and detectable. *)
Definition sampled (c : Canvas) (detectablePixelArray : Bitmask2d) (p : Coordinate) : Prop :=
  inCanvas c p ∧ cellAt detectablePixelArray p = Some 1.

(** Not detectable: the predicate of the background's flood fill, on the
    cell value. *)
Definition notDetectable (value : option Z) (_ : Coordinate) : bool :=
  bool_decide (value = Some 0).

(** The display reader with the lit and the dark frame pending. *)
Definition pendingDisplay : Reader :=
  withCalibrationImages [litFrame; darkFrame] displayReader.

(** Assignments that give each hole one of the [k] groups. *)
Definition validAssignments (holeComponents : list HoleComponent) (assignments : list nat) : Prop :=
  length assignments = length holeComponents
  ∧ Forall (fun ki => (ki < k)%nat) assignments.

(** The bitmasks that [charMap] has a character for. *)
Definition charMapKeys : list Z :=
  [0; 2; 4; 6; 7; 8; 16; 28; 30; 32; 34; 48; 56; 57; 61; 62; 63; 64; 79; 80; 83; 84; 88; 91;
   92; 94; 95; 102; 103; 109; 110; 111; 113; 115; 116; 118; 119; 120; 121; 123; 124; 125; 127].

(** The square of 11 by 11 pixels around a start coordinate. *)
Definition window (startX startY : Z) : CoordinateArray :=
  (fun p => (startX - 5 + p.1, startY - 5 + p.2)) <$> rowMajor {| width := 11; height := 11 |}.

(** What the flood fill of one hole keeps: every marked coordinate entered
    the scan's [visited] set during this fill. *)
Definition freshMarks (c : Canvas) (visited0 : gset (Z * Z)) (f : Flood (gset (Z * Z))) : Prop :=
  hasSize (result f) c
  ∧ visited0 ⊆ env f
  ∧ forall p, cellAt (result f) p = Some 1 -> p ∈ env f ∧ p ∉ visited0.

(** The hole components found so far: their pixels are in the scan's
    [visited] set, and no two of them share a pixel. *)
Definition disjointHoles (acc : gset (Z * Z) * list HoleComponent) : Prop :=
  (forall component p, component ∈ acc.2 -> p ∈ pixels component -> p ∈ acc.1)
  ∧ (forall i j ci cj p, i ≠ j -> acc.2 !! i = Some ci -> acc.2 !! j = Some cj ->
       p ∈ pixels ci -> p ∉ pixels cj).

(** The index of the first of the four bytes of a pixel in a frame. *)
Definition byteIndex (c : Canvas) (p : Coordinate) : Z := (p.2 * width c + p.1) * 4.

(** All the sample pixels of the reader. *)
Definition allSamples (st : Reader) : CoordinateArray := mjoin (mjoin (segmentSamples st)).

(** What painting keeps of the frame [frame0]: the length of the buffer,
    and every byte that is not one of the four bytes of a sample pixel. *)
Definition paintedOver (st : Reader) (frame0 frame : ImageData) : Prop :=
  length (data frame) = length (data frame0)
  ∧ forall j,
      (forall p, p ∈ allSamples st ->
         ¬ (byteIndex (canvas st) p <= j <= byteIndex (canvas st) p + 3)) ->
      at_ (data frame) j = at_ (data frame0) j.

(** The alpha byte of pixel [p] is 255, if the buffer has it. *)
Definition opaqueAt (c : Canvas) (p : Coordinate) (frame : ImageData) : Prop :=
  byteIndex c p + 3 < Z.of_nat (length (data frame)) ->
  at_ (data frame) (byteIndex c p + 3) = Some 255.

(** ** A display with a region that the corner does not reach *)

(** A coordinate of the first or last row or column of the canvas. *)
Definition onBorder (c : Canvas) (p : Coordinate) : bool :=
  (p.1 =? 0) || (p.1 =? width c - 1) || (p.2 =? 0) || (p.2 =? height c - 1).

(** The border of the canvas, as the seeds of a flood fill. *)
Definition borderSeeds (c : Canvas) : CoordinateArray :=
  filter (fun p => onBorder c p = true) (rowMajor c).

(** Background as the comment in [determineLocations] describes it (the
    edges of the image are background, and the flood fill goes from there
    over the connected pixels that are not detectable): reached from the
    border of the image through pixels that are not detectable. *)
Definition borderBackground (c : Canvas) (detectable : Bitmask2d) (p : Coordinate) : Prop :=
  reachable notDetectable detectable (borderSeeds c) p.

(** The lit frame of a display with two defects.  The upper hole of the
    last digit is filled, so that the outlines enclose 11 holes; and a lit
    column at [x = 140] runs from the top row to the bottom row, so that
    the 5 columns to its right touch the border but not the rest of the
    dark surround. *)
Definition stripFrame : ImageData :=
  frameOf (fun x y =>
             if onOutline x y || (x =? 140) || ((y =? 2) && (122 <=? x) && (x <=? 134)) then 123
             else if onDot x y then 78 else 0).

(** The detectable pixels of [stripFrame] against [darkFrame]. *)
Definition stripDetectable : Bitmask2d :=
  detectablePixels displayCanvas (grayThreshold displayReader)
    (getPixelGrayValue displayCanvas stripFrame) (getPixelGrayValue displayCanvas darkFrame).

(** The bitmap of the flood fill over [stripDetectable] from the border. *)
Definition stripBorderMask : Bitmask2d :=
  default [] (fst <$> generateBitmask 1500 displayCanvas stripDetectable
                        (Some (purePredicate notDetectable)) None
                        (borderSeeds displayCanvas) tt).

(** The component that the scan returns for a list of pixels. *)
Definition componentOf (pixels0 : CoordinateArray) : HoleComponent :=
  {| pixels := pixels0; centerX := None; centerY := None; rect := None |}.

(** The 40 pixels to the right of the lit column. *)
Definition cutOffStrip : HoleComponent :=
  componentOf (filter (fun p => 141 <= p.1) (rowMajor displayCanvas)).

(** The 11 holes that the outlines enclose: rows of 11 pixels. *)
Definition enclosedHoles : list HoleComponent :=
  (fun start => componentOf ((fun i => (start.1 + i, start.2)) <$> seqZ 0 11))
    <$> [(3, 2); (27, 2); (51, 2); (75, 2); (99, 2);
         (3, 4); (27, 4); (51, 4); (75, 4); (99, 4); (123, 4)].

(** * Properties *)

(** Turns the boolean comparisons among the hypotheses into propositions
    and calls [lia]. *)
Ltac bool_lia :=
  repeat match goal with
    | H : (_ <=? _) = true |- _ => apply Z.leb_le in H
    | H : (_ <=? _) = false |- _ => apply Z.leb_gt in H
    | H : (_ <? _) = true |- _ => apply Z.ltb_lt in H
    | H : (_ <? _) = false |- _ => apply Z.ltb_ge in H
    | H : (_ =? _) = true |- _ => apply Z.eqb_eq in H
    | H : (_ =? _) = false |- _ => apply Z.eqb_neq in H
    | H : (_ <=? _)%nat = true |- _ => apply Nat.leb_le in H
    | H : (_ <=? _)%nat = false |- _ => apply Nat.leb_gt in H
    | H : (_ <? _)%nat = true |- _ => apply Nat.ltb_lt in H
    | H : (_ <? _)%nat = false |- _ => apply Nat.ltb_ge in H
    | H : (_ =? _)%nat = true |- _ => apply Nat.eqb_eq in H
    | H : (_ =? _)%nat = false |- _ => apply Nat.eqb_neq in H
    end;
  lia.

(** ** The stability tracker *)

Section StabilityTracker.

Implicit Types (st : Reader) (value : string).

(** A tick of [readDisplays] that decodes the frame to [value] is a step
    of the tracker on [value]. *)
Lemma readDisplays_track st currentData value :
  decodeDisplays st currentData = Some value ->
  readDisplays currentData st = Some (track value st).
Proof. intros Hdecode. unfold readDisplays. by rewrite Hdecode. Qed.

(** A reading that differs from the last one is announced and restarts the
    count. *)
Lemma track_changed st value :
  lastDisplay st ≠ Some value ->
  (track value st).2 = [DispatchChange value]
  ∧ lastDisplay (track value st).1 = Some value
  ∧ consistentOutputCount (track value st).1 = 0.
Proof.
  intros Hne. unfold track. rewrite bool_decide_eq_false_2 by done. done.
Qed.

(** A repeated reading is counted, and announced when the count was 3. *)
Lemma track_repeated st value :
  lastDisplay st = Some value ->
  (track value st).2 = (if consistentOutputCount st =? 3 then [DispatchOutput value] else [])
  ∧ lastDisplay (track value st).1 = Some value
  ∧ consistentOutputCount (track value st).1 = consistentOutputCount st + 1.
Proof.
  intros Heq. unfold track. rewrite bool_decide_eq_true_2 by done. done.
Qed.

(** [n] further readings of the value that is already the last one: the
    output notification is raised when the count passes from 3 to 4. *)
Lemma tracks_repeats n : forall st value,
  lastDisplay st = Some value ->
  (tracks (replicate n value) st).2 =
    (if (consistentOutputCount st <=? 3) && (3 <? consistentOutputCount st + Z.of_nat n)
     then [DispatchOutput value] else [])
  ∧ lastDisplay (tracks (replicate n value) st).1 = Some value.
Proof.
  induction n as [|n IH]; intros st value Hlast.
  - simpl. split; [|done].
    destruct (_ <=? 3) eqn:?, (3 <? _) eqn:?; try done; bool_lia.
  - cbn [replicate tracks].
    destruct (track_repeated st value Hlast) as (Heff & Hlast1 & Hcount1).
    destruct (track value st) as [st1 effects1]. cbn [fst snd] in *.
    destruct (IH st1 value Hlast1) as (Heff2 & Hlast2).
    destruct (tracks (replicate n value) st1) as [st2 effects2]. cbn [fst snd] in *.
    split; [|done]. subst effects1 effects2. rewrite Hcount1.
    destruct (consistentOutputCount st =? 3) eqn:E3;
      destruct (consistentOutputCount st <=? 3) eqn:E1;
      destruct (consistentOutputCount st + 1 <=? 3) eqn:E2;
      destruct (3 <? consistentOutputCount st + 1 + Z.of_nat n) eqn:E4;
      destruct (3 <? consistentOutputCount st + Z.of_nat (S n)) eqn:E5;
      cbn; try reflexivity; bool_lia.
Qed.

End StabilityTracker.

(** C1, as the code has it.  A value that differs from the last reading is
    announced by one change notification; the stable-output notification
    for it is raised exactly once, on its fourth repeat, that is when the
    value has been read on 5 consecutive ticks (the tick that introduced it
    plus 4 repeats), and never with fewer.  In particular, from a fresh
    reader the readings A, A, A, A, B raise two change notifications and no
    stable output, and A, A, A, A, A, B raise the stable output for A once,
    after the fifth A. *)
Theorem C1_stable_output_on_fourth_repeat :
  (forall st value n,
     lastDisplay st ≠ Some value ->
     (tracks (value :: replicate n value) st).2 =
       DispatchChange value :: (if (4 <=? n)%nat then [DispatchOutput value] else []))
  ∧ (forall canvas0 configuration,
       (tracks ["A"; "A"; "A"; "A"; "B"] (constructor canvas0 configuration)).2
       = [DispatchChange "A"; DispatchChange "B"])
  ∧ (forall canvas0 configuration,
       (tracks ["A"; "A"; "A"; "A"; "A"; "B"] (constructor canvas0 configuration)).2
       = [DispatchChange "A"; DispatchOutput "A"; DispatchChange "B"]).
Proof.
  split; [|split].
  - intros st value n Hne. cbn [tracks].
    destruct (track_changed st value Hne) as (Heff & Hlast & Hcount).
    destruct (track value st) as [st1 effects1]. cbn [fst snd] in *.
    destruct (tracks_repeats n st1 value Hlast) as (Heff2 & _).
    destruct (tracks (replicate n value) st1) as [st2 effects2]. cbn [fst snd] in *.
    subst. rewrite Hcount.
    destruct (4 <=? n)%nat eqn:E4; destruct (3 <? 0 + Z.of_nat n) eqn:E3;
      cbn; try reflexivity; bool_lia.
  - intros. reflexivity.
  - intros. reflexivity.
Qed.

(** The statement of the specification fails: four consecutive readings of A
    followed by B raise no stable-output notification at all. *)
Lemma C1_counterexample :
  filter (fun e => isOutput e = true)
    (tracks ["A"; "A"; "A"; "A"; "B"]
       (constructor {| width := 1; height := 1 |}
          SegmentDisplayReaderConfiguration.constructor)).2 = [].
Proof. reflexivity. Qed.

(** A witness of the general statement: the value A introduced on a fresh
    reader and repeated 4 times. *)
Lemma C1_witness :
  (tracks ("A" :: replicate 4 "A")
     (constructor {| width := 1; height := 1 |}
        SegmentDisplayReaderConfiguration.constructor)).2
  = [DispatchChange "A"; DispatchOutput "A"].
Proof.
  destruct C1_stable_output_on_fourth_repeat as [general _].
  exact (general (constructor {| width := 1; height := 1 |}
                    SegmentDisplayReaderConfiguration.constructor)
                 "A" 4%nat ltac:(discriminate)).
Defined.

(** ** The configuration *)

(** On a number the two comparisons decide alone: they are false on NaN. *)
Lemma validThreshold_number x :
  Cfg.validThreshold (Cfg.JNumber x) = gt x (ofZ 0) && lt x (ofZ 255).
Proof.
  unfold Cfg.validThreshold. cbn [Cfg.ToNumber].
  destruct x; cbn [isNaN negb andb]; try reflexivity.
Qed.

(** Of the integers 0 to 255, exactly 1 to 254 pass the validation. *)
Lemma validThreshold_byte n :
  0 <= n <= 255 ->
  Cfg.validThreshold (Cfg.JNumber (ofZ n)) = (0 <? n) && (n <? 255).
Proof.
  intros Hn.
  assert (Hall : forallb (fun n => Bool.eqb (Cfg.validThreshold (Cfg.JNumber (ofZ n)))
                                     ((0 <? n) && (n <? 255))) (seqZ 0 256) = true)
    by (vm_compute; reflexivity).
  rewrite forallb_forall in Hall.
  apply Bool.eqb_prop, Hall, list_elem_of_In, elem_of_seqZ. lia.
Qed.

(** C9, as the code has it.  A write to [grayThreshold] or to
    [decimalPointFloodFillThreshold] is stored when
    [!isNaN(value) && value > 0 && value < 255] holds, which for a number
    means strictly between 0 and 255; every other value, the bounds 0 and
    255 included, is silently ignored and the getter keeps returning the
    prior value.  A write to [rotate180] is stored when the value is a
    boolean and silently ignored otherwise. *)
Theorem C9_validated_writes (c : Cfg.t) :
  (forall value,
     Cfg.grayThreshold (Cfg.set_grayThreshold value c)
       = (if Cfg.validThreshold value then value else Cfg.grayThreshold c)
     ∧ Cfg.decimalPointFloodFillThreshold (Cfg.set_decimalPointFloodFillThreshold value c)
       = (if Cfg.validThreshold value then value else Cfg.decimalPointFloodFillThreshold c))
  ∧ (forall value, Cfg.validThreshold value = false ->
       Cfg.set_grayThreshold value c = c
       ∧ Cfg.set_decimalPointFloodFillThreshold value c = c)
  ∧ (forall x, Cfg.validThreshold (Cfg.JNumber x) = gt x (ofZ 0) && lt x (ofZ 255))
  ∧ (forall n, 0 <= n <= 255 ->
       (Cfg.validThreshold (Cfg.JNumber (ofZ n)) = true <-> 0 < n < 255))
  ∧ (forall b, Cfg.rotate180 (Cfg.set_rotate180 (Cfg.JBoolean b) c) = Cfg.JBoolean b)
  ∧ (forall value, Cfg.typeof_boolean value = false -> Cfg.set_rotate180 value c = c).
Proof.
  split; [|split; [|split; [|split; [|split]]]].
  - intros value. unfold Cfg.set_grayThreshold, Cfg.set_decimalPointFloodFillThreshold.
    by destruct (Cfg.validThreshold value).
  - intros value Hv. unfold Cfg.set_grayThreshold, Cfg.set_decimalPointFloodFillThreshold.
    by rewrite Hv.
  - apply validThreshold_number.
  - intros n Hn. rewrite validThreshold_byte by done.
    rewrite andb_true_iff, !Z.ltb_lt. lia.
  - reflexivity.
  - intros value Hv. unfold Cfg.set_rotate180. by rewrite Hv.
Qed.

(** The statement of the specification fails at both ends of the range 0 to 255:
    writing 255, or 0, leaves the default 90 in place. *)
Lemma C9_counterexample :
  Cfg.grayThreshold (Cfg.set_grayThreshold (Cfg.JNumber (ofZ 255)) Cfg.constructor)
    = Cfg.JNumber (ofZ 90)
  ∧ Cfg.grayThreshold (Cfg.set_grayThreshold (Cfg.JNumber (ofZ 0)) Cfg.constructor)
    = Cfg.JNumber (ofZ 90).
Proof. split; reflexivity. Qed.

(** Witness: 25 is stored, 255 and a non-boolean [rotate180] are ignored. *)
Lemma C9_witness :
  (Cfg.validThreshold (Cfg.JNumber (ofZ 25)) = true <-> 0 < 25 < 255)
  ∧ Cfg.set_grayThreshold (Cfg.JNumber (ofZ 255)) Cfg.constructor = Cfg.constructor
  ∧ Cfg.set_rotate180 Cfg.JNull Cfg.constructor = Cfg.constructor.
Proof.
  destruct (C9_validated_writes Cfg.constructor) as (_ & ignored & _ & bytes & _ & nonbool).
  split; [|split].
  - apply bytes. lia.
  - apply ignored. reflexivity.
  - apply nonbool. reflexivity.
Defined.

(** ** The pixel classifier *)

(** C6.  Where both reference grids hold a value, the classifier takes
    [range = max(|lit - unlit|, 1)] and answers lit exactly when
    [|gray - offset - lit| / range <= |gray - offset - unlit| / range]; a
    tie is lit.  With lit 200, unlit 50 and offset 0, gray 210 is lit, gray
    60 is unlit and the midpoint 125 is lit. *)
Theorem C6_classifier st x y litRow unlitRow litGray unlitGray :
  at_ (litReference st) y = Some litRow ->
  at_ litRow x = Some litGray ->
  at_ (unlitReference st) y = Some unlitRow ->
  at_ unlitRow x = Some unlitGray ->
  (forall pixelGray ambientOffset,
     let range := max (abs (sub litGray unlitGray)) (ofZ 1) in
     isPixelLit st pixelGray x y ambientOffset
     = le (div (abs (sub (sub pixelGray ambientOffset) litGray)) range)
          (div (abs (sub (sub pixelGray ambientOffset) unlitGray)) range))
  ∧ (litGray = ofZ 200 -> unlitGray = ofZ 50 ->
       isPixelLit st (ofZ 210) x y (ofZ 0) = true
       ∧ isPixelLit st (ofZ 60) x y (ofZ 0) = false
       ∧ isPixelLit st (ofZ 125) x y (ofZ 0) = true).
Proof.
  intros HlitRow Hlit HunlitRow Hunlit.
  assert (Hgeneral : forall pixelGray ambientOffset,
     isPixelLit st pixelGray x y ambientOffset
     = le (div (abs (sub (sub pixelGray ambientOffset) litGray))
               (max (abs (sub litGray unlitGray)) (ofZ 1)))
          (div (abs (sub (sub pixelGray ambientOffset) unlitGray))
               (max (abs (sub litGray unlitGray)) (ofZ 1)))).
  { intros. unfold isPixelLit. rewrite HlitRow, HunlitRow, Hlit, Hunlit. reflexivity. }
  split; [exact Hgeneral|].
  intros -> ->. rewrite !Hgeneral. by vm_compute.
Qed.

Lemma C6_witness :
  isPixelLit (flatReader 1 emptySegmentSamples) (ofZ 210) 0 0 (ofZ 0) = true
  ∧ isPixelLit (flatReader 1 emptySegmentSamples) (ofZ 60) 0 0 (ofZ 0) = false
  ∧ isPixelLit (flatReader 1 emptySegmentSamples) (ofZ 125) 0 0 (ofZ 0) = true.
Proof.
  refine (proj2 (C6_classifier (flatReader 1 emptySegmentSamples) 0 0
                   [ofZ 200] [ofZ 50] (ofZ 200) (ofZ 50) _ _ _ _) _ _);
    reflexivity.
Defined.

(** ** The digit decoder *)

Section Decoder.

Variable lit : Coordinate -> bool.

(** The countdown reaches 0 exactly when it starts at a positive value that
    the number of lit pixels attains. *)
Lemma countdown_spec pixels0 : forall toLight,
  countdown lit pixels0 toLight = true <-> 1 <= toLight <= litCount lit pixels0.
Proof.
  unfold litCount.
  induction pixels0 as [|p rest IH]; intros toLight; cbn [countdown].
  - cbn. split; [done | lia].
  - rewrite filter_cons. destruct (lit p) eqn:Hp.
    + rewrite decide_True by done. cbn [length].
      destruct (toLight - 1 =? 0) eqn:E.
      * split; [intros _; bool_lia | done].
      * rewrite IH. bool_lia.
    + rewrite decide_False by done. apply IH.
Qed.

(** A segment is on exactly when at least [floor(count / 2)] of its sample
    pixels are lit and that threshold is not 0. *)
Lemma segmentOn_spec pixels0 :
  segmentOn lit pixels0 = true
  <-> 1 <= Z.of_nat (length pixels0) / 2 <= litCount lit pixels0.
Proof. unfold segmentOn. apply countdown_spec. Qed.

(** The bitmask of a digit with its 8 sample sets. *)
Lemma decodeDigit_eight a b c d e f g dp :
  decodeDigit lit [a; b; c; d; e; f; g; dp]
  = Some (Z.b2z (segmentOn lit a) + 2 * Z.b2z (segmentOn lit b)
          + 4 * Z.b2z (segmentOn lit c) + 8 * Z.b2z (segmentOn lit d)
          + 16 * Z.b2z (segmentOn lit e) + 32 * Z.b2z (segmentOn lit f)
          + 64 * Z.b2z (segmentOn lit g),
          segmentOn lit dp).
Proof.
  unfold decodeDigit. cbn -[segmentOn Z.add Z.mul Z.shiftl].
  destruct (segmentOn lit a); cbn -[segmentOn Z.add Z.mul Z.shiftl];
  destruct (segmentOn lit b); cbn -[segmentOn Z.add Z.mul Z.shiftl];
  destruct (segmentOn lit c); cbn -[segmentOn Z.add Z.mul Z.shiftl];
  destruct (segmentOn lit d); cbn -[segmentOn Z.add Z.mul Z.shiftl];
  destruct (segmentOn lit e); cbn -[segmentOn Z.add Z.mul Z.shiftl];
  destruct (segmentOn lit f); cbn -[segmentOn Z.add Z.mul Z.shiftl];
  destruct (segmentOn lit g); cbn -[segmentOn Z.add Z.mul Z.shiftl];
  destruct (segmentOn lit dp); reflexivity.
Qed.

Lemma decodeDigit_bit digitSegments i pixels0 :
  length digitSegments = 8%nat ->
  (i < 7)%nat ->
  digitSegments !! i = Some pixels0 ->
  exists bitmask lightDecimalPoint,
    decodeDigit lit digitSegments = Some (bitmask, lightDecimalPoint)
    ∧ Z.testbit bitmask (Z.of_nat i) = segmentOn lit pixels0.
Proof.
  intros Hlen Hi Hlook.
  destruct digitSegments as [|a [|b [|c [|d [|e [|f [|g [|dp [|]]]]]]]]]; try discriminate.
  rewrite decodeDigit_eight. eexists _, _. split; [reflexivity|].
  destruct i as [|[|[|[|[|[|[|]]]]]]]; try lia; cbn in Hlook; injection Hlook as <-;
    destruct (segmentOn lit a), (segmentOn lit b), (segmentOn lit c), (segmentOn lit d),
      (segmentOn lit e), (segmentOn lit f), (segmentOn lit g); reflexivity.
Qed.

End Decoder.

(** C2, as the code has it.  For a digit with its 8 sample sets and a
    segment index 0 to 6 whose sample set has at least two pixels, bit i of
    the decoded bitmask is set if and only if at least [floor(count / 2)] of
    the segment's sample pixels are classified lit in the current frame:
    half of them (rounded down) is enough, a strict majority is not
    needed. *)
Theorem C2_segment_bit st currentData digitSegments i pixels0 :
  length digitSegments = 8%nat ->
  (i < 7)%nat ->
  digitSegments !! i = Some pixels0 ->
  (1 < length pixels0)%nat ->
  let lit := sampleLit st currentData (estimateAmbientOffset st currentData) in
  exists bitmask lightDecimalPoint,
    decodeDigit lit digitSegments = Some (bitmask, lightDecimalPoint)
    ∧ (Z.testbit bitmask (Z.of_nat i) = true
       <-> Z.of_nat (length pixels0) / 2 <= litCount lit pixels0).
Proof.
  intros Hlen Hi Hlook Hcount lit.
  destruct (decodeDigit_bit lit digitSegments i pixels0 Hlen Hi Hlook)
    as (bitmask & dp & Hdecode & Hbit).
  exists bitmask, dp. split; [exact Hdecode|].
  rewrite Hbit, segmentOn_spec.
  assert (1 <= Z.of_nat (length pixels0) / 2)
    by (apply Z.div_le_lower_bound; lia).
  lia.
Qed.

(** The statement of the specification fails.  Segment A of this digit has two
    sample pixels, of which the frame lights exactly one: not more than
    half, yet bit 0 is set.  (With three sample pixels one lit pixel, a
    third, is enough as well.) *)
Lemma C2_counterexample :
  let st := flatReader 3 emptySegmentSamples in
  let frame := grayFrame [210; 60; 60] in
  let lit := sampleLit st frame (estimateAmbientOffset st frame) in
  litCount lit [(0, 0); (1, 0)] = 1
  ∧ decodeDigit lit [[(0, 0); (1, 0)]; []; []; []; []; []; []; []] = Some (1, false)
  ∧ litCount lit [(0, 0); (1, 0); (2, 0)] = 1
  ∧ decodeDigit lit [[(0, 0); (1, 0); (2, 0)]; []; []; []; []; []; []; []] = Some (1, false).
Proof. by vm_compute. Qed.

Lemma C2_witness :
  let st := flatReader 3 emptySegmentSamples in
  let frame := grayFrame [210; 60; 60] in
  let lit := sampleLit st frame (estimateAmbientOffset st frame) in
  exists bitmask lightDecimalPoint,
    decodeDigit lit [[(0, 0); (1, 0)]; []; []; []; []; []; []; []]
      = Some (bitmask, lightDecimalPoint)
    ∧ (Z.testbit bitmask (Z.of_nat 0) = true
       <-> Z.of_nat (length [(0, 0); (1, 0)]) / 2 <= litCount lit [(0, 0); (1, 0)]).
Proof.
  intros st frame lit.
  apply (C2_segment_bit st frame [[(0, 0); (1, 0)]; []; []; []; []; []; []; []]
           0%nat [(0, 0); (1, 0)]); [reflexivity | lia | reflexivity | simpl; lia].
Defined.

(** ** The sample refiner *)

(** Rounding keeps the sign of what it rounds. *)
Lemma binary_round_aux_sign s m e l :
  match binary_round_aux prec emax s m e l with
  | S754_zero s' | S754_infinity s' | S754_finite s' _ _ => s' = s
  | S754_nan => True
  end.
Proof.
  unfold binary_round_aux.
  destruct (shr_fexp prec emax m e l) as [mrs' e'].
  destruct (shr_fexp prec emax _ e' loc_Exact) as [mrs'' e''].
  destruct (shr_m mrs''); [done | | done].
  by destruct (e'' <=? emax - prec).
Qed.

Lemma floor_nonneg x :
  match x with S754_finite true _ _ => False | _ => True end -> 0 <= floor x.
Proof.
  destruct x as [| | |[] m e]; cbn; try done. intros _.
  destruct (0 <=? e) eqn:E.
  - apply Z.mul_nonneg_nonneg; [lia|]. apply Z.pow_nonneg. lia.
  - apply Z.div_pos; [lia|]. apply Z.pow_pos_nonneg; bool_lia.
Qed.

(** [Math.floor(pixelCount * 0.7)] is never negative. *)
Lemma highLimit_nonneg n : 0 <= n -> 0 <= highLimit n.
Proof.
  intros Hn. unfold highLimit. apply floor_nonneg.
  unfold ofZ, binary_normalize. destruct n as [|m|m]; [done | | lia].
  unfold binary_round. destruct (shl_align _ _ _) as [mz ez].
  pose proof (binary_round_aux_sign false (Z.pos mz) ez loc_Exact) as Hs.
  destruct (binary_round_aux prec emax false (Z.pos mz) ez loc_Exact) as [s|s| |s mx ex];
    try done; subst s.
  unfold mul, SFmul, lit_0_7. cbn [xorb].
  pose proof (binary_round_aux_sign false (Z.pos (mx * 6305039478318694)) (ex + -53) loc_Exact) as Hs.
  destruct (binary_round_aux prec emax false _ _ loc_Exact) as [s|s| |s mx' ex']; try done.
  by subst s.
Qed.

(** Up to 2000 sample pixels the floor is that of the exact product 7n/10,
    except at some multiples of 10, where the rounded product falls just
    below the integer 7n/10 and the floor is one less. *)
Lemma highLimit_table n :
  0 <= n < 2000 ->
  highLimit n = 7 * n / 10 ∨ (n mod 10 = 0 ∧ highLimit n = 7 * n / 10 - 1).
Proof.
  intros Hn.
  assert (Hall : forallb (fun n => (highLimit n =? 7 * n / 10)
                                   || ((n mod 10 =? 0) && (highLimit n =? 7 * n / 10 - 1)))
                         (seqZ 0 2000) = true) by (vm_compute; reflexivity).
  rewrite forallb_forall in Hall.
  specialize (Hall n). rewrite <- list_elem_of_In, elem_of_seqZ in Hall.
  specialize (Hall ltac:(lia)).
  apply orb_prop in Hall as [H|H]; [left; bool_lia|right].
  apply andb_prop in H as [? ?]. bool_lia.
Qed.

Section Refiner.

Variable lit : Coordinate -> bool.

Let litPixels (pixels0 : CoordinateArray) := filter (fun p => lit p = true) pixels0.
Let offPixels (pixels0 : CoordinateArray) := filter (fun p => lit p = false) pixels0.

(** One pass over a sample set: the lit subset when it has more than
    [highLimit] pixels, else the unlit subset when that has, else the set
    itself. *)
Lemma refineSegment_cases pixels0 :
  let n := Z.of_nat (length pixels0) in
  (highLimit n < Z.of_nat (length (litPixels pixels0))
     ∧ refineSegment lit pixels0 = litPixels pixels0)
  ∨ (Z.of_nat (length (litPixels pixels0)) <= highLimit n
     ∧ highLimit n < Z.of_nat (length (offPixels pixels0))
     ∧ refineSegment lit pixels0 = offPixels pixels0)
  ∨ (Z.of_nat (length (litPixels pixels0)) <= highLimit n
     ∧ Z.of_nat (length (offPixels pixels0)) <= highLimit n
     ∧ refineSegment lit pixels0 = pixels0).
Proof.
  intros n. unfold refineSegment. fold (litPixels pixels0) (offPixels pixels0) n.
  destruct (highLimit n <? _) eqn:E1; [left; split; [bool_lia | done]|].
  destruct (highLimit n <? Z.of_nat (length (offPixels pixels0))) eqn:E2.
  - right; left. split; [bool_lia|]. split; [bool_lia | done].
  - right; right. split; [bool_lia|]. split; [bool_lia | done].
Qed.

(** A pass never empties a sample set that has pixels. *)
Lemma refineSegment_nonempty pixels0 :
  pixels0 ≠ [] -> refineSegment lit pixels0 ≠ [].
Proof.
  intros Hne.
  pose proof (highLimit_nonneg (Z.of_nat (length pixels0)) ltac:(lia)) as Hlimit.
  destruct (refineSegment_cases pixels0) as [(H & ->)|[(_ & H & ->)|(_ & _ & ->)]];
    [| | done]; intros Hnil; rewrite Hnil in H; cbn in H; lia.
Qed.

End Refiner.

(** C8 holds except where the binary64 product [pixelCount * 0.7] is
    rounded below an integer.  Here segment A of digit 0 has 90 sample
    pixels of which exactly 63, that is 70% and not more, are lit in the
    frame: [Math.floor(90 * 0.7)] is 62, and the pass replaces the set by
    its 63 lit pixels. *)
Theorem C8_refine_at_exactly_70_percent :
  let st := flatReader 90 (onlySegmentA (rowPixels 90)) in
  let frame := grayFrame (replicate 63 210 ++ replicate 27 60) in
  let lit := sampleLit st frame (estimateAmbientOffset st frame) in
  litCount lit (rowPixels 90) = 63
  ∧ 10 * 63 = 7 * Z.of_nat (length (rowPixels 90))
  ∧ highLimit 90 = 62
  ∧ (segmentSamples <$> refine frame st) = Some (onlySegmentA (rowPixels 63)).
Proof. by vm_compute. Qed.

(** ** The pending calibration images *)

(** What holds before a loop and is kept by each turn of its body holds
    after it. *)
Lemma forEachM_invariant {A B} (P : B -> Prop) (body : B -> A -> option B) l :
  (forall b a b', P b -> body b a = Some b' -> P b') ->
  forall b b', P b -> forEachM body b l = Some b' -> P b'.
Proof.
  intros Hbody. induction l as [|a l IH]; intros b b' Hb Hrun; cbn in Hrun.
  - by injection Hrun as <-.
  - destruct (body b a) as [b1|] eqn:Hb1; [|done]. cbn in Hrun. eauto.
Qed.

Lemma locateDigit_calibrationImages fuel detectable st effects entry st' effects' :
  locateDigit fuel detectable (st, effects) entry = Some (st', effects') ->
  calibrationImages st' = calibrationImages st.
Proof.
  unfold locateDigit. intros H.
  repeat (case_match; simplify_option_eq); done.
Qed.

(** Calibration either keeps the pending images or, when it fails, drops
    them all. *)
Lemma locate_calibrationImages fuel st onGray offGray success st' effects :
  locate fuel st onGray offGray = Some (success, st', effects) ->
  calibrationImages st' = calibrationImages st ∨ calibrationImages st' = [].
Proof.
  unfold locate. intros H.
  destruct (generateBitmask _ _ _ _ _ _ _) as [[backgroundPixels ?]|]; [|done].
  cbn [mbind option_bind] in H.
  destruct (findHoles _ _ _ _) as [holeComponents|]; [|done].
  cbn [mbind option_bind] in H.
  destruct (negb _).
  - right. cbn in H. by injection H as _ <- _.
  - destruct (mapM _ _) as [centers|]; [|done]. cbn [mbind option_bind] in H.
    destruct (kMeans _ _ _ _) as [centers' assignments].
    match type of H with
    | context [forEachM ?body ?b ?l] =>
        pose proof (forEachM_invariant
          (fun acc : Reader * list Effect => calibrationImages acc.1 = calibrationImages st)
          body l) as Hinv;
        destruct (forEachM body b l) as [[st3 effects3]|] eqn:Hrun; [|done]
    end.
    cbn in H. injection H as _ <- _. left.
    eapply Hinv in Hrun; [exact Hrun | | reflexivity].
    intros [st1 e1] entry [st2 e2] Hst1 Hstep. cbn [fst] in *.
    rewrite <- Hst1. eapply locateDigit_calibrationImages, Hstep.
Qed.

Lemma determineLocations_calibrationImages fuel st success st' effects :
  determineLocations fuel st = Some (success, st', effects) ->
  calibrationImages st' = calibrationImages st ∨ calibrationImages st' = [].
Proof.
  unfold determineLocations. intros H.
  repeat case_match; try done; eapply locate_calibrationImages, H.
Qed.

Lemma attemptCalibration_calibrationImages fuel st success st' effects :
  attemptCalibration fuel st = Some (success, st', effects) ->
  calibrationImages st' = calibrationImages st ∨ calibrationImages st' = [].
Proof.
  unfold attemptCalibration. intros H.
  destruct (determineLocations fuel st) as [[[ok st1] e1]|] eqn:Hd; [|done].
  apply determineLocations_calibrationImages in Hd.
  cbn in H. destruct ok; injection H as _ <- _; exact Hd.
Qed.

(** No call of the interface leaves more than 2 images pending. *)
Lemma call_calibrationImages fuel c st st' effects :
  (length (calibrationImages st) <= 2)%nat ->
  call fuel c st = Some (st', effects) ->
  (length (calibrationImages st') <= 2)%nat.
Proof.
  intros Hst H. destruct c as [auto frame| | |frame|frame]; cbn [call] in H.
  - unfold captureCalibrationImage in H.
    destruct (length (calibrationImages st) =? 2)%nat eqn:E2.
    { injection H as <- _. cbn. lia. }
    destruct (length (calibrationImages st) <? 2)%nat eqn:E1; [|by injection H as <- _].
    destruct (_ && _).
    + destruct (attemptCalibration _ _) as [[[ok st1] e1]|] eqn:Ha; [|done].
      cbn in H. injection H as <- _.
      apply attemptCalibration_calibrationImages in Ha as [-> | ->]; cbn; [|lia].
      rewrite length_app. cbn. bool_lia.
    + injection H as <- _. cbn. rewrite length_app. cbn. bool_lia.
  - destruct (attemptCalibration _ _) as [[[ok st1] e1]|] eqn:Ha; [|done].
    cbn in H. injection H as <- _.
    apply attemptCalibration_calibrationImages in Ha as [-> | ->]; cbn; lia.
  - injection H as <- _. cbn. lia.
  - unfold readDisplays in H. destruct (decodeDisplays _ _) as [r|]; [|done].
    cbn in H. injection H as H. unfold track in H.
    by destruct (bool_decide _); injection H as <- _.
  - destruct (refine _ _) as [st1|] eqn:Hr; [|done]. cbn in H. injection H as <- _.
    unfold refine in Hr. destruct (forEachM _ _ _); [|done]. cbn in Hr.
    by injection Hr as <-.
Qed.

Lemma calls_calibrationImages fuel cs : forall st st' effects,
  (length (calibrationImages st) <= 2)%nat ->
  calls fuel cs st = Some (st', effects) ->
  (length (calibrationImages st') <= 2)%nat.
Proof.
  induction cs as [|c cs IH]; intros st st' effects Hst H; cbn [calls] in H.
  - by injection H as <- _.
  - destruct (call fuel c st) as [[st1 e1]|] eqn:Hc; [|done]. cbn in H.
    destruct (calls fuel cs st1) as [[st2 e2]|] eqn:Hcs; [|done]. cbn in H.
    injection H as <- _.
    eapply IH; [|exact Hcs]. eapply call_calibrationImages; [exact Hst | exact Hc].
Qed.

(** C10.  Whatever sequence of calls a reader has answered since its
    construction, it holds at most 2 calibration images.  When 2 are held,
    [captureCalibrationImage] first resets the calibration (the calibrated
    flag is cleared, the background mask and the reference and difference
    grids are zero, every sample set is empty, the pending images are gone,
    the worker is told to stop reading and stops) and then stores the new
    frame as the only pending image. *)
Theorem C10_at_most_two_calibration_images :
  (forall fuel cs canvas0 configuration st effects,
     calls fuel cs (constructor canvas0 configuration) = Some (st, effects) ->
     (length (calibrationImages st) <= 2)%nat)
  ∧ (forall fuel autoAttemptCalibration frame st,
       length (calibrationImages st) = 2%nat ->
       exists st',
         captureCalibrationImage fuel autoAttemptCalibration frame st
           = Some (st', [WorkerPost TimingWorker.readStop])
         ∧ (forall armed, TimingWorker.onMessage TimingWorker.readStop armed = false)
         ∧ calibrationImages st' = [frame]
         ∧ calibrated st' = false
         ∧ backgroundMask st' = createPixelArray (canvas st) 0
         ∧ litReference st' = createPixelArray (canvas st) (ofZ 0)
         ∧ unlitReference st' = createPixelArray (canvas st) (ofZ 0)
         ∧ grayArray st' = createPixelArray (canvas st) (ofZ 0)
         ∧ segmentSamples st' = replicate 6 (replicate 8 [])
         ∧ lastDisplay st' = None
         ∧ consistentOutputCount st' = 0).
Proof.
  split.
  - intros fuel cs canvas0 configuration st effects H.
    eapply calls_calibrationImages; [|exact H]. cbn. lia.
  - intros fuel auto frame st Hlen.
    exists (pushCalibrationImage frame (resetCalibration st).1).
    unfold captureCalibrationImage. rewrite Hlen. cbn. done.
Qed.

Lemma C10_witness :
  let st0 := constructor {| width := 1; height := 1 |} Cfg.constructor in
  let frame := grayFrame [0] in
  let st2 := pushCalibrationImage frame (pushCalibrationImage frame st0) in
  exists st',
    captureCalibrationImage 0 true (grayFrame [255]) st2
      = Some (st', [WorkerPost TimingWorker.readStop])
    ∧ calibrationImages st' = [grayFrame [255]]
    ∧ calibrated st' = false.
Proof.
  intros st0 frame st2.
  destruct (proj2 C10_at_most_two_calibration_images 0%nat true (grayFrame [255]) st2 eq_refl)
    as (st' & Hrun & _ & Himages & Hcal & _).
  exists st'. done.
Defined.

(** ** Arrays and matrices *)

Lemma at_Some_iff {A} (l : list A) i v :
  at_ l i = Some v <-> 0 <= i ∧ l !! Z.to_nat i = Some v.
Proof.
  unfold at_. destruct (i <? 0) eqn:E; split; try done; try (intros [? ?]; bool_lia).
  - intros H. split; [bool_lia | done].
  - by intros [_ ?].
Qed.

Lemma at_is_Some {A} (l : list A) i :
  is_Some (at_ l i) <-> 0 <= i < Z.of_nat (length l).
Proof.
  split.
  - intros [v Hv]. apply at_Some_iff in Hv as [? Hv].
    apply lookup_lt_Some in Hv. lia.
  - intros Hi. destruct (lookup_lt_is_Some_2 l (Z.to_nat i)) as [v Hv]; [lia|].
    exists v. apply at_Some_iff. split; [lia | done].
Qed.

Lemma at_None {A} (l : list A) i :
  at_ l i = None <-> ¬ (0 <= i < Z.of_nat (length l)).
Proof. rewrite <- at_is_Some, eq_None_not_Some. done. Qed.

Lemma hasSize_row {A} (m : list (list A)) c y row :
  hasSize m c -> at_ m y = Some row ->
  0 <= y < height c ∧ length row = Z.to_nat (width c).
Proof.
  intros [Hrows Hcols] Hrow.
  pose proof (proj1 (at_is_Some m y) (mk_is_Some _ _ Hrow)) as Hy.
  apply at_Some_iff in Hrow as [_ Hrow].
  split; [lia|]. eapply Forall_lookup_1 in Hcols; [exact Hcols | exact Hrow].
Qed.

Lemma hasSize_at {A} (m : list (list A)) c y :
  hasSize m c -> 0 <= y < height c -> is_Some (at_ m y).
Proof. intros [Hrows _] Hy. apply at_is_Some. lia. Qed.

Lemma hasSize_createPixelArray {A} c (v : A) :
  hasSize (createPixelArray c v) c.
Proof.
  unfold createPixelArray, create2dArray. split.
  - by rewrite length_replicate.
  - apply Forall_replicate. by rewrite length_replicate.
Qed.

Lemma hasSize_fillCells {A} c (cell : Z -> Z -> A) :
  hasSize (fillCells c cell) c.
Proof.
  unfold fillCells. split.
  - by rewrite length_fmap, length_seqZ.
  - apply Forall_fmap, Forall_forall. intros y _. cbn.
    by rewrite length_fmap, length_seqZ.
Qed.

Lemma elem_of_rowMajor c x y :
  (x, y) ∈ rowMajor c <-> inCanvas c (x, y).
Proof.
  unfold rowMajor, inCanvas. rewrite list_elem_of_bind. cbn. split.
  - intros (y' & Hx & Hy). apply list_elem_of_fmap in Hx as (x' & Heq & Hx).
    injection Heq as -> ->. apply elem_of_seqZ in Hx, Hy. lia.
  - intros [Hx Hy]. exists y. split.
    + apply list_elem_of_fmap. exists x. split; [done|]. apply elem_of_seqZ. lia.
    + apply elem_of_seqZ. lia.
Qed.

Lemma elem_of_cellSet c p : p ∈ cellSet c <-> inCanvas c p.
Proof.
  destruct p as [x y]. unfold cellSet. rewrite elem_of_list_to_set.
  apply elem_of_rowMajor.
Qed.

Lemma size_cellSet c : (size (cellSet c) <= length (rowMajor c))%nat.
Proof.
  unfold cellSet. generalize (rowMajor c). intros l.
  induction l as [|p l IH]; cbn.
  - by rewrite size_empty.
  - rewrite size_union_alt, size_singleton.
    assert (size (list_to_set l ∖ {[p]}) <= size (list_to_set (C := gset (Z * Z)) l))%nat
      by (apply subseteq_size; set_solver).
    lia.
Qed.

Lemma length_rowMajor c :
  length (rowMajor c) = (Z.to_nat (height c) * Z.to_nat (width c))%nat.
Proof.
  unfold rowMajor. generalize (seqZ 0 (height c)) (length_seqZ 0 (height c)).
  intros ys. revert c. induction ys as [|y ys IH]; intros c Hlen; cbn in *.
  - by rewrite <- Hlen.
  - rewrite length_app, length_fmap, length_seqZ.
    destruct (Z.to_nat (height c)) as [|h] eqn:Hh; [done|].
    injection Hlen as Hlen.
    specialize (IH {| width := width c; height := Z.of_nat h |}). cbn in IH.
    rewrite Nat2Z.id in IH. rewrite IH by done. lia.
Qed.

(** ** The flood fill returns *)

Lemma length_assignIndex row i v :
  0 <= i < Z.of_nat (length row) -> length (assignIndex row i v) = length row.
Proof.
  intros Hi. unfold assignIndex.
  destruct (i <? 0) eqn:E0; [bool_lia|].
  destruct (i <? Z.of_nat (length row)) eqn:E1; [|bool_lia].
  apply length_insert.
Qed.

Lemma assignCell_Some result0 c x y :
  hasSize result0 c -> inCanvas c (x, y) ->
  exists result1, assignCell result0 x y = Some result1 ∧ hasSize result1 c.
Proof.
  intros Hsize [Hx Hy]. cbn in Hx, Hy.
  destruct (hasSize_at result0 c y Hsize Hy) as [row Hrow].
  unfold assignCell. rewrite Hrow. cbn. eexists. split; [reflexivity|].
  destruct (hasSize_row _ _ _ _ Hsize Hrow) as [_ Hlen].
  destruct Hsize as [Hrows Hcols]. split.
  - by rewrite length_insert.
  - apply Forall_insert; [done|]. rewrite length_assignIndex; [done | lia].
Qed.

Section FloodReturns.

Context {T Env : Type}.
Variable testFunction : BitmaskMatchFunction T Env.
Variable testArray : list (list T).
Variable c : Canvas.

(** The matrix and the output bitmap have the size of the canvas.  On the
    rows of the matrix the predicate does not throw, and it accepts no
    coordinate outside the columns of the canvas (where the cell it is
    given is [undefined]). *)
Hypothesis testArray_size : hasSize testArray c.
Hypothesis testFunction_total : forall e row x y,
  at_ testArray y = Some row ->
  is_Some (testFunction e (at_ row x) (x, y) testArray).
Hypothesis testFunction_inside : forall e row x y e',
  at_ testArray y = Some row ->
  testFunction e (at_ row x) (x, y) testArray = Some (true, e') ->
  0 <= x < width c.

(** What the loop keeps: the output bitmap has the size of the canvas, and
    the queue grows no faster than the untested cells shrink. *)
Lemma visitDirection_returns x y d (f : Flood Env) :
  hasSize (result f) c ->
  exists f',
    visitDirection testFunction testArray x y d f = Some f'
    ∧ hasSize (result f') c
    ∧ (length (queue f') + unvisited c f' <= length (queue f) + unvisited c f)%nat.
Proof.
  intros Hresult. unfold visitDirection.
  generalize (x + d.1) (y + d.2). intros nx ny.
  destruct (at_ testArray ny) as [row|] eqn:Hrow; [|by exists f].
  destruct (bool_decide _) eqn:Hvisited; [by exists f|].
  apply bool_decide_eq_false in Hvisited.
  destruct (hasSize_row _ _ _ _ testArray_size Hrow) as [Hy Hlen].
  destruct (testFunction_total (env f) row nx ny Hrow) as [[matched env'] Htest].
  rewrite Htest. cbn [mbind option_bind].
  assert (Hshrink : (unvisited c {| queue := queue f; visited := {[(nx, ny)]} ∪ visited f;
                                    result := result f; env := env' |}
                     <= unvisited c f)%nat).
  { unfold unvisited. cbn. apply subseteq_size. set_solver. }
  destruct matched.
  - assert (Hin : inCanvas c (nx, ny)).
    { split; cbn; [|done]. exact (testFunction_inside _ _ _ _ _ Hrow Htest). }
    destruct (assignCell_Some _ c _ _ Hresult Hin) as (result1 & -> & Hresult1).
    cbn. eexists. split; [reflexivity|]. split; [done|]. cbn.
    rewrite length_app. cbn. unfold unvisited in *. cbn.
    assert (Hsplit : cellSet c ∖ visited f
                     = {[(nx, ny)]} ∪ cellSet c ∖ ({[(nx, ny)]} ∪ visited f)).
    { apply set_eq. intros q. apply elem_of_cellSet in Hin.
      destruct (decide (q = (nx, ny))) as [->|]; set_solver. }
    rewrite Hsplit.
    rewrite (size_union (C := gset (Z * Z)) {[(nx, ny)]}
               (cellSet c ∖ ({[(nx, ny)]} ∪ visited f))) by set_solver.
    rewrite size_singleton. lia.
  - eexists. split; [reflexivity|]. split; [done|]. cbn in *. lia.
Qed.

Lemma visitDirections_returns x y ds : forall f : Flood Env,
  hasSize (result f) c ->
  exists f',
    visitDirections testFunction testArray x y ds f = Some f'
    ∧ hasSize (result f') c
    ∧ (length (queue f') + unvisited c f' <= length (queue f) + unvisited c f)%nat.
Proof.
  induction ds as [|d ds IH]; intros f Hresult; cbn [visitDirections].
  - exists f. done.
  - destruct (visitDirection_returns x y d f Hresult) as (f1 & -> & Hresult1 & Hle1).
    cbn. destruct (IH f1 Hresult1) as (f2 & -> & Hresult2 & Hle2).
    exists f2. split; [done|]. split; [done | lia].
Qed.

(** With more fuel than queued coordinates and untested cells together, the
    loop runs until the queue is empty. *)
Lemma floodLoop_returns fuel : forall f : Flood Env,
  hasSize (result f) c ->
  (length (queue f) + unvisited c f < fuel)%nat ->
  exists f',
    floodLoop fuel testFunction testArray f = Some f'
    ∧ queue f' = [] ∧ hasSize (result f') c.
Proof.
  induction fuel as [|fuel IH]; intros f Hresult Hfuel; [lia|].
  destruct f as [q v r e]. destruct q as [|[x y] rest]; [by eexists|].
  cbn [floodLoop SegmentDisplayReader.queue SegmentDisplayReader.visited
       SegmentDisplayReader.result SegmentDisplayReader.env].
  cbn [SegmentDisplayReader.result] in Hresult.
  destruct (visitDirections_returns x y directions
              {| queue := rest; visited := v; result := r; env := e |} Hresult)
    as (f1 & -> & Hresult1 & Hle).
  cbn [mbind option_bind]. apply IH; [done|].
  unfold unvisited in *. cbn [SegmentDisplayReader.queue SegmentDisplayReader.visited length] in *.
  lia.
Qed.

(** Fuel that is enough for a flood fill from [n] seeds. *)
Lemma floodLoop_enough_fuel fuel seeds env0 result0 :
  hasSize result0 c ->
  (length seeds + Z.to_nat (height c) * Z.to_nat (width c) < fuel)%nat ->
  exists f',
    floodLoop fuel testFunction testArray
      {| queue := seeds; visited := ∅; result := result0; env := env0 |} = Some f'
    ∧ queue f' = [] ∧ hasSize (result f') c.
Proof.
  intros Hresult Hfuel. apply floodLoop_returns; [done|]. cbn.
  pose proof (size_cellSet c) as Hsize. rewrite length_rowMajor in Hsize.
  unfold unvisited. cbn.
  assert (size (cellSet c ∖ ∅) <= size (cellSet c))%nat by (apply subseteq_size; set_solver).
  lia.
Qed.

End FloodReturns.

(** ** Calibration returns *)

Lemma forEachM_returns {A B} (body : B -> A -> option B) l :
  (forall b a, a ∈ l -> is_Some (body b a)) ->
  forall b, is_Some (forEachM body b l).
Proof.
  induction l as [|a l IH]; intros Hbody b; cbn; [done|].
  destruct (Hbody b a ltac:(left)) as [b1 ->]. cbn.
  apply IH. intros b' a' Ha'. apply Hbody. by right.
Qed.

Lemma generateBitmask_returns {T Env} `{Truthy T} fuel c (testArray : list (list T))
    (testFunction : BitmaskMatchFunction T Env) seed env0 :
  hasSize testArray c ->
  (forall e row x y, at_ testArray y = Some row ->
     is_Some (testFunction e (at_ row x) (x, y) testArray)) ->
  (forall e row x y e', at_ testArray y = Some row ->
     testFunction e (at_ row x) (x, y) testArray = Some (true, e') -> 0 <= x < width c) ->
  enoughFuel c fuel ->
  (length seed <= 1)%nat ->
  exists bitmask env1,
    generateBitmask fuel c testArray (Some testFunction) None seed env0 = Some (bitmask, env1)
    ∧ hasSize bitmask c.
Proof.
  intros Hsize Htotal Hinside Hfuel Hseed.
  destruct (floodLoop_enough_fuel testFunction testArray c Hsize Htotal Hinside fuel
              (match seed with [] => [(0, 0)] | _ => seed end) env0
              (createPixelArray c 0) (hasSize_createPixelArray c 0))
    as (f & Hf & _ & Hresult).
  - unfold enoughFuel in Hfuel. destruct seed as [|? [|]]; cbn in *; lia.
  - unfold generateBitmask. cbn [default]. rewrite Hf. cbn. by eexists _, _.
Qed.

Lemma backgroundMatchFunction_total detectable e row x y :
  at_ detectable y = Some row ->
  is_Some (backgroundMatchFunction detectable e (at_ row x) (x, y) detectable).
Proof. intros Hrow. unfold backgroundMatchFunction. rewrite Hrow. by eexists. Qed.

Lemma backgroundMatchFunction_inside detectable c e row x y e' :
  hasSize detectable c ->
  at_ detectable y = Some row ->
  backgroundMatchFunction detectable e (at_ row x) (x, y) detectable = Some (true, e') ->
  0 <= x < width c.
Proof.
  intros Hsize Hrow. unfold backgroundMatchFunction. rewrite Hrow. cbn.
  intros Heq. injection Heq as Hcell _. apply bool_decide_eq_true in Hcell.
  destruct (hasSize_row _ _ _ _ Hsize Hrow) as [_ Hlen].
  pose proof (proj1 (at_is_Some row x) (mk_is_Some _ _ Hcell)). lia.
Qed.

Lemma holeMatchFunction_total pixelArray background c e row x y :
  hasSize background c -> hasSize pixelArray c ->
  at_ pixelArray y = Some row ->
  is_Some (holeMatchFunction pixelArray background e (at_ row x) (x, y) pixelArray).
Proof.
  intros Hbackground Hsize Hrow. unfold holeMatchFunction.
  destruct (bool_decide _); [by eexists|].
  rewrite Hrow. cbn. destruct (bool_decide _); [|by eexists].
  destruct (hasSize_row _ _ _ _ Hsize Hrow) as [Hy _].
  destruct (hasSize_at background c y Hbackground Hy) as [brow ->]. by eexists.
Qed.

Lemma holeMatchFunction_inside pixelArray background c e row x y e' :
  hasSize pixelArray c ->
  at_ pixelArray y = Some row ->
  holeMatchFunction pixelArray background e (at_ row x) (x, y) pixelArray = Some (true, e') ->
  0 <= x < width c.
Proof.
  intros Hsize Hrow. unfold holeMatchFunction.
  destruct (bool_decide ((x, y) ∈ e)); [done|].
  rewrite Hrow. cbn. destruct (bool_decide (at_ row x = Some 0)) eqn:Hcell; [|done].
  intros _. apply bool_decide_eq_true in Hcell.
  destruct (hasSize_row _ _ _ _ Hsize Hrow) as [_ Hlen].
  pose proof (proj1 (at_is_Some row x) (mk_is_Some _ _ Hcell)). lia.
Qed.

Lemma findHoleComponent_returns fuel c pixelArray background visited0 start :
  hasSize pixelArray c -> hasSize background c -> enoughFuel c fuel ->
  is_Some (findHoleComponent fuel c pixelArray background visited0 start).
Proof.
  intros Hsize Hbackground Hfuel. unfold findHoleComponent.
  destruct (generateBitmask_returns fuel c pixelArray
              (holeMatchFunction pixelArray background) [start] visited0 Hsize)
    as (bitmask & visited1 & -> & _); try done.
  - intros e row x y Hrow. exact (holeMatchFunction_total _ _ c _ _ _ _ Hbackground Hsize Hrow).
  - intros e row x y e' Hrow Htest.
    exact (holeMatchFunction_inside _ _ c _ _ _ _ _ Hsize Hrow Htest).
Qed.

Lemma findHoles_returns fuel c detectable background :
  hasSize detectable c -> hasSize background c -> enoughFuel c fuel ->
  is_Some (findHoles fuel c detectable background).
Proof.
  intros Hsize Hbackground Hfuel. unfold findHoles.
  apply fmap_is_Some, forEachM_returns.
  intros [visited0 holes] [x y] Hp. apply elem_of_rowMajor in Hp as [Hx Hy].
  cbn in Hx, Hy. unfold scanPixel.
  destruct (hasSize_at detectable c y Hsize Hy) as [drow ->]. cbn [mbind option_bind].
  destruct (bool_decide _); [|done].
  destruct (hasSize_at background c y Hbackground Hy) as [brow ->]. cbn [mbind option_bind].
  destruct (_ && _); [|done].
  destruct (findHoleComponent_returns fuel c detectable background visited0 (x, y)
              Hsize Hbackground Hfuel) as [[component visited1] ->].
  done.
Qed.

Lemma hasSize_detectablePixels c threshold onGray offGray :
  hasSize (detectablePixels c threshold onGray offGray) c.
Proof. apply hasSize_fillCells. Qed.

(** ** What the flood fill marks *)

Lemma at_insert {A} (l : list A) i j v :
  0 <= i < Z.of_nat (length l) ->
  at_ (<[Z.to_nat i := v]> l) j = if decide (j = i) then Some v else at_ l j.
Proof.
  intros Hi. unfold at_. destruct (j <? 0) eqn:Hj.
  - rewrite decide_False by bool_lia. done.
  - destruct (decide (j = i)) as [->|Hne].
    + apply list_lookup_insert_eq. lia.
    + apply list_lookup_insert_ne. bool_lia.
Qed.

Lemma cellAt_createPixelArray c p :
  cellAt (createPixelArray c 0) p = if bool_decide (inCanvas c p) then Some 0 else None.
Proof.
  unfold cellAt, createPixelArray, create2dArray, inCanvas.
  destruct (at_ (replicate _ _) p.2) as [row|] eqn:Hrow; cbn.
  - pose proof (proj1 (at_is_Some _ _) (mk_is_Some _ _ Hrow)) as Hy.
    rewrite length_replicate in Hy.
    apply at_Some_iff in Hrow as [_ Hrow]. apply lookup_replicate in Hrow as [-> _].
    destruct (at_ (replicate _ 0) p.1) as [v|] eqn:Hcell.
    + pose proof (proj1 (at_is_Some _ _) (mk_is_Some _ _ Hcell)) as Hx.
      rewrite length_replicate in Hx.
      apply at_Some_iff in Hcell as [_ Hcell]. apply lookup_replicate in Hcell as [-> _].
      rewrite bool_decide_eq_true_2; [done | lia].
    + apply at_None in Hcell. rewrite length_replicate in Hcell.
      rewrite bool_decide_eq_false_2; [done | lia].
  - apply at_None in Hrow. rewrite length_replicate in Hrow.
    rewrite bool_decide_eq_false_2; [done | lia].
Qed.

Lemma cellAt_assignCell result0 c x y result1 p :
  hasSize result0 c -> inCanvas c (x, y) ->
  assignCell result0 x y = Some result1 ->
  cellAt result1 p = if decide (p = (x, y)) then Some 1 else cellAt result0 p.
Proof.
  intros Hsize [Hx Hy] Hassign. cbn in Hx, Hy. unfold assignCell in Hassign.
  destruct (at_ result0 y) as [row|] eqn:Hrow; [|done]. cbn in Hassign.
  injection Hassign as <-.
  destruct (hasSize_row _ _ _ _ Hsize Hrow) as [_ Hlen].
  destruct Hsize as [Hrows _].
  unfold cellAt. rewrite at_insert by lia.
  destruct p as [px py]. cbn [fst snd].
  destruct (decide (py = y)) as [->|Hpy].
  - cbn. unfold assignIndex.
    destruct (x <? 0) eqn:E0; [bool_lia|].
    destruct (x <? Z.of_nat (length row)) eqn:E1; [|bool_lia].
    rewrite at_insert by lia. rewrite Hrow. cbn.
    destruct (decide (px = x)) as [->|Hpx].
    + by rewrite decide_True.
    + rewrite decide_False; [done | congruence].
  - rewrite decide_False; [done | congruence].
Qed.

Section FloodMarks.

Context {T : Type}.
Variable include : option T -> Coordinate -> bool.
Variable testArray : list (list T).
Variable c : Canvas.
Variable seeds : CoordinateArray.

Hypothesis testArray_size : hasSize testArray c.
(** The predicate rejects the [undefined] that it is given for a
    coordinate outside the columns of the matrix. *)
Hypothesis include_inside : forall p, include None p = false.

Notation Inv := (floodInvariant include testArray c seeds).
Notation Accepted := (accepted include testArray).
Notation Expands := (expands include testArray seeds).
Notation visiting := (floodVisiting include testArray c seeds).

Lemma accepted_row x y row :
  at_ testArray y = Some row ->
  Accepted (x, y) <-> include (at_ row x) (x, y) = true.
Proof.
  intros Hrow. unfold accepted. cbn. split.
  - intros (row' & Hrow' & Hinc). congruence.
  - intros Hinc. by exists row.
Qed.

Lemma accepted_inCanvas p : Accepted p -> inCanvas c p.
Proof.
  intros (row & Hrow & Hinc).
  destruct (hasSize_row _ _ _ _ testArray_size Hrow) as [Hy Hlen].
  split; [|done].
  destruct (at_ row p.1) as [v|] eqn:Hcell.
  - pose proof (proj1 (at_is_Some _ _) (mk_is_Some _ _ Hcell)). lia.
  - by rewrite include_inside in Hinc.
Qed.

Lemma expands_mono v1 v2 p : v1 ⊆ v2 -> Expands v1 p -> Expands v2 p.
Proof. intros Hsub [?|[? ?]]; [by left | right; split; [set_solver | done]]. Qed.

Lemma surrounded_mono v1 v2 p :
  v1 ⊆ v2 -> surrounded testArray v1 p -> surrounded testArray v2 p.
Proof. intros Hsub Hs q Hadj Hrow. apply Hsub. by apply Hs. Qed.

Lemma visitDirection_visiting p d taken f f' :
  d ∈ directions ->
  visiting p taken f ->
  visitDirection (purePredicate include) testArray p.1 p.2 d f = Some f' ->
  visiting p (d :: taken) f'.
Proof.
  intros Hd (HInv & Hp & Htaken). unfold visitDirection.
  set (nx := p.1 + d.1). set (ny := p.2 + d.2).
  destruct (at_ testArray ny) as [row|] eqn:Hrow.
  2:{ intros Heq. injection Heq as <-. split; [done|]. split; [done|].
      intros d' Hd' Hrow'. apply elem_of_cons in Hd' as [->|Hd'].
      - fold ny in Hrow'. rewrite Hrow in Hrow'. by destruct Hrow'.
      - by apply Htaken. }
  destruct (bool_decide ((nx, ny) ∈ visited f)) eqn:Hvisited.
  { apply bool_decide_eq_true in Hvisited.
    intros Heq. injection Heq as <-. split; [done|]. split; [done|].
    intros d' Hd' Hrow'. apply elem_of_cons in Hd' as [->|Hd']; [done|].
    by apply Htaken. }
  apply bool_decide_eq_false in Hvisited.
  unfold purePredicate. cbn [mbind option_bind].
  pose proof (accepted_row nx ny row Hrow) as Hacc.
  assert (Hadj : adjacent p (nx, ny)) by (by exists d).
  assert (Hsub : visited f ⊆ {[(nx, ny)]} ∪ visited f) by apply union_subseteq_r.
  assert (Hnew : (nx, ny) ∈ {[(nx, ny)]} ∪ visited f)
    by (apply elem_of_union_l, elem_of_singleton; reflexivity).
  assert (Hcover : forall d', d' ∈ d :: taken -> is_Some (at_ testArray (p.2 + d'.2)) ->
                     (p.1 + d'.1, p.2 + d'.2) ∈ {[(nx, ny)]} ∪ visited f).
  { intros d' Hd' Hrow'. apply elem_of_cons in Hd' as [->|Hd']; [exact Hnew|].
    apply Hsub. by apply Htaken. }
  destruct HInv as [Hsize Hmarked Hbinary Hsound Hqueue Hclosed].
  destruct (include (at_ row nx) (nx, ny)) eqn:Hinc.
  - assert (HP : Accepted (nx, ny)) by (by apply Hacc).
    pose proof (accepted_inCanvas _ HP) as Hin.
    destruct (assignCell_Some _ c _ _ Hsize Hin) as (result1 & Hassign & Hsize1).
    rewrite Hassign. cbn [mbind option_bind].
    intros Heq. injection Heq as <-.
    split; [|split; [by eapply expands_mono | exact Hcover]].
    split; cbn [SegmentDisplayReader.queue SegmentDisplayReader.visited
                SegmentDisplayReader.result].
    + done.
    + intros q. rewrite (cellAt_assignCell _ c _ _ _ q Hsize Hin Hassign).
      destruct (decide (q = (nx, ny))) as [->|Hq].
      * split; [intros _; split; [exact Hnew | exact HP] | reflexivity].
      * rewrite Hmarked. split; intros [Hv HPq]; (split; [|exact HPq]).
        -- by apply Hsub.
        -- apply elem_of_union in Hv as [Hv|Hv]; [|exact Hv].
           apply elem_of_singleton in Hv. congruence.
    + intros q Hq. rewrite (cellAt_assignCell _ c _ _ _ q Hsize Hin Hassign).
      destruct (decide (q = (nx, ny))); [by right | by apply Hbinary].
    + intros q Hq HPq. apply elem_of_union in Hq as [Hq|Hq]; [|by apply Hsound].
      apply elem_of_singleton in Hq as ->.
      destruct Hp as [Hseed|[Hpv HPp]].
      * by eapply reach_seed.
      * eapply reach_step; [by apply Hsound | done | done].
    + intros q Hq. apply elem_of_app in Hq as [Hq|Hq].
      * eapply expands_mono; [exact Hsub | by apply Hqueue].
      * apply list_elem_of_singleton in Hq as ->. right. split; [exact Hnew | exact HP].
    + intros q [Hseed|[Hq HPq]].
      * destruct (Hclosed q (or_introl Hseed)) as [?|[?|?]]; [by left | |].
        -- right; left. apply elem_of_app. by left.
        -- right; right. by eapply surrounded_mono.
      * apply elem_of_union in Hq as [Hq|Hq].
        -- apply elem_of_singleton in Hq as ->. right; left. apply elem_of_app. right.
           by apply list_elem_of_singleton.
        -- destruct (Hclosed q (or_intror (conj Hq HPq))) as [?|[?|?]]; [by left | |].
           ++ right; left. apply elem_of_app. by left.
           ++ right; right. by eapply surrounded_mono.
  - assert (HP : ¬ Accepted (nx, ny)) by (rewrite Hacc; done).
    intros Heq. injection Heq as <-.
    split; [|split; [by eapply expands_mono | exact Hcover]].
    split; cbn [SegmentDisplayReader.queue SegmentDisplayReader.visited
                SegmentDisplayReader.result].
    + done.
    + intros q. rewrite Hmarked. split.
      * intros [Hv HPq]. split; [by apply Hsub | exact HPq].
      * intros [Hq HPq]. split; [|done].
        apply elem_of_union in Hq as [Hq|Hq]; [|done].
        apply elem_of_singleton in Hq as ->. done.
    + done.
    + intros q Hq HPq. apply elem_of_union in Hq as [Hq|Hq]; [|by apply Hsound].
      apply elem_of_singleton in Hq as ->. done.
    + intros q Hq. eapply expands_mono; [exact Hsub | by apply Hqueue].
    + intros q [Hseed|[Hq HPq]].
      * destruct (Hclosed q (or_introl Hseed)) as [?|[?|?]]; [by left | by right; left |].
        right; right. by eapply surrounded_mono.
      * apply elem_of_union in Hq as [Hq|Hq].
        -- apply elem_of_singleton in Hq as ->. done.
        -- destruct (Hclosed q (or_intror (conj Hq HPq))) as [?|[?|?]];
             [by left | by right; left |].
           right; right. by eapply surrounded_mono.
Qed.

Lemma visitDirections_visiting p ds : forall taken f f',
  ds ⊆ directions ->
  visiting p taken f ->
  visitDirections (purePredicate include) testArray p.1 p.2 ds f = Some f' ->
  visiting p (reverse ds ++ taken) f'.
Proof.
  induction ds as [|d ds IH]; intros taken f f' Hds Hf Hrun; cbn [visitDirections] in Hrun.
  - by injection Hrun as <-.
  - destruct (visitDirection _ _ _ _ d f) as [f1|] eqn:Hstep; [|done].
    cbn [mbind option_bind] in Hrun.
    rewrite reverse_cons, <- app_assoc. cbn [app].
    eapply IH; [set_solver | | exact Hrun].
    eapply visitDirection_visiting; [set_solver | exact Hf | exact Hstep].
Qed.

(** The invariant holds whenever the loop is back at its head, and the loop
    ends with an empty queue. *)
Lemma floodLoop_invariant fuel : forall f f',
  Inv None f ->
  floodLoop fuel (purePredicate include) testArray f = Some f' ->
  Inv None f' ∧ queue f' = [].
Proof.
  induction fuel as [|fuel IH]; intros f f' HInv Hrun.
  - destruct f as [[|[x y] rest] v r e]; cbn in Hrun; [|done].
    by injection Hrun as <-.
  - destruct f as [[|[x y] rest] v r e]; cbn [floodLoop SegmentDisplayReader.queue] in Hrun.
    { by injection Hrun as <-. }
    cbn [SegmentDisplayReader.visited SegmentDisplayReader.result SegmentDisplayReader.env] in Hrun.
    destruct (visitDirections _ _ x y directions _) as [f1|] eqn:Hvisit; [|done].
    cbn [mbind option_bind] in Hrun.
    apply (IH f1 f'); [|exact Hrun].
    destruct HInv as [Hsize Hmarked Hbinary Hsound Hqueue Hclosed].
    cbn [SegmentDisplayReader.queue SegmentDisplayReader.visited
         SegmentDisplayReader.result] in *.
    assert (Hstart : visiting (x, y) []
                       {| queue := rest; visited := v; result := r; env := e |}).
    { split; [|split].
      - split; cbn [SegmentDisplayReader.queue SegmentDisplayReader.visited
                    SegmentDisplayReader.result]; try done.
        + intros q Hq. apply Hqueue. by right.
        + intros q Hq. destruct (Hclosed q Hq) as [?|[Hin|?]]; [done| |by right; right].
          apply elem_of_cons in Hin as [->|?]; [by left | by right; left].
      - apply Hqueue. by left.
      - intros d Hd. by apply elem_of_nil in Hd. }
    pose proof (visitDirections_visiting (x, y) directions [] _ f1
                  ltac:(done) Hstart Hvisit) as (HInv1 & Hp & Hcover).
    destruct HInv1 as [Hsize1 Hmarked1 Hbinary1 Hsound1 Hqueue1 Hclosed1].
    split; try done.
    intros q Hq. destruct (Hclosed1 q Hq) as [Hcur|[?|?]]; [|by right; left|by right; right].
    injection Hcur as ->. right; right.
    intros q' (d & Hd & ->) Hrow. apply Hcover; [|done].
    rewrite app_nil_r. by apply elem_of_reverse.
Qed.

(** The bitmap of a flood fill that has returned: its cells are 0 or 1, and
    the cells that are 1 are the reachable coordinates. *)
Lemma floodLoop_marks fuel result0 f' :
  result0 = createPixelArray c 0 ->
  floodLoop fuel (purePredicate include) testArray
    {| queue := seeds; visited := ∅; result := result0; env := tt |} = Some f' ->
  hasSize (result f') c
  ∧ (forall p, cellAt (result f') p = Some 1 <-> reachable include testArray seeds p)
  ∧ (forall p, inCanvas c p -> cellAt (result f') p = Some 0 ∨ cellAt (result f') p = Some 1).
Proof.
  intros -> Hrun.
  destruct (floodLoop_invariant fuel
              {| queue := seeds; visited := ∅; result := createPixelArray c 0; env := tt |} f')
    as [HInv Hempty]; [|exact Hrun|].
  { split; cbn [SegmentDisplayReader.queue SegmentDisplayReader.visited
                SegmentDisplayReader.result].
    - apply hasSize_createPixelArray.
    - intros p. rewrite cellAt_createPixelArray. split.
      + by destruct (bool_decide _).
      + intros [Hp _]. set_solver.
    - intros p Hp. rewrite cellAt_createPixelArray, bool_decide_eq_true_2 by done. by left.
    - intros p Hp. set_solver.
    - intros p Hp. by left.
    - intros p [Hp|[Hp _]]; [by right; left | set_solver]. }
  destruct HInv as [Hsize Hmarked Hbinary Hsound Hqueue Hclosed].
  split; [done|]. split; [|done].
  assert (Hall : forall p, reachable include testArray seeds p ->
                           p ∈ visited f' ∧ Accepted p).
  { induction 1 as [s q Hs Hadj Hacc | p q Hreach IHp Hadj Hacc].
    - split; [|done].
      destruct (Hclosed s (or_introl Hs)) as [?|[Hin|Hsur]]; [done| |].
      + rewrite Hempty in Hin. by apply elem_of_nil in Hin.
      + apply Hsur; [done|]. destruct Hacc as (row & -> & _). done.
    - split; [|done].
      destruct (Hclosed p (or_intror IHp)) as [?|[Hin|Hsur]]; [done| |].
      + rewrite Hempty in Hin. by apply elem_of_nil in Hin.
      + apply Hsur; [done|]. destruct Hacc as (row & -> & _). done. }
  intros p. rewrite Hmarked. split.
  - intros [? ?]. by apply Hsound.
  - apply Hall.
Qed.

End FloodMarks.

(** Two bitmaps of the canvas's size with the same cells are equal. *)
Lemma bitmask_ext (b1 b2 : Bitmask2d) c :
  hasSize b1 c -> hasSize b2 c ->
  (forall p, inCanvas c p -> cellAt b1 p = cellAt b2 p) ->
  b1 = b2.
Proof.
  intros [Hrows1 Hcols1] [Hrows2 Hcols2] Hcells.
  apply list_eq_same_length with (Z.to_nat (height c)); [done | done |].
  intros i row1 row2 Hi Hrow1 Hrow2.
  pose proof (Forall_lookup_1 _ _ _ _ Hcols1 Hrow1) as Hlen1.
  pose proof (Forall_lookup_1 _ _ _ _ Hcols2 Hrow2) as Hlen2. cbn in Hlen1, Hlen2.
  apply list_eq_same_length with (Z.to_nat (width c)); [done | done |].
  intros j v1 v2 Hj Hv1 Hv2.
  specialize (Hcells (Z.of_nat j, Z.of_nat i) ltac:(split; cbn; lia)).
  unfold cellAt, at_ in Hcells. cbn in Hcells.
  destruct (Z.of_nat i <? 0) eqn:?; [bool_lia|].
  destruct (Z.of_nat j <? 0) eqn:?; [bool_lia|].
  rewrite !Nat2Z.id, Hrow1, Hrow2 in Hcells. cbn in Hcells.
  rewrite Hv1, Hv2 in Hcells. by injection Hcells.
Qed.

Lemma reachable_seeds {T} (include : option T -> Coordinate -> bool) testArray seeds1 seeds2 p :
  (forall s, s ∈ seeds1 -> s ∈ seeds2) ->
  reachable include testArray seeds1 p -> reachable include testArray seeds2 p.
Proof.
  intros Hsub. induction 1 as [s q Hs Hadj Hacc | p q _ IH Hadj Hacc].
  - eapply reach_seed; [by apply Hsub | done | done].
  - by eapply reach_step.
Qed.

Lemma seedsOrOrigin_Permutation queue0 queue1 :
  queue1 ≡ₚ queue0 ->
  length (seedsOrOrigin queue1) = length (seedsOrOrigin queue0)
  ∧ forall s, s ∈ seedsOrOrigin queue1 <-> s ∈ seedsOrOrigin queue0.
Proof.
  intros Hperm. destruct queue0 as [|s0 rest0].
  - apply Permutation_nil_r in Hperm as ->. done.
  - destruct queue1 as [|s1 rest1]; [by apply Permutation_nil_cons in Hperm|].
    cbn [seedsOrOrigin]. split; [by apply Permutation_length|].
    intros s. by apply elem_of_Permutation_proper.
Qed.

(** The flood fill with a predicate without side effects: it returns, and
    its bitmap marks the reachable coordinates. *)
Lemma generateBitmask_pure {T} `{Truthy T} (include : option T -> Coordinate -> bool)
    (testArray : list (list T)) (c : Canvas) (fuel : nat) (seeds : CoordinateArray) :
  hasSize testArray c ->
  (forall p, include None p = false) ->
  (length (seedsOrOrigin seeds) + Z.to_nat (height c) * Z.to_nat (width c) < fuel)%nat ->
  exists bitmask,
    generateBitmask fuel c testArray (Some (purePredicate include)) None seeds tt
      = Some (bitmask, tt)
    ∧ hasSize bitmask c
    ∧ (forall p, cellAt bitmask p = Some 1
                 <-> reachable include testArray (seedsOrOrigin seeds) p)
    ∧ (forall p, inCanvas c p ->
                 cellAt bitmask p = Some 0 ∨ cellAt bitmask p = Some 1).
Proof.
  intros Hsize Hinside Hseeds.
  destruct (floodLoop_enough_fuel (purePredicate include) testArray c Hsize) with
    (fuel := fuel) (seeds := seedsOrOrigin seeds) (env0 := tt)
    (result0 := createPixelArray c 0) as (f' & Hloop & _ & _).
  - intros e row x y Hrow. by eexists.
  - intros e row x y e' Hrow Htest. unfold purePredicate in Htest.
    injection Htest as Hinc _.
    destruct (hasSize_row _ _ _ _ Hsize Hrow) as [_ Hlen].
    destruct (at_ row x) as [v|] eqn:Hcell; [|by rewrite Hinside in Hinc].
    pose proof (proj1 (at_is_Some _ _) (mk_is_Some _ _ Hcell)). lia.
  - apply hasSize_createPixelArray.
  - exact Hseeds.
  - destruct (floodLoop_marks include testArray c (seedsOrOrigin seeds) Hsize Hinside
                fuel _ f' eq_refl Hloop) as (Hs & Hmarks & Hbinary).
    exists (result f'). unfold generateBitmask. cbn [default].
    fold (seedsOrOrigin seeds). rewrite Hloop. cbn [mbind option_bind].
    by destruct (env f').
Qed.

(** C5, as the code has it.  For a matrix of the canvas's size, a predicate
    without side effects that rejects the [undefined] cell value it is
    given outside the columns of the matrix, and any seeds, the flood fill
    returns (given fuel for one pass over the seeds and the cells); its
    bitmap has the canvas's size and has 1 exactly at the coordinates that
    are reached from a seed by one or more steps to an 8-neighbour, each
    arriving at an accepted coordinate; every marked coordinate is
    in-bounds and accepted, and a step of the loop marks only a coordinate
    that had not been visited; and the bitmap is the same for every order
    of the seeds. *)
Theorem C5_flood_fill_marks_reachable {T} `{Truthy T}
    (include : option T -> Coordinate -> bool) (testArray : list (list T))
    (c : Canvas) (queue0 : CoordinateArray) (fuel : nat) :
  hasSize testArray c ->
  (forall p, include None p = false) ->
  (length (seedsOrOrigin queue0) + Z.to_nat (height c) * Z.to_nat (width c) < fuel)%nat ->
  exists bitmask,
    generateBitmask fuel c testArray (Some (purePredicate include)) None queue0 tt
      = Some (bitmask, tt)
    ∧ hasSize bitmask c
    ∧ (forall p, cellAt bitmask p = Some 1
                 <-> reachable include testArray (seedsOrOrigin queue0) p)
    ∧ (forall p, cellAt bitmask p = Some 1 -> inCanvas c p ∧ accepted include testArray p)
    ∧ (forall x y d f f',
         visitDirection (purePredicate include) testArray x y d f = Some f' ->
         result f' ≠ result f ->
         (x + d.1, y + d.2) ∉ visited f ∧ accepted include testArray (x + d.1, y + d.2))
    ∧ (forall queue1, queue1 ≡ₚ queue0 ->
         generateBitmask fuel c testArray (Some (purePredicate include)) None queue1 tt
           = Some (bitmask, tt)).
Proof.
  intros Hsize Hinside Hfuel.
  pose proof (fun seeds => generateBitmask_pure include testArray c fuel seeds Hsize Hinside)
    as Hrun.
  destruct (Hrun queue0 Hfuel) as (bitmask & Hgen & Hbsize & Hmarks & Hbinary).
  exists bitmask. split; [done|]. split; [done|]. split; [done|].
  split; [|split].
  - intros p Hp. apply Hmarks in Hp.
    assert (Hacc : accepted include testArray p) by (by destruct Hp).
    split; [|done]. exact (accepted_inCanvas include testArray c Hsize Hinside p Hacc).
  - intros x y d f f'. unfold visitDirection, purePredicate.
    destruct (at_ testArray (y + d.2)) as [row|] eqn:Hrow; [|by intros [= <-]].
    destruct (bool_decide _) eqn:Hvisited; [by intros [= <-]|].
    apply bool_decide_eq_false in Hvisited. cbn [mbind option_bind].
    destruct (include _ _) eqn:Hinc; [|by intros [= <-]].
    intros _ _. split; [done|]. by exists row.
  - intros queue1 Hperm.
    destruct (seedsOrOrigin_Permutation _ _ Hperm) as [Hlen Hmem].
    destruct (Hrun queue1 ltac:(lia)) as (bitmask1 & Hgen1 & Hbsize1 & Hmarks1 & Hbinary1).
    rewrite Hgen1. do 2 f_equal.
    apply bitmask_ext with c; [done | done |].
    intros p Hp.
    assert (Hsame : cellAt bitmask1 p = Some 1 <-> cellAt bitmask p = Some 1).
    { rewrite Hmarks, Hmarks1.
      split; apply reachable_seeds; intros s; apply Hmem. }
    destruct (Hbinary p Hp) as [H0|H1], (Hbinary1 p Hp) as [H0'|H1']; try congruence.
    + apply Hsame in H1'. congruence.
    + apply Hsame in H1. congruence.
Qed.

(** The statement of the specification fails on three counts.  A predicate may
    accept a coordinate outside the columns of the grid, for only the row
    of a neighbour is checked: on the 1 x 1 grid the coordinate (1, 0) is
    marked, and the bitmap grows to two columns.  A seed is not marked for
    being accepted: on the 1 x 1 grid whose cell the predicate accepts, the
    seed (0, 0) has no accepted neighbour and stays 0.  And the output
    bitmap has the size of the canvas, not of the grid: on a grid of two
    rows and a canvas of one, marking (0, 1) is a [TypeError]. *)
Lemma C5_counterexample :
  let c := {| width := 1; height := 1 |} in
  generateBitmask 10 c [[5]]
    (Some (purePredicate (fun _ p => (p.1 =? 1) && (p.2 =? 0)))) None [] tt
    = Some ([[0; 1]], tt)
  ∧ ¬ inCanvas c (1, 0)
  ∧ generateBitmask 10 c [[0]]
      (Some (purePredicate (fun value _ => bool_decide (value = Some 0)))) None [(0, 0)] tt
      = Some ([[0]], tt)
  ∧ accepted (fun value _ => bool_decide (value = Some 0)) [[0]] (0, 0)
  ∧ generateBitmask 10 c [[0]; [0]]
      (Some (purePredicate (fun value _ => bool_decide (value = Some 0)))) None [(0, 0)] tt
      = None.
Proof.
  split; [by vm_compute|]. split; [intros [? ?]; cbn in *; lia|].
  split; [by vm_compute|]. split; [by exists [0]|]. by vm_compute.
Qed.

Lemma C5_witness :
  exists bitmask,
    generateBitmask 10 {| width := 2; height := 1 |} [[0; 0]]
      (Some (purePredicate (fun value _ => bool_decide (value = Some 0)))) None [(0, 0)] tt
      = Some (bitmask, tt)
    ∧ (forall p, cellAt bitmask p = Some 1
         <-> reachable (fun value _ => bool_decide (value = Some 0)) [[0; 0]]
               (seedsOrOrigin [(0, 0)]) p).
Proof.
  destruct (C5_flood_fill_marks_reachable
              (fun value _ => bool_decide (value = Some 0)) [[0; 0]]
              {| width := 2; height := 1 |} [(0, 0)] 10)
    as (bitmask & Hgen & _ & Hmarks & _).
  - split; [reflexivity|]. by repeat constructor.
  - reflexivity.
  - cbn. lia.
  - exists bitmask. done.
Defined.

(** ** The decimal point *)

Lemma elem_of_bitmaskToPixelArray bitmask p :
  p ∈ bitmaskToPixelArray bitmask <-> cellAt bitmask p = Some 1.
Proof.
  unfold bitmaskToPixelArray, cellAt. rewrite list_elem_of_join. split.
  - intros (l & Hp & Hl).
    apply elem_of_lookup_imap in Hl as (y & row & -> & Hrow).
    apply list_elem_of_omap in Hp as (o & Ho & Hid). cbn in Hid. subst o.
    apply elem_of_lookup_imap in Ho as (x & v & Hv & Hcell).
    destruct (v =? 1) eqn:E; [|done]. injection Hv as ->. cbn.
    assert (at_ bitmask (Z.of_nat y) = Some row) as ->
      by (apply at_Some_iff; rewrite Nat2Z.id; split; [lia | done]).
    cbn. apply at_Some_iff. rewrite Nat2Z.id. split; [lia|]. rewrite Hcell.
    f_equal. bool_lia.
  - destruct p as [x y]. cbn.
    destruct (at_ bitmask y) as [row|] eqn:Hrow; [|done]. cbn. intros Hcell.
    apply at_Some_iff in Hrow as [Hy Hrow]. apply at_Some_iff in Hcell as [Hx Hcell].
    eexists. split; [|apply (elem_of_lookup_imap_2 _ _ _ _ Hrow)].
    apply list_elem_of_omap. exists (Some (x, y)). split; [|done].
    apply elem_of_lookup_imap. exists (Z.to_nat x), 1. split; [|done].
    cbn. by rewrite !Z2Nat.id by lia.
Qed.

Lemma nearStart_within6 startX startY p :
  nearStart startX startY p = true <-> within6 startX startY p.
Proof.
  unfold nearStart, within6. rewrite !andb_true_iff, !Z.ltb_lt. lia.
Qed.

(** The decimal-point pixels of a start coordinate: the flood fill over the
    difference grid returns, and the pixels kept are those it reached that
    are strictly within 6 of the start on both axes. *)
Lemma floodFillDecimalPoint_spec fuel st startX startY :
  hasSize (grayArray st) (canvas st) ->
  enoughFuel (canvas st) fuel ->
  exists dpPixels,
    floodFillDecimalPoint fuel st startX startY = Some dpPixels
    ∧ forall p, p ∈ dpPixels
        <-> reachable (aboveDpThreshold st) (grayArray st) [(startX, startY)] p
            ∧ within6 startX startY p.
Proof.
  intros Hsize Hfuel.
  destruct (generateBitmask_pure (aboveDpThreshold st) (grayArray st) (canvas st) fuel
              [(startX, startY)] Hsize ltac:(done) Hfuel)
    as (mask & Hgen & _ & Hmarks & _).
  unfold floodFillDecimalPoint, bitmaskTestFunction. rewrite Hgen. cbn [mbind option_bind].
  eexists. split; [reflexivity|].
  intros p. rewrite list_elem_of_filter, elem_of_bitmaskToPixelArray, Hmarks.
  rewrite nearStart_within6. cbn [seedsOrOrigin]. tauto.
Qed.

Lemma addToSeg_returns c detectable segments index x y :
  length segments = 8%nat -> (index < 7)%nat ->
  exists segments',
    addToSeg c detectable segments index x y = Some segments'
    ∧ length segments' = 8%nat
    ∧ segments' !! 7%nat = segments !! 7%nat.
Proof.
  intros Hlen Hindex. unfold addToSeg.
  destruct (_ && _); [|by exists segments].
  destruct (lookup_lt_is_Some_2 segments index ltac:(lia)) as [segment ->]. cbn.
  eexists. split; [reflexivity|]. split; [by rewrite length_insert|].
  apply list_lookup_insert_ne. lia.
Qed.

(** A loop whose body returns and keeps [P] returns and keeps [P]. *)
Lemma forEachM_preserves {A B} (P : B -> Prop) (body : B -> A -> option B) l :
  (forall b a, P b -> exists b', body b a = Some b' ∧ P b') ->
  forall b, P b -> exists b', forEachM body b l = Some b' ∧ P b'.
Proof.
  intros Hbody. induction l as [|a l IH]; intros b Hb; cbn [forEachM].
  - by exists b.
  - destruct (Hbody b a Hb) as (b1 & -> & Hb1). cbn [mbind option_bind]. by apply IH.
Qed.

(** Sampling around the two holes returns, keeps the 8 sample sets and
    leaves the decimal point's set alone. *)
Lemma sampleUpper_returns c detectable pixels0 segments :
  length segments = 8%nat ->
  exists segments',
    forEachM (sampleUpper c detectable) segments pixels0 = Some segments'
    ∧ length segments' = 8%nat ∧ segments' !! 7%nat = segments !! 7%nat.
Proof.
  intros Hlen.
  apply (forEachM_preserves
           (fun s => length s = 8%nat ∧ s !! 7%nat = segments !! 7%nat));
    [|done].
  intros s [x y] [Hlen0 H0]. unfold sampleUpper.
  destruct (addToSeg_returns c detectable s 0 x (y - horizontalReach) Hlen0 ltac:(lia))
    as (s1 & -> & Hlen1 & H1). cbn [mbind option_bind].
  destruct (addToSeg_returns c detectable s1 5 (x - reach) y Hlen1 ltac:(lia))
    as (s2 & -> & Hlen2 & H2). cbn [mbind option_bind].
  destruct (addToSeg_returns c detectable s2 1 (x + reach) y Hlen2 ltac:(lia))
    as (s3 & -> & Hlen3 & H3). cbn [mbind option_bind].
  destruct (addToSeg_returns c detectable s3 6 x (y + horizontalReach) Hlen3 ltac:(lia))
    as (s4 & -> & Hlen4 & H4).
  exists s4. split; [done|]. split; [done|].
  congruence.
Qed.

Lemma sampleLower_returns c detectable pixels0 segments :
  length segments = 8%nat ->
  exists segments',
    forEachM (sampleLower c detectable) segments pixels0 = Some segments'
    ∧ length segments' = 8%nat ∧ segments' !! 7%nat = segments !! 7%nat.
Proof.
  intros Hlen.
  apply (forEachM_preserves
           (fun s => length s = 8%nat ∧ s !! 7%nat = segments !! 7%nat));
    [|done].
  intros s [x y] [Hlen0 H0]. unfold sampleLower.
  destruct (addToSeg_returns c detectable s 4 (x - reach) y Hlen0 ltac:(lia))
    as (s1 & -> & Hlen1 & H1). cbn [mbind option_bind].
  destruct (addToSeg_returns c detectable s1 2 (x + reach) y Hlen1 ltac:(lia))
    as (s2 & -> & Hlen2 & H2). cbn [mbind option_bind].
  destruct (addToSeg_returns c detectable s2 3 x (y + horizontalReach) Hlen2 ltac:(lia))
    as (s3 & -> & Hlen3 & H3).
  exists s3. split; [done|]. split; [done|].
  congruence.
Qed.

(** The extremes are read off segments 0 to 6: they exist for 8 sample
    sets and do not depend on the decimal point's set. *)
Lemma extremes_returns segments dpPixels :
  length segments = 8%nat ->
  exists maxX maxY,
    extremes segments = Some (maxX, maxY)
    ∧ extremes (assignDecimalPoint segments dpPixels) = Some (maxX, maxY)
    ∧ length (assignDecimalPoint segments dpPixels) = 8%nat
    ∧ assignDecimalPoint segments dpPixels !! 7%nat = Some dpPixels.
Proof.
  intros Hlen.
  destruct segments as [|a [|b [|c [|d [|e [|f [|g [|dp [|]]]]]]]]]; try discriminate.
  unfold extremes, assignDecimalPoint. cbn [length Nat.eqb].
  cbn [seq forEachM lookup list_lookup mbind option_bind insert list_insert].
  destruct (foldl _ _ g) as [maxX maxY]. by exists maxX, maxY.
Qed.

Lemma sort_pair {A} (compare : A -> A -> number) a b :
  sort compare [a; b] = [a; b] ∨ sort compare [a; b] = [b; a].
Proof. unfold sort. cbn. destruct (gt _ _); [by right | by left]. Qed.

(** C7, as the code has it.  For a digit whose group has its two holes and
    whose 8 sample sets exist, locating the digit returns; with maxX and
    maxY the rightmost and bottommost coordinates over the digit's samples
    of segments A to G (both -1 when there is none), the sample set of the
    decimal point (index 7) is then made of exactly those coordinates that
    the flood fill over the difference grid reaches from the seed
    (maxX + 2, maxY + 2) under the predicate value > floodFillDpThreshold
    and that lie strictly within 6 of the seed on both axes, that is at
    most 5 away; when the digit has no sample in segments A to G the set
    is left as it was. *)
Theorem C7_decimal_point_samples fuel detectable st effects digit hole1 hole2 segments0 :
  hasSize (grayArray st) (canvas st) ->
  enoughFuel (canvas st) fuel ->
  segmentSamples st !! digit = Some segments0 ->
  length segments0 = 8%nat ->
  exists st' segments maxX maxY dpPixels,
    locateDigit fuel detectable (st, effects) (digit, [hole1; hole2]) = Some (st', effects)
    ∧ segmentSamples st' !! digit = Some segments
    ∧ extremes segments = Some (maxX, maxY)
    ∧ segments !! 7%nat = Some dpPixels
    ∧ (maxX ≠ -1 -> maxY ≠ -1 ->
       forall p, p ∈ dpPixels
         <-> reachable (aboveDpThreshold st) (grayArray st) [(maxX + 2, maxY + 2)] p
             ∧ maxX + 2 - 6 < p.1 < maxX + 2 + 6
             ∧ maxY + 2 - 6 < p.2 < maxY + 2 + 6)
    ∧ (maxX = -1 ∨ maxY = -1 -> segments0 !! 7%nat = Some dpPixels).
Proof.
  intros Hsize Hfuel Hdigit Hlen.
  unfold locateDigit. cbn [length Nat.eqb negb].
  assert (Hsorted : exists upper lower,
            sort (fun a b => sub (orZero (centerY a)) (orZero (centerY b))) [hole1; hole2]
            = [upper; lower]).
  { destruct (sort_pair (fun a b => sub (orZero (centerY a)) (orZero (centerY b)))
                hole1 hole2) as [-> | ->]; by eexists _, _. }
  destruct Hsorted as (upper & lower & ->).
  rewrite Hdigit. cbn [mbind option_bind].
  destruct (sampleUpper_returns (canvas st) detectable (pixels upper) segments0 Hlen)
    as (s1 & -> & Hlen1 & H1). cbn [mbind option_bind].
  destruct (sampleLower_returns (canvas st) detectable (pixels lower) s1 Hlen1)
    as (s2 & -> & Hlen2 & H2). cbn [mbind option_bind].
  destruct (lookup_lt_is_Some_2 s2 7 ltac:(lia)) as [dp0 Hdp0].
  assert (Hdigit_lt : (digit < length (segmentSamples st))%nat)
    by (eapply lookup_lt_Some; exact Hdigit).
  destruct (extremes_returns s2 [] Hlen2) as (maxX & maxY & He & _).
  rewrite He. cbn [mbind option_bind].
  destruct (negb (maxX =? -1) && negb (maxY =? -1)) eqn:Hfound.
  - destruct (floodFillDecimalPoint_spec fuel st (maxX + 2) (maxY + 2) Hsize Hfuel)
      as (dpPixels & -> & Hdp). cbn [mbind option_bind].
    destruct (extremes_returns s2 dpPixels Hlen2) as (mx & my & He1 & He' & _ & Hseven).
    rewrite He in He1. injection He1 as <- <-.
    eexists _, (assignDecimalPoint s2 dpPixels), maxX, maxY, dpPixels.
    split; [reflexivity|]. cbn [segmentSamples].
    split; [by apply list_lookup_insert_eq|]. split; [done|]. split; [done|].
    split.
    + intros _ _ p. rewrite Hdp. unfold within6. tauto.
    + intros Hnone. apply andb_prop in Hfound as [? ?].
      destruct Hnone; subst; done.
  - cbn [mbind option_bind].
    eexists _, s2, maxX, maxY, dp0.
    split; [reflexivity|]. cbn [segmentSamples].
    split; [by apply list_lookup_insert_eq|]. split; [done|]. split; [done|].
    split.
    + intros HX HY. apply andb_false_iff in Hfound as [Hf|Hf];
        apply negb_false_iff in Hf; bool_lia.
    + intros _. congruence.
Qed.

(** The statement of the specification fails when within 6 includes 6.  Calibrating
    on the synthetic display succeeds; for digit 0 the rightmost and
    bottommost sample coordinates are 14 and 4, so the seed is (16, 6).
    The flood fill from the seed reaches (22, 6), a pixel of the dot that
    is 6 to the right of the seed, but the decimal point's sample set does
    not contain it. *)
Lemma C7_counterexample :
  (st ← calibrateWith litFrame darkFrame;
   segments ← segmentSamples st !! 0%nat;
   dpPixels ← segments !! 7%nat;
   '(mask, _) ← generateBitmask 1200 (canvas st) (grayArray st)
                  (Some (bitmaskTestFunction st)) None [(16, 6)] tt;
   Some (calibrated st, extremes segments, cellAt mask (22, 6),
         bool_decide ((22, 6) ∈ dpPixels), bool_decide ((21, 6) ∈ dpPixels)))
  = Some (true, Some (14, 4), Some 1, false, true).
Proof. vm_compute. reflexivity. Qed.

(** The theorem at digit 0 of the synthetic display, in the state in which
    [determineLocations] locates the digits: the rightmost and bottommost
    sample coordinates are 14 and 4, the flood fill starts from (16, 6), and
    the decimal point's set is made of the 21 coordinates it reaches that
    are strictly within 6 of the seed.  The sample sets are those that the
    calibration of the display ends with for digit 0. *)
Lemma C7_witness :
  exists st' segments dpPixels,
    locateDigit 1200 displayDetectable (measuredDisplay, []) (0%nat, [holeAt 3 2; holeAt 3 4])
      = Some (st', [])
    ∧ segmentSamples st' !! 0%nat = Some segments
    ∧ extremes segments = Some (14, 4)
    ∧ segments !! 7%nat = Some dpPixels
    ∧ (forall p, p ∈ dpPixels
         <-> reachable (aboveDpThreshold measuredDisplay) (grayArray measuredDisplay)
               [(14 + 2, 4 + 2)] p
             ∧ 14 + 2 - 6 < p.1 < 14 + 2 + 6
             ∧ 4 + 2 - 6 < p.2 < 4 + 2 + 6)
    ∧ length dpPixels = 21%nat
    ∧ (segmentSamples <$> calibrateWith litFrame darkFrame) ≫= (.!! 0%nat) = Some segments.
Proof.
  destruct (C7_decimal_point_samples 1200 displayDetectable measuredDisplay [] 0
              (holeAt 3 2) (holeAt 3 4) (replicate 8 []))
    as (st' & segments & maxX & maxY & dpPixels & Hrun & Hseg & Hext & Hseven & Hfill & _).
  - apply hasSize_fillCells.
  - unfold enoughFuel. change (canvas measuredDisplay) with displayCanvas.
    apply Nat.ltb_lt. vm_compute. reflexivity.
  - reflexivity.
  - reflexivity.
  - assert (Hextremes :
      (fun r => segmentSamples r.1 !! 0%nat ≫= extremes)
        <$> locateDigit 1200 displayDetectable (measuredDisplay, [])
              (0%nat, [holeAt 3 2; holeAt 3 4])
      = Some (Some (14, 4))) by (vm_compute; reflexivity).
    rewrite Hrun in Hextremes.
    change (Some (segmentSamples st' !! 0%nat ≫= extremes) = Some (Some (14, 4))) in Hextremes.
    injection Hextremes as Hextremes. rewrite Hseg in Hextremes.
    change (extremes segments = Some (14, 4)) in Hextremes.
    rewrite Hext in Hextremes. injection Hextremes as -> ->.
    assert (Hlength :
      (fun r => length <$> (segmentSamples r.1 !! 0%nat ≫= (.!! 7%nat)))
        <$> locateDigit 1200 displayDetectable (measuredDisplay, [])
              (0%nat, [holeAt 3 2; holeAt 3 4])
      = Some (Some 21%nat)) by (vm_compute; reflexivity).
    rewrite Hrun in Hlength.
    change (Some (length <$> (segmentSamples st' !! 0%nat ≫= (.!! 7%nat))) = Some (Some 21%nat))
      in Hlength.
    injection Hlength as Hlength. rewrite Hseg in Hlength.
    change (length <$> segments !! 7%nat = Some 21%nat) in Hlength.
    rewrite Hseven in Hlength. injection Hlength as Hlength.
    exists st', segments, dpPixels.
    split; [exact Hrun|]. split; [exact Hseg|]. split; [exact Hext|].
    split; [exact Hseven|]. split; [apply Hfill; discriminate|].
    split; [exact Hlength|].
    transitivity (locateDigit 1200 displayDetectable (measuredDisplay, [])
                    (0%nat, [holeAt 3 2; holeAt 3 4])
                  ≫= (fun r => segmentSamples r.1 !! 0%nat)).
    + vm_compute. reflexivity.
    + rewrite Hrun. exact Hseg.
Defined.

(** ** The order of the calibration frames *)

Lemma locateDigit_images fuel detectable images st effects entry :
  locateDigit fuel detectable (withCalibrationImages images st, effects) entry
  = (fun '(st', effects') => (withCalibrationImages images st', effects'))
      <$> locateDigit fuel detectable (st, effects) entry.
Proof.
  unfold locateDigit. destruct entry as [digit group].
  destruct (negb _); [reflexivity|].
  destruct (sort _ group) as [|upper [|lower [|]]]; try reflexivity.
  cbn [segmentSamples canvas withCalibrationImages].
  destruct (segmentSamples st !! digit) as [segments|]; [|reflexivity].
  cbn [mbind option_bind].
  destruct (forEachM _ segments (pixels upper)) as [s1|]; [|reflexivity].
  cbn [mbind option_bind].
  destruct (forEachM _ s1 (pixels lower)) as [s2|]; [|reflexivity].
  cbn [mbind option_bind].
  destruct (extremes s2) as [[maxX maxY]|]; [|reflexivity].
  cbn [mbind option_bind].
  destruct (_ && _); [|reflexivity].
  change (floodFillDecimalPoint fuel (withCalibrationImages images st))
    with (floodFillDecimalPoint fuel st).
  destruct (floodFillDecimalPoint fuel st _ _); reflexivity.
Qed.

Lemma locateDigits_images fuel detectable images entries : forall st effects,
  forEachM (locateDigit fuel detectable) (withCalibrationImages images st, effects) entries
  = (fun '(st', effects') => (withCalibrationImages images st', effects'))
      <$> forEachM (locateDigit fuel detectable) (st, effects) entries.
Proof.
  induction entries as [|entry entries IH]; intros st effects; cbn [forEachM]; [done|].
  rewrite locateDigit_images.
  destruct (locateDigit fuel detectable (st, effects) entry) as [[st1 effects1]|];
    [|reflexivity].
  cbn [fmap option_fmap option_map mbind option_bind]. apply IH.
Qed.

(** Calibration does not read the pending images after it has taken the
    gray values of the two frames. *)
Lemma locate_images fuel images st onGray offGray :
  locate fuel (withCalibrationImages images st) onGray offGray
  = outcomeWithImages images <$> locate fuel st onGray offGray.
Proof.
  unfold locate. cbn [canvas grayThreshold withCalibrationImages].
  destruct (generateBitmask _ _ _ _ _ _ _) as [[backgroundPixels ?]|]; [|reflexivity].
  cbn [mbind option_bind].
  destruct (findHoles _ _ _ _) as [holeComponents|]; [|reflexivity].
  cbn [mbind option_bind].
  destruct (negb _); [reflexivity|].
  destruct (mapM _ _) as [centers|]; [|reflexivity]. cbn [mbind option_bind].
  destruct (kMeans _ _ _ _) as [centers' assignments].
  match goal with
  | |- context [forEachM ?body (?st1, ?e) ?l] =>
      change st1 with (withCalibrationImages images
        {| canvas := canvas st;
           calibrationImages := calibrationImages st;
           lastDisplay := lastDisplay st;
           calibrated := calibrated st;
           showDebugMask := showDebugMask st;
           consistentOutputCount := consistentOutputCount st;
           grayThreshold := grayThreshold st;
           floodFillDpThreshold := floodFillDpThreshold st;
           rotate180 := rotate180 st;
           segmentSamples := segmentSamples st;
           grayArray := fillCells (canvas st) (difference onGray offGray);
           litReference := fillCells (canvas st) onGray;
           unlitReference := fillCells (canvas st) offGray;
           backgroundMask := backgroundPixels |})
  end.
  rewrite locateDigits_images.
  destruct (forEachM _ _ _) as [[st3 effects3]|]; reflexivity.
Qed.

(** Where one frame is strictly brighter than the other, the two orders
    choose the same lit and unlit frame. *)
Lemma getOrderedCalibrationImages_order st a b sumA sumB :
  length (data a) = length (data b) ->
  brightness (Z.of_nat (length (data a))) (data a) = Some sumA ->
  brightness (Z.of_nat (length (data a))) (data b) = Some sumB ->
  sumA ≠ sumB ->
  getOrderedCalibrationImages (withCalibrationImages [b; a] st)
  = getOrderedCalibrationImages (withCalibrationImages [a; b] st).
Proof.
  intros Hlen HA HB Hne. unfold getOrderedCalibrationImages.
  cbn [calibrationImages withCalibrationImages lookup list_lookup].
  rewrite <- Hlen, HA, HB. unfold brighter.
  destruct (sumA <? sumB) eqn:E1, (sumB <? sumA) eqn:E2; try reflexivity; bool_lia.
Qed.

(** Calibration is independent of the order of two frames of different
    summed brightness: the outcomes agree in everything but the order in
    which a successful calibration still holds the two frames. *)
Lemma determineLocations_order fuel st a b sumA sumB :
  length (data a) = length (data b) ->
  brightness (Z.of_nat (length (data a))) (data a) = Some sumA ->
  brightness (Z.of_nat (length (data a))) (data b) = Some sumB ->
  sumA ≠ sumB ->
  determineLocations fuel (withCalibrationImages [b; a] st)
  = outcomeWithImages [b; a] <$> determineLocations fuel (withCalibrationImages [a; b] st).
Proof.
  intros Hlen HA HB Hne. unfold determineLocations.
  rewrite (getOrderedCalibrationImages_order st a b sumA sumB Hlen HA HB Hne).
  cbn [canvas withCalibrationImages].
  assert (Hswap : forall onGray offGray,
            locate fuel (withCalibrationImages [b; a] st) onGray offGray
            = outcomeWithImages [b; a]
                <$> locate fuel (withCalibrationImages [a; b] st) onGray offGray).
  { intros. rewrite !locate_images.
    destruct (locate fuel st onGray offGray) as [[[[] st1] effects1]|]; reflexivity. }
  destruct (getOrderedCalibrationImages _) as [[litImage|] [unlitImage|]];
    try apply Hswap; destruct (_ && _); try reflexivity; apply Hswap.
Qed.

(** C4 fails where the two frames have the same summed brightness.  On the
    synthetic display [litFrame] and [dimFrame] both sum to 97308.  Both
    orders calibrate, with the same sample sets and the same background
    mask, but the reference grids are exchanged: at the outline pixel
    (2, 1), gray 123 in [litFrame] and 0 in [dimFrame], the lit reference
    is 0 after capturing [litFrame] first and 123 after capturing
    [dimFrame] first. *)
Theorem C4_tied_brightness_exchanges_references :
  brightness (Z.of_nat (length (data litFrame))) (data litFrame) = Some 97308
  ∧ brightness (Z.of_nat (length (data litFrame))) (data dimFrame) = Some 97308
  ∧ (a ← calibrateWith litFrame dimFrame;
     b ← calibrateWith dimFrame litFrame;
     Some (calibrated a, calibrated b,
           bool_decide (segmentSamples a = segmentSamples b),
           bool_decide (backgroundMask a = backgroundMask b),
           cellAt (litReference a) (2, 1), cellAt (litReference b) (2, 1),
           cellAt (unlitReference a) (2, 1), cellAt (unlitReference b) (2, 1)))
    = Some (true, true, true, true,
            Some (ofZ 0), Some (ofZ 123), Some (ofZ 123), Some (ofZ 0)).
Proof. split; [|split]; vm_compute; reflexivity. Qed.

(** ** Calibration fails on a wrong hole count *)

Section FloodSound.

Context {T Env : Type}.
Variable testFunction : BitmaskMatchFunction T Env.
Variable testArray : list (list T).
Variable c : Canvas.
Variable Q : Coordinate -> Prop.

Hypothesis testArray_size : hasSize testArray c.
Hypothesis testFunction_inside : forall e row x y e',
  at_ testArray y = Some row ->
  testFunction e (at_ row x) (x, y) testArray = Some (true, e') ->
  0 <= x < width c.
(** Whatever the predicate accepts has the property [Q]. *)
Hypothesis testFunction_accepts : forall e row x y e',
  at_ testArray y = Some row ->
  testFunction e (at_ row x) (x, y) testArray = Some (true, e') ->
  Q (x, y).

(** Then every coordinate that the flood fill marks has it. *)
Notation marksOnly := (bitmapMarksOnly c Q).

Lemma visitDirection_sound x y d (f f' : Flood Env) :
  marksOnly (result f) ->
  visitDirection testFunction testArray x y d f = Some f' ->
  marksOnly (result f').
Proof.
  intros [Hsize Hmarked]. unfold visitDirection.
  generalize (x + d.1) (y + d.2). intros nx ny.
  destruct (at_ testArray ny) as [row|] eqn:Hrow; [|by intros [= <-]].
  destruct (bool_decide _); [by intros [= <-]|].
  destruct (testFunction _ _ _ _) as [[[] env']|] eqn:Htest; [| |done];
    cbn [mbind option_bind]; [|by intros [= <-]].
  assert (Hin : inCanvas c (nx, ny)).
  { split; cbn; [exact (testFunction_inside _ _ _ _ _ Hrow Htest)|].
    by destruct (hasSize_row _ _ _ _ testArray_size Hrow). }
  destruct (assignCell_Some _ c _ _ Hsize Hin) as (result1 & Hassign & Hsize1).
  rewrite Hassign. cbn [mbind option_bind]. intros [= <-]. cbn [result].
  split; [done|]. intros p.
  rewrite (cellAt_assignCell _ c _ _ _ p Hsize Hin Hassign).
  destruct (decide (p = (nx, ny))) as [->|]; [|by apply Hmarked].
  intros _. exact (testFunction_accepts _ _ _ _ _ Hrow Htest).
Qed.

Lemma visitDirections_sound x y ds : forall f f' : Flood Env,
  marksOnly (result f) ->
  visitDirections testFunction testArray x y ds f = Some f' ->
  marksOnly (result f').
Proof.
  induction ds as [|d ds IH]; intros f f' Hf Hrun; cbn [visitDirections] in Hrun.
  - by injection Hrun as <-.
  - destruct (visitDirection _ _ _ _ d f) as [f1|] eqn:Hstep; [|done].
    cbn [mbind option_bind] in Hrun.
    eapply IH; [|exact Hrun]. eapply visitDirection_sound; [exact Hf | exact Hstep].
Qed.

Lemma floodLoop_sound fuel : forall f f' : Flood Env,
  marksOnly (result f) ->
  floodLoop fuel testFunction testArray f = Some f' ->
  marksOnly (result f').
Proof.
  induction fuel as [|fuel IH]; intros [[|[x y] rest] v r e] f' Hf Hrun;
    cbn [floodLoop queue visited result env] in Hrun; try done;
    try (by injection Hrun as <-).
  destruct (visitDirections _ _ x y directions _) as [f1|] eqn:Hvisit; [|done].
  cbn [mbind option_bind] in Hrun.
  eapply IH; [|exact Hrun].
  eapply visitDirections_sound; [|exact Hvisit]. exact Hf.
Qed.

End FloodSound.

Lemma findHoleComponent_pixels fuel c detectable background visited0 start component visited1 :
  hasSize detectable c ->
  findHoleComponent fuel c detectable background visited0 start = Some (component, visited1) ->
  forall p, p ∈ pixels component -> holePixel detectable background p.
Proof.
  intros Hsize. unfold findHoleComponent, generateBitmask. cbn [default].
  destruct (floodLoop _ _ _ _) as [f'|] eqn:Hloop; [|done].
  cbn [mbind option_bind]. intros [= <- _] p. cbn [pixels].
  rewrite elem_of_bitmaskToPixelArray.
  eapply (floodLoop_sound (holeMatchFunction detectable background) detectable c
            (holePixel detectable background) Hsize) in Hloop as [_ Hmarked].
  - apply Hmarked.
  - intros e row x y e' Hrow Htest.
    exact (holeMatchFunction_inside _ _ c _ _ _ _ _ Hsize Hrow Htest).
  - intros e row x y e' Hrow. unfold holeMatchFunction, holePixel, cellAt. cbn [fst snd].
    destruct (bool_decide ((x, y) ∈ e)); [done|].
    rewrite Hrow. cbn [mbind option_bind].
    destruct (bool_decide (at_ row x = Some 0)) eqn:Hcell; [|done].
    apply bool_decide_eq_true in Hcell.
    destruct (at_ background y) as [brow|]; [|done]. cbn [mbind option_bind].
    intros [= Hbg _]. split; [done|]. by apply negb_true_iff.
  - cbn [result]. split; [apply hasSize_createPixelArray|].
    intros q. rewrite cellAt_createPixelArray. by destruct (bool_decide _).
Qed.

(** The components that the scan keeps have more than 10 pixels, all of
    them hole pixels. *)
Lemma findHoles_qualify fuel c detectable background holeComponents :
  hasSize detectable c ->
  findHoles fuel c detectable background = Some holeComponents ->
  Forall (fun component =>
            (10 < length (pixels component))%nat
            ∧ forall p, p ∈ pixels component -> holePixel detectable background p)
         holeComponents.
Proof.
  intros Hsize. unfold findHoles.
  destruct (forEachM _ _ _) as [[visited1 holes]|] eqn:Hscan; [|done].
  cbn [fmap option_fmap option_map snd]. intros [= <-].
  eapply (forEachM_invariant
            (fun acc : gset (Z * Z) * list HoleComponent =>
               Forall (fun component =>
                         (10 < length (pixels component))%nat
                         ∧ forall p, p ∈ pixels component -> holePixel detectable background p)
                      acc.2)) in Hscan; [exact Hscan | | by apply Forall_nil].
  intros [visited0 acc] [x y] [visited2 acc'] Hacc. cbn [snd] in *. unfold scanPixel.
  destruct (at_ detectable y) as [drow|]; [|done]. cbn [mbind option_bind].
  destruct (bool_decide _); [|by intros [= <- <-]].
  destruct (at_ background y) as [brow|]; [|done]. cbn [mbind option_bind].
  destruct (_ && _); [|by intros [= <- <-]].
  destruct (findHoleComponent _ _ _ _ _ _) as [[component visited3]|] eqn:Hfind; [|done].
  cbn [mbind option_bind]. intros [= <- <-].
  destruct (10 <? _) eqn:Hcount; [|done].
  apply Forall_app. split; [done|]. apply Forall_singleton. split; [bool_lia|].
  exact (findHoleComponent_pixels _ _ _ _ _ _ _ _ Hsize Hfind).
Qed.

(** With two calibration frames pending and enough fuel for the flood
    fills, the hole scan returns its list of components (each has more than
    10 pixels, none of them detectable or marked in the background mask);
    when that list does not have exactly 12 entries, [determineLocations]
    and [attemptCalibration] return false, the user is alerted, and the
    reader is left reset: not calibrated, background mask, reference grids
    and difference grid all zero, all 48 sample sets empty, no pending
    image, the worker told to stop. *)
Lemma wrong_scan_count_fails fuel st imageA imageB :
  calibrationImages st = [imageA; imageB] ->
  enoughFuel (canvas st) fuel ->
  exists litImage unlitImage background holeComponents,
    let c := canvas st in
    let detectable :=
      detectablePixels c (grayThreshold st)
        (getPixelGrayValue c litImage) (getPixelGrayValue c unlitImage) in
    getOrderedCalibrationImages st = (Some litImage, Some unlitImage)
    ∧ generateBitmask fuel c detectable (Some (backgroundMatchFunction detectable)) None [] tt
        = Some (background, tt)
    ∧ findHoles fuel c detectable background = Some holeComponents
    ∧ Forall (fun component =>
                (10 < length (pixels component))%nat
                ∧ forall p, p ∈ pixels component -> holePixel detectable background p)
             holeComponents
    ∧ (length holeComponents ≠ 12%nat ->
       exists st',
         determineLocations fuel st
           = Some (false, st', [Alert notEnoughHoles; WorkerPost TimingWorker.readStop])
         ∧ attemptCalibration fuel st
           = Some (false, st', [Alert notEnoughHoles; WorkerPost TimingWorker.readStop])
         ∧ calibrated st' = false
         ∧ backgroundMask st' = createPixelArray c 0
         ∧ litReference st' = createPixelArray c (ofZ 0)
         ∧ unlitReference st' = createPixelArray c (ofZ 0)
         ∧ grayArray st' = createPixelArray c (ofZ 0)
         ∧ segmentSamples st' = replicate 6 (replicate 8 [])
         ∧ calibrationImages st' = []).
Proof.
  intros Himages Hfuel.
  assert (Hordered : exists litImage unlitImage,
            getOrderedCalibrationImages st = (Some litImage, Some unlitImage)).
  { unfold getOrderedCalibrationImages. rewrite Himages. cbn [lookup list_lookup].
    destruct (brighter _ _); by eexists _, _. }
  destruct Hordered as (litImage & unlitImage & Hordered).
  set (c := canvas st).
  set (detectable := detectablePixels c (grayThreshold st)
                       (getPixelGrayValue c litImage) (getPixelGrayValue c unlitImage)).
  pose proof (hasSize_detectablePixels c (grayThreshold st)
                (getPixelGrayValue c litImage) (getPixelGrayValue c unlitImage)) as Hsize.
  fold detectable in Hsize.
  destruct (generateBitmask_returns fuel c detectable (backgroundMatchFunction detectable)
              [] tt Hsize) as (background & [] & Hbackground & Hbsize); try done.
  { intros e row x y Hrow. exact (backgroundMatchFunction_total _ _ _ _ _ Hrow). }
  { intros e row x y e' Hrow Htest.
    exact (backgroundMatchFunction_inside _ c _ _ _ _ _ Hsize Hrow Htest). }
  { cbn. lia. }
  destruct (findHoles_returns fuel c detectable background Hsize Hbsize Hfuel)
    as [holeComponents Hholes].
  exists litImage, unlitImage, background, holeComponents.
  cbn zeta. fold c detectable.
  split; [done|]. split; [done|]. split; [done|].
  split; [exact (findHoles_qualify _ _ _ _ _ Hsize Hholes)|].
  intros Hcount.
  assert (Hlocate : determineLocations fuel st
            = Some (false, (resetCalibration st).1,
                    [Alert notEnoughHoles; WorkerPost TimingWorker.readStop])).
  { unfold determineLocations. rewrite Hordered. unfold locate.
    fold c detectable. rewrite Hbackground. cbn [mbind option_bind].
    rewrite Hholes. cbn [mbind option_bind].
    destruct (length holeComponents =? 12)%nat eqn:E; [bool_lia|]. reflexivity. }
  exists (resetCalibration st).1.
  split; [exact Hlocate|]. split; [|done].
  unfold attemptCalibration. rewrite Hlocate. reflexivity.
Qed.

(** ** A border region that the corner does not reach *)

Lemma cellAt_inCanvas {A} (m : list (list A)) c p v :
  hasSize m c -> cellAt m p = Some v -> inCanvas c p.
Proof.
  intros Hsize Hcell. unfold cellAt in Hcell.
  destruct (at_ m p.2) as [row|] eqn:Hrow; [|done]. cbn in Hcell.
  destruct (hasSize_row _ _ _ _ Hsize Hrow) as [Hy Hlen].
  pose proof (proj1 (at_is_Some _ _) (mk_is_Some _ _ Hcell)). split; [lia | done].
Qed.

Lemma adjacent_near p q :
  adjacent p q -> Z.abs (q.1 - p.1) <= 1 ∧ Z.abs (q.2 - p.2) <= 1.
Proof.
  intros (d & Hd & ->). unfold directions in Hd.
  repeat (apply elem_of_cons in Hd as [->|Hd]; [cbn; lia|]).
  by apply elem_of_nil in Hd.
Qed.

Lemma stripBorderMask_reachable p :
  borderBackground displayCanvas stripDetectable p <-> cellAt stripBorderMask p = Some 1.
Proof.
  destruct (generateBitmask_pure notDetectable stripDetectable displayCanvas 1500
              (borderSeeds displayCanvas))
    as (bitmask & Hgen & _ & Hmarks & _).
  - apply hasSize_detectablePixels.
  - reflexivity.
  - apply Nat.ltb_lt. vm_compute. reflexivity.
  - assert (Hseeds : seedsOrOrigin (borderSeeds displayCanvas) = borderSeeds displayCanvas)
      by (vm_compute; reflexivity).
    rewrite Hseeds in Hmarks.
    assert (Hmask : stripBorderMask = bitmask)
      by exact (f_equal (fun r => default [] (fst <$> r)) Hgen).
    rewrite Hmask. symmetry. apply Hmarks.
Qed.

Lemma forallb_elem_of {A} (f : A -> bool) (l : list A) x :
  forallb f l = true -> x ∈ l -> f x = true.
Proof.
  intros Hall Hx. apply (proj1 (forallb_forall f l) Hall). by apply list_elem_of_In.
Qed.

(** C3 fails where a region of the dark surround touches the border of the
    image and is not connected to the corner (0,0).  [stripFrame] shows 11
    enclosed holes (the upper hole of the last digit is filled) and a lit
    column at [x = 140]; the 40 pixels to the right of the column are not
    detectable and lie on the border, so they are background as the comment
    in [determineLocations] describes it, and the pixels that are neither
    detectable nor reached from the border are exactly those of the 11
    holes, no two of which touch.  But [generateBitmask] is called without
    seeds and floods from (0,0) only: the scan returns the strip as a 12th
    hole component, and calibration returns true and arms the reader. *)
Theorem C3_border_region_counted_as_hole :
  getOrderedCalibrationImages (withCalibrationImages [stripFrame; darkFrame] displayReader)
    = (Some stripFrame, Some darkFrame)
  ∧ ('(background, _) ← generateBitmask 1200 displayCanvas stripDetectable
                          (Some (backgroundMatchFunction stripDetectable)) None [] tt;
     findHoles 1200 displayCanvas stripDetectable background)
    = Some (cutOffStrip :: enclosedHoles)
  ∧ length enclosedHoles = 11%nat
  ∧ Forall (fun p => cellAt stripDetectable p = Some 0
                     ∧ borderBackground displayCanvas stripDetectable p)
           (pixels cutOffStrip)
  ∧ (forall p, cellAt stripDetectable p = Some 0 ->
       (borderBackground displayCanvas stripDetectable p
        <-> p ∉ mjoin (pixels <$> enclosedHoles)))
  ∧ (forall hole1 hole2 p q,
       hole1 ∈ enclosedHoles -> hole2 ∈ enclosedHoles ->
       p ∈ pixels hole1 -> q ∈ pixels hole2 -> adjacent p q -> hole1 = hole2)
  ∧ (r ← attemptCalibration 1200 (withCalibrationImages [stripFrame; darkFrame] displayReader);
     Some (r.1.1, calibrated r.1.2, posted r.2))
    = Some (true, true, [TimingWorker.readStart]).
Proof.
  split; [vm_compute; reflexivity|].
  split; [vm_compute; reflexivity|].
  split; [reflexivity|].
  split; [|split; [|split]].
  - assert (Hcheck : forallb (fun p => bool_decide (cellAt stripDetectable p = Some 0)
                                       && bool_decide (cellAt stripBorderMask p = Some 1))
                             (pixels cutOffStrip) = true) by (vm_compute; reflexivity).
    apply Forall_forall. intros p Hp.
    pose proof (forallb_elem_of _ _ p Hcheck Hp) as Hb. cbv beta in Hb.
    clear Hcheck. apply andb_prop in Hb as [Hd Hm].
    apply bool_decide_eq_true in Hd. apply bool_decide_eq_true in Hm.
    split; [exact Hd|]. apply stripBorderMask_reachable. exact Hm.
  - assert (Hcheck : forallb (fun p => implb (bool_decide (cellAt stripDetectable p = Some 0))
                                         (Bool.eqb (bool_decide (cellAt stripBorderMask p = Some 1))
                                            (negb (bool_decide
                                                     (p ∈ mjoin (pixels <$> enclosedHoles))))))
                             (rowMajor displayCanvas) = true) by (vm_compute; reflexivity).
    intros p Hd.
    assert (Hp : p ∈ rowMajor displayCanvas).
    { destruct p as [x y]. apply elem_of_rowMajor.
      exact (cellAt_inCanvas _ _ _ _ (hasSize_detectablePixels _ _ _ _) Hd). }
    pose proof (forallb_elem_of _ _ p Hcheck Hp) as Hb. cbv beta in Hb.
    clear Hcheck.
    destruct (bool_decide (cellAt stripDetectable p = Some 0)) eqn:Ed;
      [|apply bool_decide_eq_false in Ed; destruct (Ed Hd)].
    destruct (bool_decide (cellAt stripBorderMask p = Some 1)) eqn:Em;
      destruct (bool_decide (p ∈ mjoin (pixels <$> enclosedHoles))) eqn:Eh;
      cbn [implb Bool.eqb negb] in Hb; try discriminate Hb.
    + apply bool_decide_eq_true in Em. apply bool_decide_eq_false in Eh.
      split; [intros _; exact Eh|]. intros _. apply stripBorderMask_reachable. exact Em.
    + apply bool_decide_eq_false in Em. apply bool_decide_eq_true in Eh.
      split; [|intros Hout; destruct (Hout Eh)].
      intros Hm. apply stripBorderMask_reachable in Hm. destruct (Em Hm).
  - assert (Hcheck :
      forallb (fun hole1 =>
        forallb (fun hole2 =>
          bool_decide (pixels hole1 = pixels hole2)
          || forallb (fun p =>
               forallb (fun q => (1 <? Z.abs (q.1 - p.1)) || (1 <? Z.abs (q.2 - p.2)))
                       (pixels hole2))
               (pixels hole1))
          enclosedHoles)
        enclosedHoles = true) by (vm_compute; reflexivity).
    intros hole1 hole2 p q H1 H2 Hp Hq Hadj.
    pose proof (forallb_elem_of _ _ hole1 Hcheck H1) as Hb. cbv beta in Hb.
    pose proof (forallb_elem_of _ _ hole2 Hb H2) as Hb2. cbv beta in Hb2.
    clear Hcheck Hb.
    apply orb_prop in Hb2 as [Hsame|Hapart].
    + apply bool_decide_eq_true in Hsame.
      unfold enclosedHoles in H1, H2.
      apply list_elem_of_fmap in H1 as (s1 & -> & _).
      apply list_elem_of_fmap in H2 as (s2 & -> & _).
      unfold componentOf in *. cbn [pixels] in Hsame. by rewrite Hsame.
    + pose proof (forallb_elem_of _ _ p Hapart Hp) as Hb3. cbv beta in Hb3.
      pose proof (forallb_elem_of _ _ q Hb3 Hq) as Hb4. cbv beta in Hb4.
      apply adjacent_near in Hadj. apply orb_prop in Hb4 as [Hb4|Hb4]; bool_lia.
  - vm_compute; reflexivity.
Qed.

(** * Further properties of the code *)

Import Timers.

(** ** The timing worker *)

Lemma listener_oneTimer m w : oneTimer w -> oneTimer (listener m w).
Proof.
  intros [Hrun Hint]. destruct m; unfold listener, setInterval, clearInterval, oneTimer.
  - destruct (interval w) as [h0|] eqn:E; cbn; split.
    + intros h Hh. apply elem_of_union in Hh as [Hh|Hh].
      * apply elem_of_singleton in Hh. by subst.
      * apply elem_of_difference in Hh as [Hh Hne]. apply Hrun in Hh.
        injection Hh as ->. exfalso. apply Hne. by apply elem_of_singleton.
    + intros h [= <-]. lia.
    + intros h Hh. apply elem_of_union in Hh as [Hh|Hh].
      * apply elem_of_singleton in Hh. by subst.
      * apply Hrun in Hh. congruence.
    + intros h [= <-]. lia.
  - destruct (interval w) as [h0|] eqn:E; cbn; [|by rewrite E].
    split.
    + intros h Hh. apply elem_of_difference in Hh as [Hh Hne]. apply Hrun in Hh.
      injection Hh as ->. exfalso. apply Hne. by apply elem_of_singleton.
    + intros h Hh. apply Hint. congruence.
Qed.

Lemma listener_ticking m w :
  oneTimer w -> ticking (listener m w) = TimingWorker.onMessage m (ticking w).
Proof.
  intros [Hrun Hint]. destruct m; unfold listener, setInterval, clearInterval, ticking; cbn.
  - apply bool_decide_eq_true. destruct (interval w); cbn; set_solver.
  - apply bool_decide_eq_false. intros Hne. apply Hne.
    destruct (interval w) as [h0|] eqn:E; cbn.
    + apply set_eq. intros h. split; [|set_solver].
      intros Hh. apply elem_of_difference in Hh as [Hh Hn]. apply Hrun in Hh.
      injection Hh as ->. exfalso. apply Hn. by apply elem_of_singleton.
    + apply set_eq. intros h. split; [|set_solver]. intros Hh. apply Hrun in Hh. congruence.
Qed.

Lemma receive_listener ms : forall w,
  oneTimer w ->
  oneTimer (receive listener ms w)
  ∧ ticking (receive listener ms w) = armedAfter ms (ticking w).
Proof.
  induction ms as [|m ms IH]; intros w Hw; [done|].
  destruct (IH (listener m w) (listener_oneTimer m w Hw)) as [H1 H2].
  unfold receive, armedAfter in *. cbn [foldl].
  split; [done|]. rewrite H2. f_equal. by apply listener_ticking.
Qed.

Lemma oneTimer_size w : oneTimer w -> (size (running w) <= 1)%nat.
Proof.
  intros [Hrun _]. destruct (interval w) as [h|] eqn:E.
  - assert (running w ⊆ {[h]}) as Hsub.
    { intros h' Hh'. apply Hrun in Hh'. apply elem_of_singleton. congruence. }
    apply subseteq_size in Hsub. by rewrite size_singleton in Hsub.
  - assert (running w = ∅) as ->.
    { apply set_eq. intros h. split; [|set_solver]. intros Hh. apply Hrun in Hh. congruence. }
    rewrite size_empty. lia.
Qed.

(** X13.  Whatever messages the worker that clears before it starts has
    received, at most one timer is live, it is the one whose handle
    [interval] holds, and a timer is live exactly when the last message was
    [readStart].  A [readStop] leaves no timer, a [readStart] exactly the new
    one. *)
Theorem X13_worker_single_timer (ms : list TimingWorker.Message) :
  let w := receive listener ms initial in
  (size (running w) <= 1)%nat
  ∧ (forall h, h ∈ running w -> interval w = Some h)
  ∧ ticking w = armedAfter ms false
  ∧ running (listener TimingWorker.readStop w) = ∅
  ∧ running (listener TimingWorker.readStart w) = {[ S (issued w) ]}.
Proof.
  intros w.
  assert (Hinit : oneTimer initial) by (split; [set_solver | done]).
  destruct (receive_listener ms initial Hinit) as [Hw Ht]. fold w in Hw, Ht.
  split; [by apply oneTimer_size|]. split; [apply Hw|]. split; [exact Ht|].
  split.
  - pose proof (listener_ticking TimingWorker.readStop w Hw) as H. cbn in H.
    unfold ticking in H. apply bool_decide_eq_false in H.
    destruct (decide (running (listener TimingWorker.readStop w) = ∅)); [done|]. by destruct H.
  - destruct Hw as [Hrun _]. unfold listener, setInterval, clearInterval.
    destruct (interval w) as [h0|] eqn:E; cbn.
    + apply set_eq. intros h. split; [|set_solver]. intros Hh.
      apply elem_of_union in Hh as [Hh|Hh]; [done|].
      apply elem_of_difference in Hh as [Hh Hn]. apply Hrun in Hh.
      injection Hh as ->. exfalso. apply Hn. by apply elem_of_singleton.
    + apply set_eq. intros h. split; [|set_solver]. intros Hh.
      apply elem_of_union in Hh as [Hh|Hh]; [done|]. apply Hrun in Hh. congruence.
Qed.

Lemma X13_witness :
  let ms := [TimingWorker.readStart; TimingWorker.readStart; TimingWorker.readStop;
             TimingWorker.readStart] in
  (size (running (receive listener ms initial)) <= 1)%nat
  ∧ ticking (receive listener ms initial) = true.
Proof.
  intros ms. destruct (X13_worker_single_timer ms) as (Hsize & _ & Hticking & _).
  split; [exact Hsize | exact Hticking].
Defined.

Lemma listenerWithoutClear_leaked h m w :
  leaked h w -> leaked h (listenerWithoutClear m w).
Proof.
  intros (Hh & h' & Hint & Hlt & Hle). destruct m; unfold listenerWithoutClear, setInterval, clearInterval.
  - split; cbn; [set_solver|]. exists (S (issued w)). split; [done|]. lia.
  - rewrite Hint. split; cbn.
    + apply elem_of_difference. split; [done|]. intros Heq. apply elem_of_singleton in Heq. lia.
    + exists h'. done.
Qed.

Lemma receive_leaked h ms : forall w,
  leaked h w -> leaked h (receive listenerWithoutClear ms w).
Proof.
  induction ms as [|m ms IH]; intros w Hw; [done|].
  apply (IH (listenerWithoutClear m w)). by apply listenerWithoutClear_leaked.
Qed.

(** X14.  The worker that starts a timer without clearing the one it
    holds loses a timer when two [readStart] arrive without a [readStop]
    between them: the first of the two timers is no longer the one
    [interval] holds, and whatever messages follow, [readStop] among them, it
    stays live and the worker keeps posting. *)
Theorem X14_worker_without_clear_leaks (before after : list TimingWorker.Message) :
  let w := receive listenerWithoutClear (before ++ [TimingWorker.readStart; TimingWorker.readStart]) initial in
  let w' := receive listenerWithoutClear after w in
  exists h, interval w ≠ Some h ∧ h ∈ running w' ∧ ticking w' = true
    ∧ ticking (listenerWithoutClear TimingWorker.readStop w') = true.
Proof.
  intros w w'.
  set (w0 := receive listenerWithoutClear before initial).
  assert (Hw : w = setInterval (setInterval w0)).
  { unfold w, receive. rewrite foldl_app. reflexivity. }
  exists (S (issued w0)).
  assert (Hleak : leaked (S (issued w0)) w).
  { rewrite Hw. unfold setInterval, leaked. cbn. split; [set_solver|].
    eexists. split; [done|]. lia. }
  split.
  { rewrite Hw. cbn. intros [=]. lia. }
  pose proof (receive_leaked _ after w Hleak) as Hleak'. fold w' in Hleak'.
  split; [apply Hleak'|].
  split.
  - apply bool_decide_eq_true. destruct Hleak' as [Hin _]. set_solver.
  - apply bool_decide_eq_true.
    destruct (listenerWithoutClear_leaked _ TimingWorker.readStop w' Hleak') as [Hin _]. set_solver.
Qed.

(** ** The messages that the reader posts to the worker *)

Lemma armedAfter_app ms1 ms2 a :
  armedAfter (ms1 ++ ms2) a = armedAfter ms2 (armedAfter ms1 a).
Proof. unfold armedAfter. apply foldl_app. Qed.

Lemma posted_app e1 e2 : posted (e1 ++ e2) = posted e1 ++ posted e2.
Proof. unfold posted. apply omap_app. Qed.

Lemma locateDigit_posts fuel detectable st effects entry st' effects' :
  locateDigit fuel detectable (st, effects) entry = Some (st', effects') ->
  posted effects' = posted effects ∧ calibrated st' = calibrated st.
Proof.
  unfold locateDigit. destruct entry as [digit group].
  destruct (negb _).
  - intros [= <- <-]. rewrite posted_app. cbn. by rewrite app_nil_r.
  - intros H. repeat (case_match; simplify_option_eq); done.
Qed.

Lemma locate_posts fuel st onGray offGray success st' effects :
  locate fuel st onGray offGray = Some (success, st', effects) ->
  (success = true ∧ posted effects = [] ∧ calibrated st' = calibrated st)
  ∨ (success = false
     ∧ effects = [Alert notEnoughHoles; WorkerPost TimingWorker.readStop]
     ∧ calibrated st' = false).
Proof.
  unfold locate. intros H.
  destruct (generateBitmask _ _ _ _ _ _ _) as [[backgroundPixels ?]|]; [|done].
  cbn [mbind option_bind] in H.
  destruct (findHoles _ _ _ _) as [holeComponents|]; [|done].
  cbn [mbind option_bind] in H.
  destruct (negb _).
  - right. cbn in H. by injection H as <- <- <-.
  - destruct (mapM _ _) as [centers|]; [|done]. cbn [mbind option_bind] in H.
    destruct (kMeans _ _ _ _) as [centers' assignments].
    match type of H with
    | context [forEachM ?body ?b ?l] =>
        pose proof (forEachM_invariant
          (fun acc : Reader * list Effect =>
             posted acc.2 = [] ∧ calibrated acc.1 = calibrated st)
          body l) as Hinv;
        destruct (forEachM body b l) as [[st3 effects3]|] eqn:Hrun; [|done]
    end.
    cbn in H. injection H as <- <- <-. left. split; [done|].
    eapply Hinv in Hrun; [exact Hrun | | done].
    intros [st1 e1] entry [st2 e2] [Hp Hc] Hstep. cbn [fst snd] in *.
    apply locateDigit_posts in Hstep as [-> ->]. done.
Qed.

Lemma determineLocations_posts fuel st success st' effects :
  determineLocations fuel st = Some (success, st', effects) ->
  (success = true ∧ posted effects = [] ∧ calibrated st' = calibrated st)
  ∨ (success = false
     ∧ effects = [Alert notEnoughHoles; WorkerPost TimingWorker.readStop]
     ∧ calibrated st' = false).
Proof.
  unfold determineLocations. intros H.
  repeat case_match; try done; eapply locate_posts, H.
Qed.

Lemma attemptCalibration_posts fuel st success st' effects :
  attemptCalibration fuel st = Some (success, st', effects) ->
  armedAfter (posted effects) (calibrated st) = calibrated st'
  ∧ calibrated st' = success.
Proof.
  unfold attemptCalibration. intros H.
  destruct (determineLocations fuel st) as [[[ok st1] e1]|] eqn:Hd; [|done].
  apply determineLocations_posts in Hd as [(-> & Hp & Hc)|(-> & -> & Hc)];
    cbn in H; injection H as <- <- <-; cbn.
  - rewrite posted_app, Hp. done.
  - done.
Qed.

Lemma track_posts value st :
  posted (track value st).2 = [] ∧ calibrated (track value st).1 = calibrated st.
Proof. unfold track. destruct (bool_decide _); [destruct (_ =? _)|]; done. Qed.

Lemma readDisplays_posts frame st st' effects :
  readDisplays frame st = Some (st', effects) ->
  posted effects = [] ∧ calibrated st' = calibrated st.
Proof.
  unfold readDisplays. destruct (decodeDisplays _ _) as [r|]; [|done].
  cbn. intros [= H]. pose proof (track_posts r st) as Ht. rewrite H in Ht. exact Ht.
Qed.

Lemma call_posts fuel c st st' effects :
  call fuel c st = Some (st', effects) ->
  armedAfter (posted effects) (calibrated st) = calibrated st'.
Proof.
  intros H. destruct c as [auto frame| | |frame|frame]; cbn [call] in H.
  - unfold captureCalibrationImage in H.
    destruct (length (calibrationImages st) =? 2)%nat.
    { by injection H as <- <-. }
    destruct (length (calibrationImages st) <? 2)%nat; [|by injection H as <- <-].
    destruct (_ && _).
    + destruct (attemptCalibration _ _) as [[[ok st1] e1]|] eqn:Ha; [|done].
      cbn in H. injection H as <- <-.
      by apply attemptCalibration_posts in Ha as [Ha _].
    + by injection H as <- <-.
  - destruct (attemptCalibration _ _) as [[[ok st1] e1]|] eqn:Ha; [|done].
    cbn in H. injection H as <- <-.
    by apply attemptCalibration_posts in Ha as [Ha _].
  - by injection H as <- <-.
  - apply readDisplays_posts in H as [-> ->]. done.
  - destruct (refine _ _) as [st1|] eqn:Hr; [|done]. cbn in H. injection H as <- <-.
    unfold refine in Hr. destruct (forEachM _ _ _); [|done]. cbn in Hr.
    by injection Hr as <-.
Qed.

Lemma handle_posts fuel ev st st' effects :
  handle fuel ev st = Some (st', effects) ->
  armedAfter (posted effects) (calibrated st) = calibrated st'.
Proof.
  destruct ev as [c|frame]; cbn [handle].
  - apply call_posts.
  - unfold onWorkerMessage. destruct (calibrated st) eqn:Hc.
    + intros H. apply readDisplays_posts in H as [-> ->]. done.
    + by intros [= <- <-].
Qed.

Lemma handles_posts fuel evs : forall st st' effects,
  handles fuel evs st = Some (st', effects) ->
  armedAfter (posted effects) (calibrated st) = calibrated st'.
Proof.
  induction evs as [|ev evs IH]; intros st st' effects H; cbn [handles] in H.
  - by injection H as <- <-.
  - destruct (handle fuel ev st) as [[st1 e1]|] eqn:Hc; [|done]. cbn in H.
    destruct (handles fuel evs st1) as [[st2 e2]|] eqn:Hcs; [|done]. cbn in H.
    injection H as <- <-.
    rewrite posted_app, armedAfter_app.
    apply handle_posts in Hc. rewrite Hc. by apply IH.
Qed.

(** X12.  Let the worker receive the messages that the reader posted
    during any calls of its methods and messages of the worker since its
    construction.  The worker's timer runs exactly when the reader is
    calibrated, and the worker holds at most one timer. *)
Theorem X12_timer_runs_iff_calibrated fuel evs canvas0 configuration st effects :
  handles fuel evs (constructor canvas0 configuration) = Some (st, effects) ->
  let w := receive listener (posted effects) initial in
  ticking w = calibrated st
  ∧ (size (running w) <= 1)%nat.
Proof.
  intros H w.
  assert (Hinit : oneTimer initial) by (split; [set_solver | done]).
  destruct (receive_listener (posted effects) initial Hinit) as [Hw Ht]. fold w in Hw, Ht.
  split; [|by apply oneTimer_size].
  rewrite Ht. apply handles_posts in H. exact H.
Qed.

Lemma X12_witness :
  exists st effects,
    handles 3 [Called (CaptureCalibrationImage true (grayFrame [255]));
               Called (CaptureCalibrationImage true (grayFrame [0]));
               Ticked (grayFrame [0])]
      (constructor {| width := 1; height := 1 |} Cfg.constructor) = Some (st, effects)
    ∧ ticking (receive listener (posted effects) initial) = calibrated st.
Proof.
  destruct (handles 3 [Called (CaptureCalibrationImage true (grayFrame [255]));
               Called (CaptureCalibrationImage true (grayFrame [0]));
               Ticked (grayFrame [0])]
      (constructor {| width := 1; height := 1 |} Cfg.constructor))
    as [[st effects]|] eqn:Hrun; [|by vm_compute in Hrun].
  exists st, effects. split; [reflexivity|].
  exact (proj1 (X12_timer_runs_iff_calibrated 3 _ _ _ st effects Hrun)).
Defined.

(** ** Well-formed readers *)

Lemma samplesFit_empty c : samplesFit c emptySegmentSamples.
Proof.
  split; [done|]. split.
  - by repeat constructor.
  - by repeat constructor.
Qed.

Lemma addToSeg_inCanvas c detectable segments index x y segments' :
  addToSeg c detectable segments index x y = Some segments' ->
  Forall (Forall (inCanvas c)) segments ->
  Forall (Forall (inCanvas c)) segments'.
Proof.
  unfold addToSeg. destruct (_ && _) eqn:Hcond; [|by intros [= <-]].
  destruct (segments !! index) as [segment|] eqn:Hseg; [|done]. cbn.
  intros [= <-] Hall. apply Forall_insert; [done|].
  apply Forall_app. split; [by eapply Forall_lookup_1|].
  apply Forall_singleton.
  repeat (apply andb_prop in Hcond as [Hcond ?]). split; cbn; bool_lia.
Qed.

Lemma sampleUpper_inCanvas c detectable pixels0 segments segments' :
  forEachM (sampleUpper c detectable) segments pixels0 = Some segments' ->
  Forall (Forall (inCanvas c)) segments ->
  Forall (Forall (inCanvas c)) segments'.
Proof.
  intros Hrun Hall.
  eapply (forEachM_invariant (Forall (Forall (inCanvas c)))); [|exact Hall|exact Hrun].
  intros s [x y] s' Hs. unfold sampleUpper. intros H.
  repeat match type of H with
  | (mbind _ (addToSeg ?c ?d ?s ?i ?x ?y)) = _ =>
      let E := fresh in
      destruct (addToSeg c d s i x y) eqn:E; [|done];
      apply addToSeg_inCanvas in E; [|assumption]; cbn [mbind option_bind] in H
  end.
  by eapply addToSeg_inCanvas.
Qed.

Lemma sampleLower_inCanvas c detectable pixels0 segments segments' :
  forEachM (sampleLower c detectable) segments pixels0 = Some segments' ->
  Forall (Forall (inCanvas c)) segments ->
  Forall (Forall (inCanvas c)) segments'.
Proof.
  intros Hrun Hall.
  eapply (forEachM_invariant (Forall (Forall (inCanvas c)))); [|exact Hall|exact Hrun].
  intros s [x y] s' Hs. unfold sampleLower. intros H.
  repeat match type of H with
  | (mbind _ (addToSeg ?c ?d ?s ?i ?x ?y)) = _ =>
      let E := fresh in
      destruct (addToSeg c d s i x y) eqn:E; [|done];
      apply addToSeg_inCanvas in E; [|assumption]; cbn [mbind option_bind] in H
  end.
  by eapply addToSeg_inCanvas.
Qed.

Lemma reachable_accepted {T} (include : option T -> Coordinate -> bool) testArray seeds p :
  reachable include testArray seeds p -> accepted include testArray p.
Proof. by destruct 1. Qed.

Lemma floodFillDecimalPoint_inCanvas fuel st startX startY dpPixels :
  hasSize (grayArray st) (canvas st) ->
  floodFillDecimalPoint fuel st startX startY = Some dpPixels ->
  Forall (inCanvas (canvas st)) dpPixels.
Proof.
  intros Hsize. unfold floodFillDecimalPoint, generateBitmask. cbn [default].
  destruct (floodLoop _ _ _ _) as [f'|] eqn:Hloop; [|done].
  cbn [mbind option_bind]. intros [= <-].
  apply Forall_forall. intros p Hp.
  apply list_elem_of_filter in Hp as [_ Hp].
  apply elem_of_bitmaskToPixelArray in Hp.
  destruct (floodLoop_marks (aboveDpThreshold st) (grayArray st) (canvas st)
              [(startX, startY)] Hsize ltac:(done) fuel _ f' eq_refl Hloop)
    as (_ & Hmarks & _).
  apply Hmarks, reachable_accepted in Hp.
  exact (accepted_inCanvas (aboveDpThreshold st) (grayArray st) (canvas st) Hsize
           (fun _ => eq_refl) p Hp).
Qed.

Lemma sameFrame_refl st : sameFrame st st.
Proof. by repeat split. Qed.

Lemma sameFrame_trans st1 st2 st3 : sameFrame st1 st2 -> sameFrame st2 st3 -> sameFrame st1 st3.
Proof. unfold sameFrame. intros ? ?. repeat split; intuition congruence. Qed.

Lemma samplesFit_insert c samples digit segments :
  samplesFit c samples -> length segments = 8%nat ->
  Forall (Forall (inCanvas c)) segments ->
  samplesFit c (<[digit := segments]> samples).
Proof.
  intros (Hlen & Height & Hin) Hs Hi. split; [by rewrite length_insert|].
  split; by apply Forall_insert.
Qed.

Lemma assignDecimalPoint_eight segments dpPixels :
  length segments = 8%nat -> assignDecimalPoint segments dpPixels = <[7%nat := dpPixels]> segments.
Proof. intros Hlen. unfold assignDecimalPoint. by rewrite Hlen. Qed.

Lemma locateDigit_keeps fuel detectable st effects entry st' effects' :
  samplesFit (canvas st) (segmentSamples st) ->
  hasSize (grayArray st) (canvas st) ->
  locateDigit fuel detectable (st, effects) entry = Some (st', effects') ->
  samplesFit (canvas st') (segmentSamples st') ∧ sameFrame st st'.
Proof.
  intros Hfit Hgray. unfold locateDigit. destruct entry as [digit group].
  destruct (negb _); [intros [= <- <-]; split; [done | apply sameFrame_refl]|].
  destruct (sort _ group) as [|upper [|lower [|]]]; try done.
  destruct (segmentSamples st !! digit) as [segments|] eqn:Hdigit; [|done].
  cbn [mbind option_bind].
  assert (Hlen : length segments = 8%nat).
  { destruct Hfit as (_ & Height & _). by eapply Forall_lookup_1 in Height. }
  assert (Hin : Forall (Forall (inCanvas (canvas st))) segments).
  { destruct Hfit as (_ & _ & Hall). by eapply Forall_lookup_1 in Hall. }
  destruct (sampleUpper_returns (canvas st) detectable (pixels upper) segments Hlen)
    as (s1 & Hs1 & Hlen1 & _). rewrite Hs1. cbn [mbind option_bind].
  apply sampleUpper_inCanvas in Hs1; [|done].
  destruct (sampleLower_returns (canvas st) detectable (pixels lower) s1 Hlen1)
    as (s2 & Hs2 & Hlen2 & _). rewrite Hs2. cbn [mbind option_bind].
  apply sampleLower_inCanvas in Hs2; [|done].
  destruct (extremes s2) as [[maxX maxY]|]; [|done]. cbn [mbind option_bind].
  destruct (_ && _).
  - destruct (floodFillDecimalPoint fuel st _ _) as [dpPixels|] eqn:Hdp; [|done].
    cbn [mbind option_bind]. intros [= <- <-]. cbn [canvas segmentSamples].
    split; [|by repeat split].
    apply samplesFit_insert; [done | |].
    + rewrite assignDecimalPoint_eight by done. by rewrite length_insert.
    + rewrite assignDecimalPoint_eight by done. apply Forall_insert; [done|].
      by eapply floodFillDecimalPoint_inCanvas.
  - cbn [mbind option_bind]. intros [= <- <-]. cbn [canvas segmentSamples].
    split; [|by repeat split]. by apply samplesFit_insert.
Qed.

Lemma locateDigits_keeps fuel detectable entries : forall st effects st' effects',
  samplesFit (canvas st) (segmentSamples st) ->
  hasSize (grayArray st) (canvas st) ->
  forEachM (locateDigit fuel detectable) (st, effects) entries = Some (st', effects') ->
  samplesFit (canvas st') (segmentSamples st') ∧ sameFrame st st'.
Proof.
  induction entries as [|entry entries IH]; intros st effects st' effects' Hfit Hgray;
    cbn [forEachM].
  - intros [= <- <-]. split; [done | apply sameFrame_refl].
  - destruct (locateDigit _ _ _ _) as [[st1 e1]|] eqn:Hstep; [|done].
    cbn [mbind option_bind]. intros Hrun.
    destruct (locateDigit_keeps _ _ _ _ _ _ _ Hfit Hgray Hstep) as [Hfit1 Hsame1].
    assert (Hgray1 : hasSize (grayArray st1) (canvas st1)).
    { destruct Hsame1 as (-> & _ & _ & _ & _ & -> & _). done. }
    destruct (IH _ _ _ _ Hfit1 Hgray1 Hrun) as [Hfit2 Hsame2].
    split; [done|]. by eapply sameFrame_trans.
Qed.

Lemma wellFormed_resetCalibration st : wellFormed (resetCalibration st).1.
Proof.
  split; cbn; try apply hasSize_createPixelArray; [apply samplesFit_empty | lia | done].
Qed.

Lemma wellFormed_constructor canvas0 configuration :
  wellFormed (constructor canvas0 configuration).
Proof.
  split; cbn; try apply hasSize_createPixelArray; [apply samplesFit_empty | lia | done].
Qed.

Lemma generateBitmask_hasSize {T Env} `{Truthy T} fuel c (testArray : list (list T))
    (testFunction : BitmaskMatchFunction T Env) seed env0 bitmask env1 :
  hasSize testArray c ->
  (forall e row x y e', at_ testArray y = Some row ->
     testFunction e (at_ row x) (x, y) testArray = Some (true, e') -> 0 <= x < width c) ->
  generateBitmask fuel c testArray (Some testFunction) None seed env0 = Some (bitmask, env1) ->
  hasSize bitmask c.
Proof.
  intros Hsize Hinside. unfold generateBitmask. cbn [default].
  destruct (floodLoop _ _ _ _) as [f'|] eqn:Hloop; [|done].
  cbn [mbind option_bind]. intros [= <- _].
  eapply (floodLoop_sound testFunction testArray c (fun _ => True) Hsize Hinside) in Hloop
    as [Hs _]; [done | done |].
  split; [apply hasSize_createPixelArray | done].
Qed.

(** Calibration keeps the reader well formed, and leaves it holding two
    pending images when it succeeds. *)
Lemma locate_wellFormed fuel st onGray offGray success st' effects :
  samplesFit (canvas st) (segmentSamples st) ->
  locate fuel st onGray offGray = Some (success, st', effects) ->
  canvas st' = canvas st
  ∧ samplesFit (canvas st') (segmentSamples st')
  ∧ hasSize (grayArray st') (canvas st')
  ∧ hasSize (litReference st') (canvas st')
  ∧ hasSize (unlitReference st') (canvas st')
  ∧ hasSize (backgroundMask st') (canvas st')
  ∧ (success = true -> calibrationImages st' = calibrationImages st).
Proof.
  intros Hfit. unfold locate.
  pose proof (hasSize_detectablePixels (canvas st) (grayThreshold st) onGray offGray) as Hdet.
  destruct (generateBitmask _ _ _ _ _ _ _) as [[backgroundPixels ?]|] eqn:Hbg; [|done].
  cbn [mbind option_bind].
  apply generateBitmask_hasSize in Hbg; [|done|].
  2:{ intros e row x y e' Hrow Htest.
      exact (backgroundMatchFunction_inside _ _ _ _ _ _ _ Hdet Hrow Htest). }
  destruct (findHoles _ _ _ _) as [holeComponents|]; [|done].
  cbn [mbind option_bind].
  destruct (negb _).
  - cbn. intros [= <- <- <-]. cbn.
    split; [done|]. split; [apply samplesFit_empty|].
    repeat (split; [apply hasSize_createPixelArray|]). done.
  - destruct (mapM _ _) as [centers|]; [|done]. cbn [mbind option_bind].
    destruct (kMeans _ _ _ _) as [centers' assignments].
    destruct (forEachM _ _ _) as [[st3 effects3]|] eqn:Hrun; [|done].
    cbn. intros [= <- <- <-].
    apply locateDigits_keeps in Hrun as [Hfit3 Hsame]; cbn; [| done | apply hasSize_fillCells].
    destruct Hsame as (Hc & Hi & _ & _ & _ & Hg & Hl & Hu & Hb). cbn in *.
    rewrite Hc in *. rewrite Hg, Hl, Hu, Hb.
    split; [done|]. split; [done|].
    repeat (split; [apply hasSize_fillCells|]). done.
Qed.

Lemma rowMajor_empty c : ¬ (0 < height c ∧ 0 < width c) -> rowMajor c = [].
Proof.
  intros Hc. destruct (rowMajor c) as [|[x y] l] eqn:E; [done|].
  assert (Hin : (x, y) ∈ rowMajor c) by (rewrite E; left).
  apply elem_of_rowMajor in Hin as [? ?]. cbn in *. lia.
Qed.

(** A calibration that succeeds has found 12 holes. *)
Lemma locate_success fuel st onGray offGray st' effects :
  locate fuel st onGray offGray = Some (true, st', effects) ->
  exists background holeComponents,
    findHoles fuel (canvas st)
      (detectablePixels (canvas st) (grayThreshold st) onGray offGray) background
      = Some holeComponents
    ∧ length holeComponents = 12%nat.
Proof.
  unfold locate.
  destruct (generateBitmask _ _ _ _ _ _ _) as [[backgroundPixels ?]|]; [|done].
  cbn [mbind option_bind].
  destruct (findHoles _ _ _ _) as [holeComponents|] eqn:Hholes; [|done].
  cbn [mbind option_bind].
  destruct (length holeComponents =? 12)%nat eqn:E; [|done].
  intros _. exists backgroundPixels, holeComponents. split; [done | bool_lia].
Qed.

Lemma determineLocations_wellFormed fuel st success st' effects :
  wellFormed st ->
  determineLocations fuel st = Some (success, st', effects) ->
  canvas st' = canvas st
  ∧ samplesFit (canvas st') (segmentSamples st')
  ∧ hasSize (grayArray st') (canvas st')
  ∧ hasSize (litReference st') (canvas st')
  ∧ hasSize (unlitReference st') (canvas st')
  ∧ hasSize (backgroundMask st') (canvas st')
  ∧ (success = true ->
     calibrationImages st' = calibrationImages st ∧ length (calibrationImages st) = 2%nat).
Proof.
  intros Hwf. unfold determineLocations.
  assert (Hgeneral : forall onGray offGray,
            locate fuel st onGray offGray = Some (success, st', effects) ->
            canvas st' = canvas st
            ∧ samplesFit (canvas st') (segmentSamples st')
            ∧ hasSize (grayArray st') (canvas st')
            ∧ hasSize (litReference st') (canvas st')
            ∧ hasSize (unlitReference st') (canvas st')
            ∧ hasSize (backgroundMask st') (canvas st')
            ∧ (success = true -> calibrationImages st' = calibrationImages st)).
  { intros onGray offGray. apply locate_wellFormed, Hwf. }
  assert (Hempty : forall onGray offGray,
            (0 <? height (canvas st)) && (0 <? width (canvas st)) = false ->
            locate fuel st onGray offGray = Some (success, st', effects) ->
            success = false).
  { intros onGray offGray Hc Hrun. destruct success; [|done].
    apply locate_success in Hrun as (bg & holes & Hholes & Hlen).
    unfold findHoles in Hholes. rewrite rowMajor_empty in Hholes.
    - cbn in Hholes. injection Hholes as <-. done.
    - intros [? ?]. apply andb_false_iff in Hc as [Hc|Hc]; bool_lia. }
  destruct (getOrderedCalibrationImages st) as [[litImage|] [unlitImage|]] eqn:Hord.
  - intros Hrun. destruct (Hgeneral _ _ Hrun) as (? & ? & ? & ? & ? & ? & Himages).
    repeat (split; [done|]). intros Hs. split; [by apply Himages|].
    pose proof (wf_images st Hwf) as Hle.
    unfold getOrderedCalibrationImages in Hord.
    destruct (calibrationImages st) as [|a [|b [|]]]; cbn in *; try done; lia.
  - destruct (_ && _) eqn:Hc; [done|]. intros Hrun.
    destruct (Hgeneral _ _ Hrun) as (? & ? & ? & ? & ? & ? & Himages).
    repeat (split; [done|]). intros ->. by discriminate (Hempty _ _ eq_refl Hrun).
  - destruct (_ && _) eqn:Hc; [done|]. intros Hrun.
    destruct (Hgeneral _ _ Hrun) as (? & ? & ? & ? & ? & ? & Himages).
    repeat (split; [done|]). intros ->. by discriminate (Hempty _ _ eq_refl Hrun).
  - destruct (_ && _) eqn:Hc; [done|]. intros Hrun.
    destruct (Hgeneral _ _ Hrun) as (? & ? & ? & ? & ? & ? & Himages).
    repeat (split; [done|]). intros ->. by discriminate (Hempty _ _ eq_refl Hrun).
Qed.

Lemma attemptCalibration_wellFormed fuel st success st' effects :
  wellFormed st ->
  attemptCalibration fuel st = Some (success, st', effects) ->
  wellFormed st' ∧ canvas st' = canvas st.
Proof.
  intros Hwf. unfold attemptCalibration.
  destruct (determineLocations fuel st) as [[[ok st1] e1]|] eqn:Hd; [|done].
  pose proof (determineLocations_calibrationImages _ _ _ _ _ Hd) as Himg.
  pose proof (determineLocations_posts _ _ _ _ _ Hd) as Hposts.
  apply determineLocations_wellFormed in Hd as (Hc & ? & ? & ? & ? & ? & Hs); [|done].
  pose proof (wf_images st Hwf).
  assert (Hlen1 : (length (calibrationImages st1) <= 2)%nat)
    by (destruct Himg as [-> | ->]; cbn; lia).
  cbn. destruct ok; intros [= <- <- <-]; (split; [|done]); split; cbn; try done.
  - intros _. destruct (Hs eq_refl) as [-> ?]. done.
  - destruct Hposts as [(? & _)|(_ & _ & ->)]; done.
Qed.

Lemma wellFormed_pushCalibrationImage frame st :
  wellFormed st -> (length (calibrationImages st) < 2)%nat -> calibrated st = false ->
  wellFormed (pushCalibrationImage frame st).
Proof.
  intros [] Hlen Hcal. split; cbn; try done.
  - rewrite length_app. cbn. lia.
  - congruence.
Qed.

(** ** The refiner on the whole reader *)

Lemma refineSegment_sublist lit pixels0 : refineSegment lit pixels0 `sublist_of` pixels0.
Proof.
  destruct (refineSegment_cases lit pixels0) as [(_ & ->)|[(_ & _ & ->)|(_ & _ & ->)]];
    [apply sublist_filter | apply sublist_filter | done].
Qed.

Lemma refineDigit_eight lit digitSegments :
  length digitSegments = 8%nat ->
  refineDigit lit digitSegments = Some (refineSegment lit <$> digitSegments).
Proof.
  intros Hlen.
  destruct digitSegments as [|a [|b [|c [|d [|e [|f [|g [|dp [|]]]]]]]]]; try discriminate.
  reflexivity.
Qed.

Lemma refine_samples frame st :
  length (segmentSamples st) = 6%nat ->
  Forall (fun digitSegments => length digitSegments = 8%nat) (segmentSamples st) ->
  exists st',
    refine frame st = Some st'
    ∧ segmentSamples st'
      = fmap (M := list) (fmap (M := list)
          (refineSegment (sampleLit st frame (estimateAmbientOffset st frame))))
          (segmentSamples st)
    ∧ sameFrame st st'.
Proof.
  intros Hlen Height. unfold refine.
  set (lit := sampleLit st frame (estimateAmbientOffset st frame)).
  destruct (segmentSamples st) as [|d0 [|d1 [|d2 [|d3 [|d4 [|d5 [|]]]]]]]; try discriminate.
  repeat match goal with
         | H : Forall _ (_ :: _) |- _ => apply Forall_cons in H as [? H]
         end.
  cbn [seq forEachM lookup list_lookup mbind option_bind insert list_insert].
  rewrite !refineDigit_eight by done.
  cbn [seq forEachM lookup list_lookup mbind option_bind insert list_insert].
  rewrite !refineDigit_eight by done.
  cbn [seq forEachM lookup list_lookup mbind option_bind insert list_insert].
  rewrite !refineDigit_eight by done.
  cbn [seq forEachM lookup list_lookup mbind option_bind insert list_insert].
  rewrite !refineDigit_eight by done.
  cbn [seq forEachM lookup list_lookup mbind option_bind insert list_insert].
  rewrite !refineDigit_eight by done.
  cbn [seq forEachM lookup list_lookup mbind option_bind insert list_insert].
  rewrite !refineDigit_eight by done.
  cbn [seq forEachM lookup list_lookup mbind option_bind insert list_insert].
  eexists. split; [reflexivity|]. split; [reflexivity|]. by repeat split.
Qed.

Lemma samplesFit_refine c lit samples :
  samplesFit c samples ->
  samplesFit c (fmap (M := list) (fmap (M := list) (refineSegment lit)) samples).
Proof.
  intros (Hlen & Height & Hin). split; [by rewrite length_fmap|]. split.
  - apply Forall_fmap. eapply Forall_impl; [exact Height|].
    intros d Hd. cbn. by rewrite length_fmap.
  - apply Forall_fmap. eapply Forall_impl; [exact Hin|].
    intros d Hd. cbn. apply Forall_fmap. eapply Forall_impl; [exact Hd|].
    intros l Hl. cbn. apply Forall_forall. intros p Hp.
    eapply Forall_forall; [exact Hl|].
    eapply sublist_subseteq; [apply refineSegment_sublist | exact Hp].
Qed.

Lemma wellFormed_track value st : wellFormed st -> wellFormed (track value st).1.
Proof.
  intros []. unfold track. destruct (bool_decide _); split; done.
Qed.

Lemma call_wellFormed fuel c st st' effects :
  wellFormed st ->
  call fuel c st = Some (st', effects) ->
  wellFormed st' ∧ canvas st' = canvas st.
Proof.
  intros Hwf H. destruct c as [auto frame| | |frame|frame]; cbn [call] in H.
  - unfold captureCalibrationImage in H.
    destruct (length (calibrationImages st) =? 2)%nat eqn:E2.
    { injection H as <- _. split; [|done].
      apply (wellFormed_pushCalibrationImage frame (resetCalibration st).1);
        [apply wellFormed_resetCalibration | cbn; lia | done]. }
    destruct (length (calibrationImages st) <? 2)%nat eqn:E1; [|by injection H as <- _].
    assert (Hpush : wellFormed (pushCalibrationImage frame st)).
    { apply wellFormed_pushCalibrationImage; [done | bool_lia |].
      destruct (calibrated st) eqn:Hc; [|done].
      apply (wf_calibrated st Hwf) in Hc. bool_lia. }
    destruct (_ && _).
    + destruct (attemptCalibration _ _) as [[[ok st1] e1]|] eqn:Ha; [|done].
      cbn in H. injection H as <- _.
      by apply attemptCalibration_wellFormed in Ha.
    + by injection H as <- _.
  - destruct (attemptCalibration _ _) as [[[ok st1] e1]|] eqn:Ha; [|done].
    cbn in H. injection H as <- _.
    by apply attemptCalibration_wellFormed in Ha.
  - injection H as <- _. split; [apply wellFormed_resetCalibration | done].
  - unfold readDisplays in H. destruct (decodeDisplays _ _) as [r|]; [|done].
    cbn in H. injection H as H.
    pose proof (wellFormed_track r st Hwf) as Ht. rewrite H in Ht.
    split; [done|]. replace st' with (track r st).1 by (by rewrite H).
    unfold track. by destruct (bool_decide _).
  - destruct (refine _ _) as [st1|] eqn:Hr; [|done]. cbn in H. injection H as <- _.
    destruct Hwf as [(Hlen & Height & Hin) ? ? ? ? ? ?].
    destruct (refine_samples frame st Hlen Height) as (st2 & Hr2 & Hs & Hsame).
    rewrite Hr in Hr2. injection Hr2 as <-.
    destruct Hsame as (Hc & Hi & _ & Hcal & _ & Hg & Hl & Hu & Hb).
    split; [|done]. split; rewrite ?Hc, ?Hg, ?Hl, ?Hu, ?Hb, ?Hi, ?Hcal; try done.
    rewrite Hs. by apply samplesFit_refine.
Qed.

Lemma handle_wellFormed fuel ev st st' effects :
  wellFormed st ->
  handle fuel ev st = Some (st', effects) ->
  wellFormed st' ∧ canvas st' = canvas st.
Proof.
  intros Hwf. destruct ev as [c|frame]; cbn [handle].
  - by apply call_wellFormed.
  - unfold onWorkerMessage. destruct (calibrated st).
    + apply (call_wellFormed fuel (ReadDisplays frame)), Hwf.
    + by intros [= <- _].
Qed.

Lemma handles_wellFormed fuel evs : forall st st' effects,
  wellFormed st ->
  handles fuel evs st = Some (st', effects) ->
  wellFormed st' ∧ canvas st' = canvas st.
Proof.
  induction evs as [|ev evs IH]; intros st st' effects Hwf H; cbn [handles] in H.
  - by injection H as <- _.
  - destruct (handle fuel ev st) as [[st1 e1]|] eqn:Hc; [|done]. cbn in H.
    destruct (handles fuel evs st1) as [[st2 e2]|] eqn:Hcs; [|done]. cbn in H.
    injection H as <- _.
    apply handle_wellFormed in Hc as [Hwf1 Hc1]; [|done].
    apply IH in Hcs as [Hwf2 Hc2]; [|done]. split; [done | congruence].
Qed.

(** ** No call throws on a well-formed reader *)

Lemma insertSorted_Permutation {A} (compare : A -> A -> number) x l :
  insertSorted compare x l ≡ₚ x :: l.
Proof.
  induction l as [|y l IH]; cbn; [done|].
  destruct (gt _ _); [done|]. rewrite IH. apply Permutation_swap.
Qed.

Lemma sort_Permutation {A} (compare : A -> A -> number) l : sort compare l ≡ₚ l.
Proof.
  unfold sort.
  assert (Hgen : forall sorted, foldl (fun sorted x => insertSorted compare x sorted) sorted l
                                ≡ₚ sorted ++ l).
  { induction l as [|x l IH]; intros sorted; cbn; [by rewrite app_nil_r|].
    rewrite IH, insertSorted_Permutation. cbn. apply Permutation_middle. }
  apply Hgen.
Qed.

Lemma length_sort {A} (compare : A -> A -> number) l : length (sort compare l) = length l.
Proof. apply Permutation_length, sort_Permutation. Qed.

Lemma length_groupHoles holeComponents assignments :
  length (groupHoles holeComponents assignments) = k.
Proof.
  unfold groupHoles. generalize (zip assignments holeComponents). intros l.
  assert (Hgen : forall groups : list (list HoleComponent),
            length (foldl (fun groups '(ki, component) =>
                             alter (fun group => group ++ [component]) ki groups) groups l)
            = length groups).
  { induction l as [|[ki component] l IH]; intros groups; cbn; [done|].
    rewrite IH. apply length_alter. }
  rewrite Hgen. apply length_replicate.
Qed.

Lemma forEachM_preserves_in {A B} (P : B -> Prop) (body : B -> A -> option B) l :
  (forall b a, a ∈ l -> P b -> exists b', body b a = Some b' ∧ P b') ->
  forall b, P b -> exists b', forEachM body b l = Some b' ∧ P b'.
Proof.
  induction l as [|a l IH]; intros Hbody b Hb; cbn [forEachM].
  - by exists b.
  - destruct (Hbody b a ltac:(left) Hb) as (b1 & -> & Hb1). cbn [mbind option_bind].
    apply IH; [|done]. intros b' a' Ha'. apply Hbody. by right.
Qed.

Lemma locateDigit_returns fuel detectable st effects digit group :
  samplesFit (canvas st) (segmentSamples st) ->
  hasSize (grayArray st) (canvas st) ->
  enoughFuel (canvas st) fuel ->
  (digit < 6)%nat ->
  is_Some (locateDigit fuel detectable (st, effects) (digit, group)).
Proof.
  intros Hfit Hgray Hfuel Hdigit. unfold locateDigit.
  destruct (negb _) eqn:Hgroup; [done|].
  apply negb_false_iff in Hgroup.
  pose proof (length_sort (fun a b => sub (orZero (centerY a)) (orZero (centerY b))) group)
    as Hsorted.
  destruct (sort _ group) as [|upper [|lower [|]]]; cbn in Hsorted; try bool_lia.
  destruct Hfit as (Hlen & Height & _).
  destruct (lookup_lt_is_Some_2 (segmentSamples st) digit ltac:(lia)) as [segments Hsegments].
  rewrite Hsegments. cbn [mbind option_bind].
  assert (Hlen0 : length segments = 8%nat) by (by eapply Forall_lookup_1 in Height).
  destruct (sampleUpper_returns (canvas st) detectable (pixels upper) segments Hlen0)
    as (s1 & -> & Hlen1 & _). cbn [mbind option_bind].
  destruct (sampleLower_returns (canvas st) detectable (pixels lower) s1 Hlen1)
    as (s2 & -> & Hlen2 & _). cbn [mbind option_bind].
  destruct (extremes_returns s2 [] Hlen2) as (maxX & maxY & -> & _).
  cbn [mbind option_bind].
  destruct (_ && _); [|done].
  destruct (floodFillDecimalPoint_spec fuel st (maxX + 2) (maxY + 2) Hgray Hfuel)
    as (dpPixels & -> & _).
  done.
Qed.

Lemma locateDigits_returns fuel detectable entries st effects :
  samplesFit (canvas st) (segmentSamples st) ->
  hasSize (grayArray st) (canvas st) ->
  enoughFuel (canvas st) fuel ->
  Forall (fun entry : nat * list HoleComponent => (entry.1 < 6)%nat) entries ->
  is_Some (forEachM (locateDigit fuel detectable) (st, effects) entries).
Proof.
  intros Hfit Hgray Hfuel Hentries.
  destruct (forEachM_preserves_in
              (fun acc : Reader * list Effect =>
                 samplesFit (canvas acc.1) (segmentSamples acc.1)
                 ∧ hasSize (grayArray acc.1) (canvas acc.1)
                 ∧ canvas acc.1 = canvas st)
              (locateDigit fuel detectable) entries) with (b := (st, effects))
    as (acc & -> & _); [|done|done].
  intros [st1 e1] [digit group] Hin (Hfit1 & Hgray1 & Hc1). cbn [fst snd] in *.
  eapply Forall_forall in Hentries; [|exact Hin]. cbn in Hentries.
  destruct (locateDigit_returns fuel detectable st1 e1 digit group Hfit1 Hgray1
              ltac:(by rewrite Hc1) Hentries) as [[st2 e2] Hstep].
  exists (st2, e2). split; [done|].
  destruct (locateDigit_keeps _ _ _ _ _ _ _ Hfit1 Hgray1 Hstep)
    as [Hfit2 (Hc & _ & _ & _ & _ & Hg & _)].
  cbn [fst]. split; [done|]. split; [by rewrite Hg, Hc | congruence].
Qed.

(** Calibration from the gray values on returns, and succeeds exactly when
    the scan has found 12 holes. *)
Lemma locate_returns fuel st onGray offGray :
  samplesFit (canvas st) (segmentSamples st) ->
  enoughFuel (canvas st) fuel ->
  exists background holeComponents st' effects,
    let detectable := detectablePixels (canvas st) (grayThreshold st) onGray offGray in
    generateBitmask fuel (canvas st) detectable
      (Some (backgroundMatchFunction detectable)) None [] tt = Some (background, tt)
    ∧ findHoles fuel (canvas st) detectable background = Some holeComponents
    ∧ locate fuel st onGray offGray
      = Some (bool_decide (length holeComponents = 12%nat), st', effects).
Proof.
  intros Hfit Hfuel. unfold locate.
  set (c := canvas st).
  set (detectable := detectablePixels c (grayThreshold st) onGray offGray).
  pose proof (hasSize_detectablePixels c (grayThreshold st) onGray offGray) as Hsize.
  fold detectable in Hsize.
  destruct (generateBitmask_returns fuel c detectable (backgroundMatchFunction detectable)
              [] tt Hsize) as (background & [] & Hbackground & Hbsize); try done.
  { intros e row x y Hrow. exact (backgroundMatchFunction_total _ _ _ _ _ Hrow). }
  { intros e row x y e' Hrow Htest.
    exact (backgroundMatchFunction_inside _ c _ _ _ _ _ Hsize Hrow Htest). }
  { cbn. lia. }
  destruct (findHoles_returns fuel c detectable background Hsize Hbsize Hfuel)
    as [holeComponents Hholes].
  exists background, holeComponents. cbn zeta.
  rewrite Hbackground. cbn [mbind option_bind]. rewrite Hholes. cbn [mbind option_bind].
  destruct (length holeComponents =? 12)%nat eqn:Hcount.
  - apply Nat.eqb_eq in Hcount. rewrite bool_decide_eq_true_2 by done. cbn [negb].
    set (measured := sort (fun a b => sub (orZero (centerX a)) (orZero (centerX b)))
                       (measureHole <$> holeComponents)).
    assert (Hmeasured : length measured = 12%nat)
      by (unfold measured; rewrite length_sort, length_fmap; done).
    destruct (mapM_is_Some_2
                (fun index => centerX <$> measured !! (index * length (measureHole <$> holeComponents) / k)%nat)
                (seq 0 k)) as [centers Hcenters].
    { apply Forall_forall. intros index Hindex. apply elem_of_seq in Hindex. unfold compose.
      apply fmap_is_Some, lookup_lt_is_Some_2.
      rewrite length_fmap, Hcount, Hmeasured.
      apply Nat.Div0.div_lt_upper_bound. unfold k in *. lia. }
    rewrite Hcenters. cbn [mbind option_bind].
    destruct (kMeans _ _ _ _) as [centers' assignments].
    match goal with
    | |- context [forEachM (locateDigit fuel detectable) (?st1, []) ?entries] =>
        destruct (locateDigits_returns fuel detectable entries st1 []) as [[st3 effects3] ->]
    end; cbn [canvas segmentSamples grayArray]; try done.
    + apply hasSize_fillCells.
    + apply Forall_forall. intros entry Hentry.
      apply elem_of_lookup_imap in Hentry as (digit & groupObject & -> & Hlookup).
      cbn. apply lookup_lt_Some in Hlookup.
      rewrite length_sort, length_imap, length_groupHoles in Hlookup. exact Hlookup.
    + cbn. by eexists _, _.
  - apply Nat.eqb_neq in Hcount. rewrite bool_decide_eq_false_2 by done. cbn [negb].
    by eexists _, _.
Qed.

Lemma decodeDigit_returns lit digitSegments :
  length digitSegments = 8%nat -> is_Some (decodeDigit lit digitSegments).
Proof.
  intros Hlen.
  destruct digitSegments as [|a [|b [|c [|d [|e [|f [|g [|dp [|]]]]]]]]]; try discriminate.
  rewrite decodeDigit_eight. done.
Qed.

Lemma decodeDisplays_returns st frame :
  length (segmentSamples st) = 6%nat ->
  Forall (fun digitSegments => length digitSegments = 8%nat) (segmentSamples st) ->
  is_Some (decodeDisplays st frame).
Proof.
  intros Hlen Height. unfold decodeDisplays.
  match goal with
  | |- context [forEachM ?body ?b0 ?l] =>
      assert (Hbody : forall b a, a ∈ l -> is_Some (body b a));
        [|destruct (forEachM_returns body l Hbody b0) as [text ->]; done]
  end.
  intros text digit Hdigit. apply elem_of_seq in Hdigit.
  destruct (lookup_lt_is_Some_2 (segmentSamples st) digit ltac:(lia)) as [ds Hds].
  rewrite Hds. cbn [mbind option_bind].
  destruct (decodeDigit_returns (sampleLit st frame (estimateAmbientOffset st frame)) ds)
    as [decoded ->]; [|done].
  by eapply Forall_lookup_1 in Height.
Qed.

Lemma getOrderedCalibrationImages_two st :
  length (calibrationImages st) = 2%nat ->
  exists litImage unlitImage,
    getOrderedCalibrationImages st = (Some litImage, Some unlitImage)
    ∧ (calibrationImages st = [litImage; unlitImage]
       ∨ calibrationImages st = [unlitImage; litImage]).
Proof.
  intros Hlen. unfold getOrderedCalibrationImages.
  destruct (calibrationImages st) as [|a [|b [|]]]; try discriminate.
  cbn [lookup list_lookup]. destruct (brighter _ _); eexists _, _; eauto.
Qed.

Lemma getOrderedCalibrationImages_fewer st :
  (length (calibrationImages st) < 2)%nat ->
  exists litImage, getOrderedCalibrationImages st = (litImage, None).
Proof.
  intros Hlen. unfold getOrderedCalibrationImages.
  destruct (calibrationImages st) as [|a [|b ?]]; cbn in *; [by eexists | by eexists | lia].
Qed.

Lemma attemptCalibration_fewer fuel st :
  (length (calibrationImages st) < 2)%nat ->
  0 < height (canvas st) -> 0 < width (canvas st) ->
  attemptCalibration fuel st = None.
Proof.
  intros Hlen Hh Hw. unfold attemptCalibration, determineLocations.
  destruct (getOrderedCalibrationImages_fewer st Hlen) as [litImage ->].
  destruct (0 <? height (canvas st)) eqn:E1; [|bool_lia].
  destruct (0 <? width (canvas st)) eqn:E2; [|bool_lia].
  by destruct litImage.
Qed.

(** With its two frames pending, calibration returns; it succeeds exactly
    when the scan finds 12 holes. *)
Lemma attemptCalibration_returns fuel st :
  samplesFit (canvas st) (segmentSamples st) ->
  length (calibrationImages st) = 2%nat ->
  enoughFuel (canvas st) fuel ->
  exists litImage unlitImage background holeComponents st' effects,
    let c := canvas st in
    let detectable :=
      detectablePixels c (grayThreshold st)
        (getPixelGrayValue c litImage) (getPixelGrayValue c unlitImage) in
    getOrderedCalibrationImages st = (Some litImage, Some unlitImage)
    ∧ generateBitmask fuel c detectable (Some (backgroundMatchFunction detectable)) None [] tt
        = Some (background, tt)
    ∧ findHoles fuel c detectable background = Some holeComponents
    ∧ attemptCalibration fuel st
        = Some (bool_decide (length holeComponents = 12%nat), st', effects).
Proof.
  intros Hfit Hlen Hfuel.
  destruct (getOrderedCalibrationImages_two st Hlen) as (litImage & unlitImage & Hord & _).
  destruct (locate_returns fuel st (getPixelGrayValue (canvas st) litImage)
              (getPixelGrayValue (canvas st) unlitImage) Hfit Hfuel)
    as (background & holeComponents & st1 & e1 & Hbg & Hholes & Hlocate).
  cbn zeta in Hbg, Hholes.
  unfold attemptCalibration, determineLocations. rewrite Hord, Hlocate.
  cbn [mbind option_bind].
  destruct (bool_decide (length holeComponents = 12%nat)) eqn:Hcount;
    eexists litImage, unlitImage, background, holeComponents, _, _; cbn zeta;
    rewrite Hcount; done.
Qed.

Lemma cellAt_fillCells {A} c (cell : Z -> Z -> A) p :
  inCanvas c p -> cellAt (fillCells c cell) p = Some (cell p.1 p.2).
Proof.
  destruct p as [x y]. intros [Hx Hy]. cbn in Hx, Hy. unfold cellAt, fillCells. cbn [fst snd].
  assert (Hrow : at_ ((fun y => (fun x => cell x y) <$> seqZ 0 (width c)) <$> seqZ 0 (height c)) y
                 = Some ((fun x => cell x y) <$> seqZ 0 (width c))).
  { apply at_Some_iff. split; [lia|]. rewrite list_lookup_fmap.
    rewrite (proj2 (lookup_seqZ 0 (height c) (Z.to_nat y) y)); [done|]. lia. }
  rewrite Hrow. cbn [mbind option_bind].
  apply at_Some_iff. split; [lia|]. rewrite list_lookup_fmap.
  rewrite (proj2 (lookup_seqZ 0 (width c) (Z.to_nat x) x)); [done|]. lia.
Qed.

(** What a successful calibration leaves in the reader. *)
Lemma locate_success_frame fuel st onGray offGray st' effects :
  samplesFit (canvas st) (segmentSamples st) ->
  locate fuel st onGray offGray = Some (true, st', effects) ->
  let detectable := detectablePixels (canvas st) (grayThreshold st) onGray offGray in
  generateBitmask fuel (canvas st) detectable
    (Some (backgroundMatchFunction detectable)) None [] tt = Some (backgroundMask st', tt)
  ∧ grayArray st' = fillCells (canvas st) (difference onGray offGray)
  ∧ litReference st' = fillCells (canvas st) onGray
  ∧ unlitReference st' = fillCells (canvas st) offGray
  ∧ calibrationImages st' = calibrationImages st
  ∧ calibrated st' = calibrated st
  ∧ lastDisplay st' = lastDisplay st
  ∧ consistentOutputCount st' = consistentOutputCount st.
Proof.
  intros Hfit. unfold locate. cbn zeta.
  destruct (generateBitmask _ _ _ _ _ _ _) as [[backgroundPixels []]|] eqn:Hbg; [|done].
  cbn [mbind option_bind].
  destruct (findHoles _ _ _ _) as [holeComponents|]; [|done].
  cbn [mbind option_bind].
  destruct (negb _); [done|].
  destruct (mapM _ _) as [centers|]; [|done]. cbn [mbind option_bind].
  destruct (kMeans _ _ _ _) as [centers' assignments].
  destruct (forEachM _ _ _) as [[st3 effects3]|] eqn:Hrun; [|done].
  cbn. intros [= <- <-].
  apply locateDigits_keeps in Hrun as [_ Hsame]; cbn; [| done | apply hasSize_fillCells].
  destruct Hsame as (_ & Hi & Hl & Hcal & Hn & Hg & Hlit & Hu & Hb). cbn in *.
  rewrite Hb, Hg, Hlit, Hu, Hi, Hcal, Hl, Hn. done.
Qed.

(** ** The states that a reader reaches *)

(** X1.  Every state that a reader reaches from its construction, by
    calls of its methods and messages of the worker that return, is well
    formed: it has six digits of eight sample sets each, every sample pixel
    is inside the canvas, the four grids have the canvas's size, at most two
    calibration images are held, and exactly two while the reader is
    calibrated.  The canvas is the one the reader was constructed with. *)
Theorem X1_reachable_states_well_formed fuel evs canvas0 configuration st effects :
  handles fuel evs (constructor canvas0 configuration) = Some (st, effects) ->
  wellFormed st ∧ canvas st = canvas0.
Proof.
  intros H. eapply handles_wellFormed in H; [exact H|]. apply wellFormed_constructor.
Qed.

Lemma X1_witness :
  let st0 := constructor {| width := 1; height := 1 |} Cfg.constructor in
  exists st effects,
    handles 3 [Called (CaptureCalibrationImage true (grayFrame [255]));
               Called (CaptureCalibrationImage true (grayFrame [0]));
               Ticked (grayFrame [0]);
               Called (Refine (grayFrame [0]))] st0 = Some (st, effects)
    ∧ wellFormed st ∧ canvas st = {| width := 1; height := 1 |}.
Proof.
  intros st0.
  destruct (handles 3 [Called (CaptureCalibrationImage true (grayFrame [255]));
               Called (CaptureCalibrationImage true (grayFrame [0]));
               Ticked (grayFrame [0]);
               Called (Refine (grayFrame [0]))] st0) as [[st effects]|] eqn:Hrun;
    [|by vm_compute in Hrun].
  exists st, effects. split; [reflexivity|].
  exact (X1_reachable_states_well_formed 3 _ _ _ st effects Hrun).
Defined.

(** X2.  On a well-formed reader, and with fuel for the flood fills,
    [captureCalibrationImage], [readDisplays], [refine] and the listener of
    the worker's messages return: none of them reads a property of
    [undefined] ([readDisplays] up to the debug overlay that it draws last
    when that is switched on).  [attemptCalibration] returns when two
    calibration images are held; with fewer, on a canvas that has a pixel,
    it throws (the gray value of a pixel is read from an image that is
    [undefined]). *)
Theorem X2_well_formed_calls_return fuel st :
  wellFormed st ->
  enoughFuel (canvas st) fuel ->
  (forall autoAttemptCalibration frame,
     is_Some (captureCalibrationImage fuel autoAttemptCalibration frame st))
  ∧ (forall frame, is_Some (readDisplays frame st))
  ∧ (forall frame, is_Some (refine frame st))
  ∧ (forall frame, is_Some (onWorkerMessage frame st))
  ∧ (length (calibrationImages st) = 2%nat -> is_Some (attemptCalibration fuel st))
  ∧ ((length (calibrationImages st) < 2)%nat ->
     0 < height (canvas st) -> 0 < width (canvas st) ->
     attemptCalibration fuel st = None).
Proof.
  intros Hwf Hfuel.
  assert (Hread : forall frame, is_Some (readDisplays frame st)).
  { intros frame. unfold readDisplays.
    destruct Hwf as [(Hlen & Height & _) _ _ _ _ _ _].
    destruct (decodeDisplays_returns st frame Hlen Height) as [text ->]. done. }
  assert (Hattempt : forall st1, wellFormed st1 -> canvas st1 = canvas st ->
            length (calibrationImages st1) = 2%nat ->
            is_Some (attemptCalibration fuel st1)).
  { intros st1 Hwf1 Hc Hlen.
    destruct (attemptCalibration_returns fuel st1 (wf_samples st1 Hwf1) Hlen
                ltac:(by rewrite Hc))
      as (? & ? & ? & ? & ? & ? & _ & _ & _ & ->). done. }
  split; [|split; [|split; [|split; [|split]]]].
  - intros auto frame. unfold captureCalibrationImage.
    destruct (length (calibrationImages st) =? 2)%nat eqn:E2; [done|].
    destruct (length (calibrationImages st) <? 2)%nat eqn:E1; [|done].
    destruct (_ && _) eqn:Hauto; [|done].
    apply andb_prop in Hauto as [Hlen _]. apply Nat.eqb_eq in Hlen.
    destruct (Hattempt (pushCalibrationImage frame st)) as [[[ok st2] e2] ->]; try done.
    apply wellFormed_pushCalibrationImage; [done | bool_lia |].
    destruct (calibrated st) eqn:Hc; [|done].
    apply (wf_calibrated st Hwf) in Hc. bool_lia.
  - exact Hread.
  - intros frame. destruct Hwf as [(Hlen & Height & _) _ _ _ _ _ _].
    destruct (refine_samples frame st Hlen Height) as (st' & -> & _). done.
  - intros frame. unfold onWorkerMessage. destruct (calibrated st); [apply Hread | done].
  - intros Hlen. by apply Hattempt.
  - apply attemptCalibration_fewer.
Qed.

Lemma X2_witness :
  let st := constructor {| width := 1; height := 1 |} Cfg.constructor in
  is_Some (readDisplays (grayFrame [0]) st)
  ∧ is_Some (captureCalibrationImage 3 true (grayFrame [0]) st)
  ∧ attemptCalibration 3 st = None.
Proof.
  intros st.
  destruct (X2_well_formed_calls_return 3 st (wellFormed_constructor _ _)
              ltac:(unfold enoughFuel; cbn; lia))
    as (Hcapture & Hread & _ & _ & _ & Hfewer).
  split; [apply Hread|]. split; [apply Hcapture|].
  apply Hfewer; cbn; lia.
Defined.

(** ** The samples that calibration adds *)

Lemma appendedTo_refl P segments : appendedTo P segments segments.
Proof. intros i l Hi Hl. exists []. by rewrite app_nil_r. Qed.

Lemma appendedTo_trans P s0 s1 s2 :
  appendedTo P s0 s1 -> appendedTo P s1 s2 -> appendedTo P s0 s2.
Proof.
  intros H01 H12 i l Hi Hl.
  destruct (H01 i l Hi Hl) as (a1 & Hl1 & Ha1).
  destruct (H12 i _ Hi Hl1) as (a2 & Hl2 & Ha2).
  exists (a1 ++ a2). rewrite app_assoc. split; [done|]. by apply Forall_app.
Qed.

Lemma addToSeg_appendedTo c detectable segments index x y segments' :
  addToSeg c detectable segments index x y = Some segments' ->
  appendedTo (sampled c detectable) segments segments'.
Proof.
  unfold addToSeg. destruct (_ && _) eqn:Hcond; [|intros [= <-]; apply appendedTo_refl].
  destruct (segments !! index) as [segment|] eqn:Hseg; [|done]. cbn.
  intros [= <-] i l Hi Hl.
  destruct (decide (i = index)) as [->|Hne].
  - exists [(x, y)]. rewrite Hseg in Hl. injection Hl as <-. split.
    + apply list_lookup_insert_eq. by eapply lookup_lt_Some.
    + apply Forall_singleton.
      repeat (apply andb_prop in Hcond as [Hcond ?]).
      split; [split; cbn; bool_lia|].
      match goal with H : bool_decide _ = true |- _ => apply bool_decide_eq_true in H; exact H end.
  - exists []. rewrite app_nil_r. split; [|done].
    rewrite list_lookup_insert_ne by done. done.
Qed.

Lemma sampleUpper_appendedTo c detectable pixels0 segments segments' :
  forEachM (sampleUpper c detectable) segments pixels0 = Some segments' ->
  appendedTo (sampled c detectable) segments segments'.
Proof.
  intros Hrun.
  eapply (forEachM_invariant (appendedTo (sampled c detectable) segments));
    [|apply appendedTo_refl|exact Hrun].
  intros s [x y] s' Hs. unfold sampleUpper. intros H.
  repeat match type of H with
  | (mbind _ (addToSeg ?c ?d ?s ?i ?x ?y)) = _ =>
      let E := fresh in
      destruct (addToSeg c d s i x y) eqn:E; [|done];
      apply addToSeg_appendedTo in E; cbn [mbind option_bind] in H
  end.
  apply addToSeg_appendedTo in H.
  repeat (eapply appendedTo_trans; [eassumption|]). apply appendedTo_refl.
Qed.

Lemma sampleLower_appendedTo c detectable pixels0 segments segments' :
  forEachM (sampleLower c detectable) segments pixels0 = Some segments' ->
  appendedTo (sampled c detectable) segments segments'.
Proof.
  intros Hrun.
  eapply (forEachM_invariant (appendedTo (sampled c detectable) segments));
    [|apply appendedTo_refl|exact Hrun].
  intros s [x y] s' Hs. unfold sampleLower. intros H.
  repeat match type of H with
  | (mbind _ (addToSeg ?c ?d ?s ?i ?x ?y)) = _ =>
      let E := fresh in
      destruct (addToSeg c d s i x y) eqn:E; [|done];
      apply addToSeg_appendedTo in E; cbn [mbind option_bind] in H
  end.
  apply addToSeg_appendedTo in H.
  repeat (eapply appendedTo_trans; [eassumption|]). apply appendedTo_refl.
Qed.

Lemma appendedTo_assignDecimalPoint P segments dpPixels :
  appendedTo P segments (assignDecimalPoint segments dpPixels).
Proof.
  intros i l Hi Hl. exists []. rewrite app_nil_r. split; [|done].
  unfold assignDecimalPoint. destruct (length segments =? 7)%nat.
  - by apply lookup_app_l_Some.
  - rewrite list_lookup_insert_ne by lia. done.
Qed.

Lemma samplesAppendedTo_refl P samples : samplesAppendedTo P samples samples.
Proof. intros digit s Hs. exists s. split; [done | apply appendedTo_refl]. Qed.

Lemma samplesAppendedTo_trans P s0 s1 s2 :
  samplesAppendedTo P s0 s1 -> samplesAppendedTo P s1 s2 -> samplesAppendedTo P s0 s2.
Proof.
  intros H01 H12 digit l Hl.
  destruct (H01 digit l Hl) as (l1 & Hl1 & Ha1).
  destruct (H12 digit l1 Hl1) as (l2 & Hl2 & Ha2).
  exists l2. split; [done|]. by eapply appendedTo_trans.
Qed.

Lemma locateDigit_appendedTo fuel detectable st effects entry st' effects' :
  locateDigit fuel detectable (st, effects) entry = Some (st', effects') ->
  samplesAppendedTo (sampled (canvas st) detectable) (segmentSamples st) (segmentSamples st').
Proof.
  unfold locateDigit. destruct entry as [digit group].
  destruct (negb _); [intros [= <- <-]; apply samplesAppendedTo_refl|].
  destruct (sort _ group) as [|upper [|lower [|]]]; try done.
  destruct (segmentSamples st !! digit) as [segments|] eqn:Hdigit; [|done].
  cbn [mbind option_bind].
  destruct (forEachM _ segments (pixels upper)) as [s1|] eqn:Hs1; [|done].
  cbn [mbind option_bind].
  destruct (forEachM _ s1 (pixels lower)) as [s2|] eqn:Hs2; [|done].
  cbn [mbind option_bind].
  apply sampleUpper_appendedTo in Hs1. apply sampleLower_appendedTo in Hs2.
  destruct (extremes s2) as [[maxX maxY]|]; [|done]. cbn [mbind option_bind].
  assert (Hfinal : forall s3, appendedTo (sampled (canvas st) detectable) s2 s3 ->
            samplesAppendedTo (sampled (canvas st) detectable) (segmentSamples st)
              (<[digit := s3]> (segmentSamples st))).
  { intros s3 Hs3 d l Hl. destruct (decide (d = digit)) as [->|Hne].
    - exists s3. split; [apply list_lookup_insert_eq; by eapply lookup_lt_Some|].
      rewrite Hdigit in Hl. injection Hl as <-.
      eapply appendedTo_trans; [exact Hs1|]. by eapply appendedTo_trans.
    - exists l. rewrite list_lookup_insert_ne by done. split; [done | apply appendedTo_refl]. }
  destruct (_ && _).
  - destruct (floodFillDecimalPoint fuel st _ _) as [dpPixels|]; [|done].
    cbn [mbind option_bind]. intros [= <- <-]. cbn [segmentSamples].
    apply Hfinal, appendedTo_assignDecimalPoint.
  - cbn [mbind option_bind]. intros [= <- <-]. cbn [segmentSamples].
    apply Hfinal, appendedTo_refl.
Qed.

Lemma locateDigits_appendedTo fuel detectable entries : forall st effects st' effects',
  samplesFit (canvas st) (segmentSamples st) ->
  hasSize (grayArray st) (canvas st) ->
  forEachM (locateDigit fuel detectable) (st, effects) entries = Some (st', effects') ->
  samplesAppendedTo (sampled (canvas st) detectable) (segmentSamples st) (segmentSamples st').
Proof.
  induction entries as [|entry entries IH]; intros st effects st' effects' Hfit Hgray;
    cbn [forEachM].
  - intros [= <- <-]. apply samplesAppendedTo_refl.
  - destruct (locateDigit _ _ _ _) as [[st1 e1]|] eqn:Hstep; [|done].
    cbn [mbind option_bind]. intros Hrun.
    destruct (locateDigit_keeps _ _ _ _ _ _ _ Hfit Hgray Hstep) as [Hfit1 Hsame1].
    assert (Hgray1 : hasSize (grayArray st1) (canvas st1)).
    { destruct Hsame1 as (-> & _ & _ & _ & _ & -> & _). done. }
    apply locateDigit_appendedTo in Hstep.
    apply IH in Hrun; [|done|done].
    destruct Hsame1 as (Hc & _). rewrite Hc in Hrun.
    by eapply samplesAppendedTo_trans.
Qed.

(** A successful calibration only appends to the sample sets of segments A
    to G, and what it appends are detectable pixels of the canvas. *)
Lemma locate_appendedTo fuel st onGray offGray st' effects :
  samplesFit (canvas st) (segmentSamples st) ->
  locate fuel st onGray offGray = Some (true, st', effects) ->
  samplesAppendedTo
    (sampled (canvas st) (detectablePixels (canvas st) (grayThreshold st) onGray offGray))
    (segmentSamples st) (segmentSamples st').
Proof.
  intros Hfit. unfold locate.
  destruct (generateBitmask _ _ _ _ _ _ _) as [[backgroundPixels []]|] eqn:Hbg; [|done].
  cbn [mbind option_bind].
  destruct (findHoles _ _ _ _) as [holeComponents|]; [|done].
  cbn [mbind option_bind].
  destruct (negb _); [done|].
  destruct (mapM _ _) as [centers|]; [|done]. cbn [mbind option_bind].
  destruct (kMeans _ _ _ _) as [centers' assignments].
  destruct (forEachM _ _ _) as [[st3 effects3]|] eqn:Hrun; [|done].
  cbn. intros [= <- <-].
  apply locateDigits_appendedTo in Hrun; cbn; [done | done | apply hasSize_fillCells].
Qed.

(** ** The outcome of a calibration *)

Section FloodExt.

Context {T Env : Type}.
Variables testFunction1 testFunction2 : BitmaskMatchFunction T Env.
Variable testArray : list (list T).

(** Two predicates that agree wherever the flood fill calls them. *)
Hypothesis agree : forall e row x y,
  at_ testArray y = Some row ->
  testFunction1 e (at_ row x) (x, y) testArray = testFunction2 e (at_ row x) (x, y) testArray.

Lemma visitDirection_ext x y d (f : Flood Env) :
  visitDirection testFunction1 testArray x y d f
  = visitDirection testFunction2 testArray x y d f.
Proof.
  unfold visitDirection. destruct (at_ testArray _) as [row|] eqn:Hrow; [|done].
  destruct (bool_decide _); [done|]. by rewrite (agree _ _ _ _ Hrow).
Qed.

Lemma visitDirections_ext x y ds : forall f : Flood Env,
  visitDirections testFunction1 testArray x y ds f
  = visitDirections testFunction2 testArray x y ds f.
Proof.
  induction ds as [|d ds IH]; intros f; cbn [visitDirections]; [done|].
  rewrite visitDirection_ext. destruct (visitDirection _ _ _ _ _ _); [|done]. apply IH.
Qed.

Lemma floodLoop_ext fuel : forall f : Flood Env,
  floodLoop fuel testFunction1 testArray f = floodLoop fuel testFunction2 testArray f.
Proof.
  induction fuel as [|fuel IH]; intros [[|[x y] rest] v r e]; cbn [floodLoop queue]; try done.
  rewrite visitDirections_ext. destruct (visitDirections _ _ _ _ _ _); [|done]. apply IH.
Qed.

End FloodExt.

Lemma backgroundMatchFunction_pure detectable fuel c seeds :
  generateBitmask fuel c detectable (Some (backgroundMatchFunction detectable)) None seeds tt
  = generateBitmask fuel c detectable (Some (purePredicate notDetectable)) None seeds tt.
Proof.
  unfold generateBitmask. cbn [default].
  rewrite (floodLoop_ext (backgroundMatchFunction detectable) (purePredicate notDetectable)
             detectable); [done|].
  intros e row x y Hrow. unfold backgroundMatchFunction, purePredicate, notDetectable.
  by rewrite Hrow.
Qed.

Lemma cellAt_detectablePixels c threshold onGray offGray p :
  inCanvas c p ->
  cellAt (detectablePixels c threshold onGray offGray) p
  = Some (if gt (difference onGray offGray p.1 p.2) threshold then 1 else 0).
Proof. intros Hp. unfold detectablePixels. by rewrite cellAt_fillCells. Qed.

Lemma attemptCalibration_success fuel st st' effects litImage unlitImage :
  getOrderedCalibrationImages st = (Some litImage, Some unlitImage) ->
  attemptCalibration fuel st = Some (true, st', effects) ->
  exists st1 effects1,
    locate fuel st (getPixelGrayValue (canvas st) litImage)
      (getPixelGrayValue (canvas st) unlitImage) = Some (true, st1, effects1)
    ∧ effects = effects1 ++ [WorkerPost TimingWorker.readStart]
    ∧ calibrated st' = true
    ∧ canvas st' = canvas st1
    ∧ calibrationImages st' = calibrationImages st1
    ∧ lastDisplay st' = lastDisplay st1
    ∧ consistentOutputCount st' = consistentOutputCount st1
    ∧ segmentSamples st' = segmentSamples st1
    ∧ grayArray st' = grayArray st1
    ∧ litReference st' = litReference st1
    ∧ unlitReference st' = unlitReference st1
    ∧ backgroundMask st' = backgroundMask st1.
Proof.
  intros Hord. unfold attemptCalibration, determineLocations. rewrite Hord.
  destruct (locate _ _ _ _) as [[[[] st1] e1]|]; cbn; [|done|done].
  intros [= <- <-]. exists st1, e1. by repeat split.
Qed.

Lemma wellFormed_pendingDisplay : wellFormed pendingDisplay.
Proof.
  split; cbn; try apply hasSize_createPixelArray; [apply samplesFit_empty | lia | done].
Qed.

Lemma pendingDisplay_ordered :
  getOrderedCalibrationImages pendingDisplay = (Some litFrame, Some darkFrame).
Proof. vm_compute. reflexivity. Qed.

Lemma pendingDisplay_calibrates :
  exists st' effects, attemptCalibration 1200 pendingDisplay = Some (true, st', effects).
Proof.
  assert (Hok : (fun r : bool * Reader * list Effect => r.1.1) <$> attemptCalibration 1200 pendingDisplay
                = Some true) by (vm_compute; reflexivity).
  destruct (attemptCalibration 1200 pendingDisplay) as [[[ok st'] effects]|]; [|done].
  cbn in Hok. injection Hok as ->. by eexists _, _.
Qed.

(** X3.  On a well-formed reader that holds two calibration images, and
    with fuel for the flood fills, [attemptCalibration] returns, and it
    returns true exactly when the hole scan, run on the detectable pixels of
    the two images and the background filled from (0,0), finds 12 hole
    components.  The reader is calibrated afterwards exactly in that case,
    the last message posted to the worker is [readStart] then and
    [readStop] otherwise, and the reader is well formed again. *)
Theorem X3_calibration_succeeds_iff_twelve_holes fuel st :
  wellFormed st ->
  length (calibrationImages st) = 2%nat ->
  enoughFuel (canvas st) fuel ->
  exists litImage unlitImage background holeComponents st' effects,
    let c := canvas st in
    let detectable :=
      detectablePixels c (grayThreshold st)
        (getPixelGrayValue c litImage) (getPixelGrayValue c unlitImage) in
    getOrderedCalibrationImages st = (Some litImage, Some unlitImage)
    ∧ generateBitmask fuel c detectable (Some (backgroundMatchFunction detectable)) None [] tt
        = Some (background, tt)
    ∧ findHoles fuel c detectable background = Some holeComponents
    ∧ attemptCalibration fuel st
        = Some (bool_decide (length holeComponents = 12%nat), st', effects)
    ∧ calibrated st' = bool_decide (length holeComponents = 12%nat)
    ∧ last (posted effects)
        = Some (if bool_decide (length holeComponents = 12%nat)
                then TimingWorker.readStart else TimingWorker.readStop)
    ∧ wellFormed st'.
Proof.
  intros Hwf Hlen Hfuel.
  destruct (attemptCalibration_returns fuel st (wf_samples st Hwf) Hlen Hfuel)
    as (litImage & unlitImage & background & holeComponents & st' & effects
        & Hord & Hbg & Hholes & Hattempt).
  exists litImage, unlitImage, background, holeComponents, st', effects. cbn zeta in *.
  split; [done|]. split; [done|]. split; [done|]. split; [done|].
  destruct (attemptCalibration_posts _ _ _ _ _ Hattempt) as [_ Hcal].
  split; [done|].
  split; [|by eapply attemptCalibration_wellFormed].
  clear Hbg Hholes.
  unfold attemptCalibration in Hattempt.
  destruct (determineLocations fuel st) as [[[ok st1] e1]|] eqn:Hd; [|done].
  apply determineLocations_posts in Hd as [(-> & Hp & _)|(-> & -> & _)];
    cbn in Hattempt; injection Hattempt as <- <- <-.
  - rewrite posted_app, Hp. done.
  - done.
Qed.

Lemma X3_witness :
  let st := pushCalibrationImage (grayFrame [0])
              (pushCalibrationImage (grayFrame [255])
                 (constructor {| width := 1; height := 1 |} Cfg.constructor)) in
  exists st' effects,
    attemptCalibration 3 st = Some (false, st', effects)
    ∧ calibrated st' = false
    ∧ last (posted effects) = Some TimingWorker.readStop.
Proof.
  intros st.
  assert (Hwf : wellFormed st).
  { split; cbn; try apply hasSize_createPixelArray; [apply samplesFit_empty | lia | done]. }
  destruct (X3_calibration_succeeds_iff_twelve_holes 3 st Hwf eq_refl
              ltac:(unfold enoughFuel; cbn; lia))
    as (litImage & unlitImage & background & holeComponents & st' & effects
        & Hordered & Hbackground & Hholes & Hattempt & Hcal & Hlast & _).
  vm_compute in Hordered. injection Hordered as <- <-.
  vm_compute in Hbackground. injection Hbackground as <-.
  vm_compute in Hholes. injection Hholes as <-.
  exists st', effects. done.
Defined.

(** X4.  After a calibration that succeeds, at every pixel of the canvas
    the lit and the unlit reference hold the gray value of the brighter and
    of the darker image, the difference grid holds the absolute value of
    their difference, and the pixel is detectable exactly when that
    difference is greater than [grayThreshold].  The background mask has 1
    exactly at the pixels reached from (0,0) through pixels that are not
    detectable.  The reader is calibrated, its calibration images, last
    reading and counter of consistent readings are unchanged, and the one
    message posted to the worker is [readStart]. *)
Theorem X4_successful_calibration_state fuel st st' effects litImage unlitImage :
  wellFormed st ->
  getOrderedCalibrationImages st = (Some litImage, Some unlitImage) ->
  attemptCalibration fuel st = Some (true, st', effects) ->
  let c := canvas st in
  let onGray := getPixelGrayValue c litImage in
  let offGray := getPixelGrayValue c unlitImage in
  let detectable := detectablePixels c (grayThreshold st) onGray offGray in
  (forall p, inCanvas c p ->
     cellAt (litReference st') p = Some (onGray p.1 p.2)
     ∧ cellAt (unlitReference st') p = Some (offGray p.1 p.2)
     ∧ cellAt (grayArray st') p = Some (abs (sub (onGray p.1 p.2) (offGray p.1 p.2)))
     ∧ cellAt detectable p
       = Some (if gt (abs (sub (onGray p.1 p.2) (offGray p.1 p.2))) (grayThreshold st)
               then 1 else 0))
  ∧ (forall p, cellAt (backgroundMask st') p = Some 1
               <-> reachable notDetectable detectable [(0, 0)] p)
  ∧ calibrated st' = true
  ∧ calibrationImages st' = calibrationImages st
  ∧ lastDisplay st' = lastDisplay st
  ∧ consistentOutputCount st' = consistentOutputCount st
  ∧ posted effects = [TimingWorker.readStart].
Proof.
  intros Hwf Hord Hattempt c onGray offGray detectable.
  destruct (attemptCalibration_success _ _ _ _ _ _ Hord Hattempt)
    as (st1 & e1 & Hlocate & -> & Hcal & Hc & Hi & Hl & Hn & Hs & Hg & Hlit & Hu & Hb).
  destruct (locate_success_frame _ _ _ _ _ _ (wf_samples st Hwf) Hlocate)
    as (Hbg & Hg1 & Hlit1 & Hu1 & Hi1 & _ & Hl1 & Hn1).
  fold c onGray offGray detectable in Hbg, Hg1, Hlit1, Hu1.
  split; [|split; [|split; [|split; [|split; [|split]]]]]; try congruence.
  - intros p Hp. rewrite Hlit, Hu, Hg, Hlit1, Hu1, Hg1.
    rewrite !cellAt_fillCells by done. unfold detectable.
    rewrite cellAt_detectablePixels by done. done.
  - rewrite backgroundMatchFunction_pure in Hbg.
    unfold generateBitmask in Hbg. cbn [default] in Hbg.
    destruct (floodLoop _ _ _ _) as [f'|] eqn:Hloop; [|done].
    cbn [mbind option_bind] in Hbg. injection Hbg as Hbg _.
    destruct (floodLoop_marks notDetectable detectable c [(0, 0)]
                (hasSize_detectablePixels _ _ _ _) ltac:(done) fuel _ f' eq_refl Hloop)
      as (_ & Hmarks & _).
    intros p. rewrite Hb, <- Hbg. apply Hmarks.
  - apply locate_posts in Hlocate as [(_ & Hp & _)|(? & _)]; [|done].
    rewrite posted_app, Hp. done.
Qed.

Lemma X4_witness :
  exists st' effects,
    attemptCalibration 1200 pendingDisplay = Some (true, st', effects)
    ∧ cellAt (litReference st') (2, 1)
      = Some (getPixelGrayValue displayCanvas litFrame 2 1)
    ∧ calibrated st' = true
    ∧ posted effects = [TimingWorker.readStart].
Proof.
  destruct pendingDisplay_calibrates as (st' & effects & Hattempt).
  exists st', effects. split; [exact Hattempt|].
  destruct (X4_successful_calibration_state 1200 pendingDisplay st' effects litFrame darkFrame
              wellFormed_pendingDisplay pendingDisplay_ordered Hattempt)
    as (Hgrids & _ & Hcal & _ & _ & _ & Hposted).
  assert (Hin : inCanvas displayCanvas (2, 1)) by (split; cbn; lia).
  destruct (Hgrids (2, 1) Hin) as (Hlit & _).
  split; [exact Hlit|]. split; [exact Hcal | exact Hposted].
Defined.

(** X5.  A calibration that succeeds only appends to the sample sets of
    segments A to G: what a set held before stays at its front, and every
    pixel appended is inside the canvas and detectable (the gray values of
    the two images differ there by more than [grayThreshold]). *)
Theorem X5_calibration_appends_samples fuel st st' effects litImage unlitImage :
  wellFormed st ->
  getOrderedCalibrationImages st = (Some litImage, Some unlitImage) ->
  attemptCalibration fuel st = Some (true, st', effects) ->
  let c := canvas st in
  let onGray := getPixelGrayValue c litImage in
  let offGray := getPixelGrayValue c unlitImage in
  forall digit segments0 i pixels0,
    segmentSamples st !! digit = Some segments0 ->
    (i < 7)%nat ->
    segments0 !! i = Some pixels0 ->
    exists segments added,
      segmentSamples st' !! digit = Some segments
      ∧ segments !! i = Some (pixels0 ++ added)
      ∧ Forall (fun p =>
                  inCanvas c p
                  ∧ gt (abs (sub (onGray p.1 p.2) (offGray p.1 p.2))) (grayThreshold st) = true)
               added.
Proof.
  intros Hwf Hord Hattempt c onGray offGray digit segments0 i pixels0 Hdigit Hi Hpixels.
  destruct (attemptCalibration_success _ _ _ _ _ _ Hord Hattempt)
    as (st1 & e1 & Hlocate & _ & _ & _ & _ & _ & _ & Hs & _).
  apply locate_appendedTo in Hlocate; [|apply Hwf].
  destruct (Hlocate digit segments0 Hdigit) as (segments & Hsegments & Happ).
  destruct (Happ i pixels0 Hi Hpixels) as (added & Hadded & Hall).
  exists segments, added. rewrite Hs. split; [done|]. split; [done|].
  eapply Forall_impl; [exact Hall|]. intros p [Hp Hdet]. split; [done|].
  fold c onGray offGray in Hdet. rewrite cellAt_detectablePixels in Hdet by done.
  unfold difference in Hdet. by destruct (gt _ _).
Qed.

Lemma X5_witness :
  exists st' effects segments added,
    attemptCalibration 1200 pendingDisplay = Some (true, st', effects)
    ∧ segmentSamples st' !! 0%nat = Some segments
    ∧ segments !! 0%nat = Some ([] ++ added)
    ∧ Forall (fun p => inCanvas displayCanvas p) added.
Proof.
  destruct pendingDisplay_calibrates as (st' & effects & Hattempt).
  destruct (X5_calibration_appends_samples 1200 pendingDisplay st' effects litFrame darkFrame
              wellFormed_pendingDisplay pendingDisplay_ordered Hattempt
              0%nat (replicate 8 []) 0%nat [] eq_refl ltac:(lia) eq_refl)
    as (segments & added & Hsegments & Hadded & Hall).
  exists st', effects, segments, added.
  split; [exact Hattempt|]. split; [exact Hsegments|]. split; [exact Hadded|].
  eapply Forall_impl; [exact Hall|]. intros p [Hp _]. exact Hp.
Defined.

(** ** The grouping of the holes *)

Lemma nearestCenter_lt centers component : (nearestCenter centers component < k)%nat.
Proof.
  unfold nearestCenter.
  assert (Hgen : forall l (acc : number * nat),
            (acc.2 < k)%nat -> Forall (fun ki => (ki < k)%nat) l ->
            ((foldl (fun '(minDist, bestK) ki =>
                match centerX component, centers !! ki with
                | Some cx, Some (Some center) =>
                    let dist := abs (sub cx center) in
                    if lt dist minDist then (dist, ki) else (minDist, bestK)
                | _, _ => (minDist, bestK)
                end) acc l).2 < k)%nat).
  { induction l as [|ki l IH]; intros [minDist bestK] Hacc Hl; cbn [foldl]; [done|].
    apply Forall_cons in Hl as [Hki Hl]. apply IH; [|done].
    destruct (centerX component); [|done].
    destruct (centers !! ki) as [[center|]|]; [|done|done].
    cbn zeta. by destruct (lt _ _). }
  apply Hgen; [cbn; unfold k; lia|].
  apply Forall_forall. intros ki Hki. apply elem_of_seq in Hki. lia.
Qed.

Lemma assignHoles_valid holeComponents centers assignments :
  validAssignments holeComponents (assignHoles holeComponents centers assignments).1.
Proof.
  unfold assignHoles. cbn. split; [by rewrite length_fmap|].
  apply Forall_fmap, Forall_forall. intros component _. apply nearestCenter_lt.
Qed.

Lemma kMeans_valid rounds : forall holeComponents centers assignments,
  validAssignments holeComponents assignments ->
  validAssignments holeComponents (kMeans rounds holeComponents centers assignments).2.
Proof.
  induction rounds as [|rounds IH]; intros holeComponents centers assignments Hvalid;
    cbn [kMeans]; [done|].
  pose proof (assignHoles_valid holeComponents centers assignments) as Hnext.
  destruct (assignHoles holeComponents centers assignments) as [assignments' changed].
  cbn [fst] in Hnext. destruct changed; [by apply IH | done].
Qed.

Lemma kMeans_valid_S rounds holeComponents centers assignments :
  validAssignments holeComponents
    (kMeans (S rounds) holeComponents centers assignments).2.
Proof.
  cbn [kMeans].
  pose proof (assignHoles_valid holeComponents centers assignments) as Hnext.
  destruct (assignHoles holeComponents centers assignments) as [assignments' changed].
  cbn [fst] in Hnext. destruct changed; [by apply kMeans_valid | done].
Qed.

Lemma join_alter_snoc {A} (groups : list (list A)) ki (x : A) :
  (ki < length groups)%nat ->
  mjoin (alter (fun group => group ++ [x]) ki groups) ≡ₚ mjoin groups ++ [x].
Proof.
  intros Hki. destruct (lookup_lt_is_Some_2 groups ki Hki) as [group Hgroup].
  rewrite <- (take_drop_middle groups ki group Hgroup) at 2.
  rewrite <- (take_drop_middle groups ki group Hgroup) at 1.
  assert (Hlen : length (take ki groups) = ki) by (rewrite length_take; lia).
  rewrite alter_app_r_alt by lia. rewrite Hlen, Nat.sub_diag. cbn [alter list_alter].
  rewrite !join_app. cbn [mjoin list_join].
  rewrite <- !app_assoc. apply Permutation_app_head. apply Permutation_app_head.
  cbn. rewrite Permutation_app_comm. done.
Qed.

Lemma groupHoles_Permutation holeComponents assignments :
  validAssignments holeComponents assignments ->
  mjoin (groupHoles holeComponents assignments) ≡ₚ holeComponents.
Proof.
  intros [Hlen Hlt]. unfold groupHoles.
  assert (Hgen : forall (l : list (nat * HoleComponent)) (groups : list (list HoleComponent)),
            Forall (fun entry => (entry.1 < length groups)%nat) l ->
            mjoin (foldl (fun groups '(ki, component) =>
                            alter (fun group => group ++ [component]) ki groups) groups l)
            ≡ₚ mjoin groups ++ l.*2).
  { induction l as [|[ki component] l IH]; intros groups Hl; cbn [foldl fmap list_fmap].
    - by rewrite app_nil_r.
    - apply Forall_cons in Hl as [Hki Hl]. cbn in Hki.
      rewrite IH.
      + rewrite join_alter_snoc by done. rewrite <- app_assoc. done.
      + eapply Forall_impl; [exact Hl|]. intros entry. by rewrite length_alter. }
  rewrite Hgen.
  - rewrite snd_zip by lia.
    assert (mjoin (replicate k ([] : list HoleComponent)) = []) as -> by done. done.
  - rewrite length_replicate. apply Forall_forall. intros [ki component] Hin. cbn.
    apply elem_of_zip_l in Hin. by eapply Forall_forall in Hlt.
Qed.

(** X7.  After one or more rounds of k-means every hole has an assignment,
    each assignment is one of the 6 groups, and grouping the holes by their
    assignments gives 6 groups that together hold every hole exactly once:
    no hole is lost or duplicated, whatever the centers were. *)
Theorem X7_kmeans_partitions_holes holeComponents centers assignments0 rounds :
  let assignments := (kMeans (S rounds) holeComponents centers assignments0).2 in
  let groups := groupHoles holeComponents assignments in
  length assignments = length holeComponents
  ∧ Forall (fun ki => (ki < 6)%nat) assignments
  ∧ length groups = 6%nat
  ∧ mjoin groups ≡ₚ holeComponents
  ∧ (forall ki group component,
       groups !! ki = Some group -> component ∈ group -> component ∈ holeComponents).
Proof.
  intros assignments groups.
  pose proof (kMeans_valid_S rounds holeComponents centers assignments0) as Hvalid.
  fold assignments in Hvalid.
  pose proof (groupHoles_Permutation holeComponents assignments Hvalid) as Hperm.
  fold groups in Hperm.
  destruct Hvalid as [Hlen Hlt].
  split; [done|]. split; [done|]. split; [apply length_groupHoles|]. split; [done|].
  intros ki group component Hgroup Hin.
  rewrite <- Hperm. apply list_elem_of_join. exists group. split; [done|].
  by eapply list_elem_of_lookup_2.
Qed.

Lemma X7_witness :
  let holeComponents :=
    [ {| pixels := [(0, 0)]; centerX := Some (ofZ 0); centerY := Some (ofZ 0); rect := None |};
      {| pixels := [(9, 0)]; centerX := Some (ofZ 9); centerY := Some (ofZ 0); rect := None |} ] in
  let centers := [Some (ofZ 0); Some (ofZ 2); Some (ofZ 4); Some (ofZ 6); Some (ofZ 8); Some (ofZ 10)] in
  length (groupHoles holeComponents (kMeans 10 holeComponents centers [0; 0]%nat).2) = 6%nat
  ∧ mjoin (groupHoles holeComponents (kMeans 10 holeComponents centers [0; 0]%nat).2)
    ≡ₚ holeComponents.
Proof.
  intros holeComponents centers.
  destruct (X7_kmeans_partitions_holes holeComponents centers [0; 0]%nat 9)
    as (_ & _ & Hlen & Hperm & _).
  split; [exact Hlen | exact Hperm].
Defined.

(** ** The text of a reading *)

Lemma charMap_keys bitmask s : charMap bitmask = Some s -> bitmask ∈ charMapKeys.
Proof.
  intros H.
  destruct bitmask as [|p|p]; [by left | | done].
  repeat match goal with
         | p : positive |- _ => destruct p as [p|p|]; try discriminate H
         end;
    unfold charMapKeys; repeat first [by left | right].
Qed.

Lemma charMap_single bitmask s : charMap bitmask = Some s -> String.length s = 1%nat.
Proof.
  intros H. pose proof (charMap_keys _ _ H) as Hk. unfold charMapKeys in Hk.
  repeat (apply elem_of_cons in Hk as [->|Hk];
          [cbn in H; injection H as <-; reflexivity|]).
  by apply elem_of_nil in Hk.
Qed.

Lemma charMap_injective b1 b2 s : charMap b1 = Some s -> charMap b2 = Some s -> b1 = b2.
Proof.
  intros H1 H2.
  assert (Hall : forallb (fun b1 => forallb (fun b2 =>
                    implb (bool_decide (charMap b1 = charMap b2)) (b1 =? b2)) charMapKeys)
                  charMapKeys = true) by (vm_compute; reflexivity).
  rewrite forallb_forall in Hall.
  specialize (Hall b1 (proj1 (list_elem_of_In _ _) (charMap_keys _ _ H1))).
  rewrite forallb_forall in Hall.
  specialize (Hall b2 (proj1 (list_elem_of_In _ _) (charMap_keys _ _ H2))).
  rewrite bool_decide_eq_true_2 in Hall by congruence. cbn in Hall. bool_lia.
Qed.

Lemma length_append s1 s2 :
  String.length (s1 +:+ s2) = (String.length s1 + String.length s2)%nat.
Proof. induction s1 as [|a s1 IH]; simpl; [done | by rewrite IH]. Qed.

Lemma digitText_length decoded :
  (1 <= String.length (digitText decoded) <= 4)%nat.
Proof.
  unfold digitText. rewrite length_append.
  destruct (charMap decoded.1) as [s|] eqn:Hs; cbn [default]; unfold id.
  - rewrite (charMap_single _ _ Hs). destruct decoded.2; cbn; lia.
  - destruct decoded.2; cbn; lia.
Qed.

Lemma substring_all s : substring 0 (String.length s) s = s.
Proof. induction s as [|a s IH]; simpl; [done | by rewrite IH]. Qed.

Lemma length_substring_tail a s :
  substring 1 (String.length (String a s) - 1) (String a s) = s.
Proof. cbn [String.length]. rewrite Nat.sub_succ, Nat.sub_0_r. cbn. apply substring_all. Qed.

(** The correction replaces the first character and nothing else. *)
Lemma correctNotation_cases result0 :
  correctNotation result0 = result0
  ∨ exists rest,
      String.get 2 result0 = Some "."%char
      ∧ ((result0 = String "5" rest ∧ correctNotation result0 = String "S" rest)
         ∨ (result0 = String "1" rest ∧ correctNotation result0 = String "I" rest)).
Proof.
  unfold correctNotation. destruct (bool_decide _) eqn:Hdot; [|by left].
  apply bool_decide_eq_true in Hdot.
  destruct (String.prefix "5P" result0) eqn:H5.
  - right. destruct result0 as [|a rest]; [done|]. exists rest. split; [done|]. left.
    apply prefix_correct in H5. simpl in H5. injection H5 as -> _.
    split; [done|]. by rewrite length_substring_tail.
  - destruct (String.prefix "1n" result0) eqn:H1; [|by left].
    right. destruct result0 as [|a rest]; [done|]. exists rest. split; [done|]. right.
    apply prefix_correct in H1. simpl in H1. injection H1 as -> _.
    split; [done|]. by rewrite length_substring_tail.
Qed.

Lemma forEachM_length_text {A} (body : string -> A -> option string) l :
  (forall text a text', body text a = Some text' ->
     (String.length text + 1 <= String.length text' <= String.length text + 4)%nat) ->
  forall text0 text,
    forEachM body text0 l = Some text ->
    (String.length text0 + length l <= String.length text
     <= String.length text0 + 4 * length l)%nat.
Proof.
  intros Hbody. induction l as [|a l IH]; intros text0 text; cbn [forEachM length].
  - intros [= <-]. lia.
  - destruct (body text0 a) as [text1|] eqn:Hstep; [|done]. cbn [mbind option_bind].
    intros Hrun. apply Hbody in Hstep. apply IH in Hrun. lia.
Qed.

Lemma correctNotation_length result0 :
  String.length (correctNotation result0) = String.length result0.
Proof.
  destruct (correctNotation_cases result0)
    as [Heq|(rest & _ & [[-> ->]|[-> ->]])]; [by rewrite Heq| |]; reflexivity.
Qed.

Lemma decodeDigit_range lit digitSegments decoded :
  decodeDigit lit digitSegments = Some decoded -> 0 <= decoded.1 <= 127.
Proof.
  unfold decodeDigit.
  assert (Hgen : forall l (acc acc' : Z * bool) bound,
            forEachM (fun '(bitmask, lightDecimalPoint) segment =>
                pixels0 ← digitSegments !! segment;
                if segmentOn lit pixels0 then
                  if (segment =? 7)%nat then Some (bitmask, true)
                  else Some (bitmask + Z.shiftl 1 (Z.of_nat segment), lightDecimalPoint)
                else Some (bitmask, lightDecimalPoint)) acc l = Some acc' ->
            0 <= acc.1 <= bound ->
            0 <= acc'.1 <= bound + foldr (fun segment sum =>
                                            (if (segment =? 7)%nat then 0
                                             else Z.shiftl 1 (Z.of_nat segment)) + sum) 0 l).
  { induction l as [|segment l IH]; intros [bitmask dp] acc' bound; cbn [forEachM foldr].
    - intros [= <-] ?. lia.
    - destruct (digitSegments !! segment) as [pixels0|]; [|done]. cbn [mbind option_bind].
      assert (0 <= Z.shiftl 1 (Z.of_nat segment))
        by (rewrite Z.shiftl_mul_pow2 by lia; apply Z.mul_nonneg_nonneg; [lia|];
            apply Z.pow_nonneg; lia).
      destruct (segmentOn lit pixels0); [destruct (segment =? 7)%nat eqn:E|];
        intros Hrun Hacc; cbn [fst] in *.
      + apply (IH _ _ bound) in Hrun; cbn [fst] in *; lia.
      + apply (IH _ _ (bound + Z.shiftl 1 (Z.of_nat segment))) in Hrun; cbn [fst] in *; lia.
      + apply (IH _ _ bound) in Hrun; cbn [fst] in *; [|lia].
        destruct (segment =? 7)%nat; lia. }
  intros Hrun. apply (Hgen _ _ _ 0) in Hrun; [|cbn; lia].
  change (0 + foldr _ 0 (seq 0 8)) with 127 in Hrun. exact Hrun.
Qed.

(** X17.  [charMap] has a character only for bitmasks of 0 to 127, each
    character is a string of length 1, and no two bitmasks have the same
    character; 85 of the 128 bitmasks of seven segments have none.  Every
    bitmask that decoding a digit gives is one of the 128. *)
Theorem X17_charMap_injective :
  (forall bitmask s, charMap bitmask = Some s ->
     0 <= bitmask <= 127 ∧ String.length s = 1%nat)
  ∧ (forall bitmask1 bitmask2 s,
       charMap bitmask1 = Some s -> charMap bitmask2 = Some s -> bitmask1 = bitmask2)
  ∧ length (filter (fun bitmask => charMap bitmask = None) (seqZ 0 128)) = 85%nat
  ∧ (forall lit digitSegments decoded,
       decodeDigit lit digitSegments = Some decoded -> 0 <= decoded.1 <= 127).
Proof.
  split; [|split; [|split; [|apply decodeDigit_range]]].
  - intros bitmask s H. split; [|by eapply charMap_single].
    pose proof (charMap_keys _ _ H) as Hk. unfold charMapKeys in Hk.
    repeat (apply elem_of_cons in Hk as [->|Hk]; [lia|]).
    by apply elem_of_nil in Hk.
  - apply charMap_injective.
  - by vm_compute.
Qed.

Lemma X17_witness :
  0 <= 63 <= 127 ∧ String.length "0" = 1%nat.
Proof.
  destruct X17_charMap_injective as (Hsingle & _).
  apply (Hsingle 63 "0"). reflexivity.
Defined.

(** X18.  The correction of the notation keeps the length and every
    character but the first, and correcting again changes nothing.  It
    changes the text only when the third character is a point and the text
    starts with 5P, which becomes SP, or with 1n, which becomes In. *)
Theorem X18_correctNotation_first_character result0 :
  String.length (correctNotation result0) = String.length result0
  ∧ (forall n, (1 <= n)%nat -> String.get n (correctNotation result0) = String.get n result0)
  ∧ correctNotation (correctNotation result0) = correctNotation result0
  ∧ (correctNotation result0 ≠ result0 ->
     String.get 2 result0 = Some "."%char
     ∧ ((String.get 0 result0 = Some "5"%char ∧ String.get 1 result0 = Some "P"%char
         ∧ String.get 0 (correctNotation result0) = Some "S"%char)
        ∨ (String.get 0 result0 = Some "1"%char ∧ String.get 1 result0 = Some "n"%char
           ∧ String.get 0 (correctNotation result0) = Some "I"%char))).
Proof.
  split; [apply correctNotation_length|].
  split; [|split].
  - intros n Hn.
    destruct (correctNotation_cases result0)
      as [Heq|(rest & _ & [[-> ->]|[-> ->]])]; [by rewrite Heq| |];
      (destruct n; [lia | reflexivity]).
  - destruct (correctNotation_cases result0)
      as [Heq|(rest & Hdot & [[-> ->]|[-> ->]])]; [by rewrite !Heq| |];
      unfold correctNotation;
      (rewrite bool_decide_eq_true_2 by exact Hdot); reflexivity.
  - intros Hne. unfold correctNotation in *.
    destruct (bool_decide _) eqn:Hdot; [|done].
    apply bool_decide_eq_true in Hdot. split; [done|].
    destruct (String.prefix "5P" result0) eqn:H5.
    + left. apply prefix_correct in H5.
      destruct result0 as [|a [|b rest]]; try done.
      simpl in H5. injection H5 as -> ->. done.
    + destruct (String.prefix "1n" result0) eqn:H1; [|done].
      right. apply prefix_correct in H1.
      destruct result0 as [|a [|b rest]]; try done.
      simpl in H1. injection H1 as -> ->. done.
Qed.

Lemma X18_witness :
  String.get 0 (correctNotation "5P.123") = Some "S"%char.
Proof.
  destruct (X18_correctNotation_first_character "5P.123") as (_ & _ & _ & Hchanged).
  destruct Hchanged as (_ & [(_ & _ & HS) | (H1 & _)]).
  - vm_compute. discriminate.
  - exact HS.
  - vm_compute in H1. discriminate H1.
Defined.

(** X15.  On a well-formed reader decoding a frame returns a text of at
    least 6 and at most 24 characters: each of the six digits gives one
    character, or the three characters shown for a bitmask that [charMap]
    does not have, and a point when its decimal point is lit; the
    correction of the notation keeps the length. *)
Theorem X15_reading_length st frame :
  wellFormed st ->
  exists text,
    decodeDisplays st frame = Some text
    ∧ (6 <= String.length text <= 24)%nat.
Proof.
  intros [(Hlen & Height & _) _ _ _ _ _ _].
  destruct (decodeDisplays_returns st frame Hlen Height) as [text Htext].
  exists text. split; [done|].
  unfold decodeDisplays in Htext.
  destruct (forEachM _ _ _) as [result0|] eqn:Hrun; [|done].
  cbn [mbind option_bind] in Htext. injection Htext as <-.
  rewrite correctNotation_length.
  apply forEachM_length_text in Hrun; [rewrite length_seq in Hrun; cbn in Hrun; lia|].
  intros text a text' Hstep.
  destruct (segmentSamples st !! a) as [ds|]; [|done]. cbn [mbind option_bind] in Hstep.
  destruct (decodeDigit _ ds) as [decoded|]; [|done]. cbn [mbind option_bind] in Hstep.
  injection Hstep as <-. rewrite length_append.
  pose proof (digitText_length decoded). lia.
Qed.

Lemma X15_witness :
  exists text,
    decodeDisplays (constructor {| width := 1; height := 1 |} Cfg.constructor) (grayFrame [0])
      = Some text
    ∧ (6 <= String.length text <= 24)%nat.
Proof.
  exact (X15_reading_length (constructor {| width := 1; height := 1 |} Cfg.constructor)
           (grayFrame [0]) (wellFormed_constructor _ _)).
Defined.

(** ** The gray value of a pixel *)

Lemma gray_of_bytes sum :
  0 <= sum <= 765 ->
  le (ofZ 0) (div (ofZ sum) (ofZ 3)) && le (div (ofZ sum) (ofZ 3)) (ofZ 255) = true.
Proof.
  intros Hsum.
  assert (Hall : forallb (fun sum => le (ofZ 0) (div (ofZ sum) (ofZ 3))
                                     && le (div (ofZ sum) (ofZ 3)) (ofZ 255))
                         (seqZ 0 766) = true) by (vm_compute; reflexivity).
  rewrite forallb_forall in Hall. apply Hall, list_elem_of_In, elem_of_seqZ. lia.
Qed.

(** X19.  For a frame of bytes, the gray value of a pixel whose three
    colour bytes are inside the buffer is between 0 and 255; it is NaN when
    one of them is outside.  The pixel is addressed by [y * width + x] only:
    a column past the right edge reads the next row. *)
Theorem X19_gray_value_range c frame x y :
  Forall (fun byte => 0 <= byte <= 255) (data frame) ->
  let index := (y * width c + x) * 4 in
  let gray := getPixelGrayValue c frame x y in
  (0 <= index ∧ index + 2 < Z.of_nat (length (data frame)) ->
   le (ofZ 0) gray && le gray (ofZ 255) = true)
  ∧ (¬ (0 <= index ∧ index + 2 < Z.of_nat (length (data frame))) -> gray = NaN)
  ∧ getPixelGrayValue c frame (x + width c) y = getPixelGrayValue c frame x (y + 1).
Proof.
  intros Hbytes index gray. unfold gray, getPixelGrayValue. fold index.
  assert (Hbyte : forall i v, at_ (data frame) i = Some v -> 0 <= v <= 255).
  { intros i v Hv. apply at_Some_iff in Hv as [_ Hv].
    eapply Forall_lookup_1 in Hbytes; [|exact Hv]. done. }
  split; [|split].
  - intros [H0 H2].
    destruct (proj2 (at_is_Some (data frame) index) ltac:(lia)) as [r Hr].
    destruct (proj2 (at_is_Some (data frame) (index + 1)) ltac:(lia)) as [g Hg].
    destruct (proj2 (at_is_Some (data frame) (index + 2)) ltac:(lia)) as [b Hb].
    rewrite Hr, Hg, Hb. apply gray_of_bytes.
    apply Hbyte in Hr, Hg, Hb. lia.
  - intros Hout.
    destruct (at_ (data frame) index) as [r|] eqn:Hr; [|done].
    destruct (at_ (data frame) (index + 1)) as [g|] eqn:Hg; [|done].
    destruct (at_ (data frame) (index + 2)) as [b|] eqn:Hb; [|done].
    exfalso. apply Hout.
    pose proof (proj1 (at_is_Some _ _) (mk_is_Some _ _ Hr)).
    pose proof (proj1 (at_is_Some _ _) (mk_is_Some _ _ Hb)). lia.
  - replace ((y * width c + (x + width c)) * 4) with (((y + 1) * width c + x) * 4) by lia.
    done.
Qed.

Lemma X19_witness :
  le (ofZ 0) (getPixelGrayValue {| width := 1; height := 1 |} (grayFrame [200]) 0 0)
  && le (getPixelGrayValue {| width := 1; height := 1 |} (grayFrame [200]) 0 0) (ofZ 255) = true
  ∧ getPixelGrayValue {| width := 1; height := 1 |} (grayFrame [200]) 0 1 = NaN.
Proof.
  destruct (X19_gray_value_range {| width := 1; height := 1 |} (grayFrame [200]) 0 0)
    as (Hin & _ & _).
  { by repeat constructor. }
  destruct (X19_gray_value_range {| width := 1; height := 1 |} (grayFrame [200]) 0 1)
    as (_ & Hout & _).
  { by repeat constructor. }
  split; [apply Hin; cbn; lia | apply Hout; cbn; lia].
Defined.

(** ** How the calls compose *)

Lemma capture_first fuel auto frame st :
  calibrationImages st = [] ->
  captureCalibrationImage fuel auto frame st = Some (pushCalibrationImage frame st, []).
Proof. intros Hnone. unfold captureCalibrationImage. cbn. rewrite Hnone. reflexivity. Qed.

Lemma capture_second fuel auto frame st first :
  calibrationImages st = [first] ->
  captureCalibrationImage fuel auto frame st
  = if auto then
      '(_, st2, effects) ← attemptCalibration fuel (pushCalibrationImage frame st);
      Some (st2, effects)
    else Some (pushCalibrationImage frame st, []).
Proof.
  intros Hone. unfold captureCalibrationImage. cbn. rewrite Hone. cbn. by destruct auto.
Qed.

(** X11.  On a reader that holds no calibration image, capturing two
    images with automatic calibration is the same as capturing both without
    it and calling [attemptCalibration]: the same state and the same
    effects, or a throw in both. *)
Theorem X11_capture_composes fuel st first second :
  calibrationImages st = [] ->
  calls fuel [CaptureCalibrationImage true first; CaptureCalibrationImage true second] st
  = calls fuel [CaptureCalibrationImage false first; CaptureCalibrationImage false second;
                AttemptCalibration] st.
Proof.
  intros Hnone. cbn [calls call].
  rewrite !(capture_first fuel _ first st Hnone). cbn [mbind option_bind].
  rewrite !(capture_second fuel _ second (pushCalibrationImage first st) first)
    by (cbn; by rewrite Hnone).
  cbn [mbind option_bind].
  destruct (attemptCalibration fuel _) as [[[ok st1] e1]|]; cbn; [|done].
  by rewrite app_nil_r.
Qed.

Lemma X11_witness :
  let st := constructor {| width := 1; height := 1 |} Cfg.constructor in
  calls 3 [CaptureCalibrationImage true (grayFrame [255]);
           CaptureCalibrationImage true (grayFrame [0])] st
  = calls 3 [CaptureCalibrationImage false (grayFrame [255]);
             CaptureCalibrationImage false (grayFrame [0]); AttemptCalibration] st.
Proof.
  intros st. exact (X11_capture_composes 3 st (grayFrame [255]) (grayFrame [0]) eq_refl).
Defined.

(** X10.  When the two calibration images differ in their summed
    brightness, the order in which they are held does not matter: the lit
    and the unlit image are chosen the same, and calibration has the same
    outcome but for the list of images that the reader keeps. *)
Theorem X10_frame_order_irrelevant_unless_tied fuel st a b sumA sumB :
  length (data a) = length (data b) ->
  brightness (Z.of_nat (length (data a))) (data a) = Some sumA ->
  brightness (Z.of_nat (length (data a))) (data b) = Some sumB ->
  sumA ≠ sumB ->
  getOrderedCalibrationImages (withCalibrationImages [b; a] st)
  = getOrderedCalibrationImages (withCalibrationImages [a; b] st)
  ∧ attemptCalibration fuel (withCalibrationImages [b; a] st)
    = outcomeWithImages [b; a] <$> attemptCalibration fuel (withCalibrationImages [a; b] st).
Proof.
  intros Hlen HA HB Hne.
  split; [by eapply getOrderedCalibrationImages_order|].
  unfold attemptCalibration.
  rewrite (determineLocations_order fuel st a b sumA sumB Hlen HA HB Hne).
  destruct (determineLocations fuel (withCalibrationImages [a; b] st))
    as [[[[] st1] e1]|]; reflexivity.
Qed.

Lemma X10_witness :
  let st := constructor {| width := 1; height := 1 |} Cfg.constructor in
  attemptCalibration 3 (withCalibrationImages [grayFrame [0]; grayFrame [255]] st)
  = outcomeWithImages [grayFrame [0]; grayFrame [255]]
      <$> attemptCalibration 3 (withCalibrationImages [grayFrame [255]; grayFrame [0]] st).
Proof.
  intros st.
  refine (proj2 (X10_frame_order_irrelevant_unless_tied 3 st (grayFrame [255]) (grayFrame [0])
                   765 0 _ _ _ _)); [reflexivity | reflexivity | reflexivity | lia].
Defined.

(** ** The refiner on the whole reader *)

(** X21.  On a well-formed reader [refine] returns a well-formed reader
    that differs at most in its sample sets.  Every sample set is replaced
    by a sublist of itself: itself, its pixels that are lit in the frame, or
    its pixels that are not.  A set that has a pixel keeps one. *)
Theorem X21_refine_only_removes_samples frame st :
  wellFormed st ->
  let lit := sampleLit st frame (estimateAmbientOffset st frame) in
  exists st',
    refine frame st = Some st'
    ∧ wellFormed st'
    ∧ sameFrame st st'
    ∧ forall digit segments i pixels0,
        segmentSamples st !! digit = Some segments ->
        segments !! i = Some pixels0 ->
        exists segments' pixels',
          segmentSamples st' !! digit = Some segments'
          ∧ segments' !! i = Some pixels'
          ∧ pixels' `sublist_of` pixels0
          ∧ (pixels0 ≠ [] -> pixels' ≠ [])
          ∧ (pixels' = pixels0
             ∨ pixels' = filter (fun p => lit p = true) pixels0
             ∨ pixels' = filter (fun p => lit p = false) pixels0).
Proof.
  intros Hwf lit.
  destruct (wf_samples st Hwf) as (Hlen & Height & _).
  destruct (refine_samples frame st Hlen Height) as (st' & Hrefine & Hs & Hsame).
  exists st'. split; [done|].
  split.
  { pose proof (call_wellFormed 0 (Refine frame) st st' [] Hwf) as H.
    cbn [call] in H. rewrite Hrefine in H. by destruct (H eq_refl). }
  split; [done|].
  intros digit segments i pixels0 Hdigit Hpixels.
  exists (refineSegment lit <$> segments), (refineSegment lit pixels0).
  rewrite Hs. fold lit.
  split; [by rewrite list_lookup_fmap, Hdigit|].
  split; [by rewrite list_lookup_fmap, Hpixels|].
  split; [apply refineSegment_sublist|].
  split; [apply refineSegment_nonempty|].
  destruct (refineSegment_cases lit pixels0) as [(_ & ->)|[(_ & _ & ->)|(_ & _ & ->)]]; auto.
Qed.

Lemma X21_witness :
  exists st',
    refine (grayFrame [0])
      (constructor {| width := 1; height := 1 |} Cfg.constructor) = Some st'
    ∧ wellFormed st'.
Proof.
  destruct (X21_refine_only_removes_samples (grayFrame [0])
              (constructor {| width := 1; height := 1 |} Cfg.constructor)
              (wellFormed_constructor _ _)) as (st' & Hrefine & Hwf & _).
  by exists st'.
Defined.

(** ** The pixel list of a bitmask *)

Lemma NoDup_rowCoordinates (y : Z) (row : list Z) : forall h : nat -> Z,
  Inj (=) (=) h ->
  NoDup (omap id (imap (fun x value => if value =? 1 then Some (h x, y) else None) row)).
Proof.
  induction row as [|v row IH]; intros h Hinj; [constructor|].
  rewrite imap_cons. cbn [omap list_omap].
  assert (Hrest : NoDup (omap id (imap
            ((fun x value => if value =? 1 then Some (h x, y) else None) ∘ S) row))).
  { apply (IH (h ∘ S)). intros a b Hab. apply Hinj in Hab. lia. }
  destruct (v =? 1); cbn [id]; [|exact Hrest].
  apply NoDup_cons. split; [|exact Hrest].
  intros Hin. apply list_elem_of_omap in Hin as (o & Ho & Hid). cbn in Hid. subst o.
  apply elem_of_lookup_imap in Ho as (x & v' & Hv & _). cbn in Hv.
  destruct (v' =? 1); [|done]. injection Hv as Hv. apply Hinj in Hv. lia.
Qed.

Lemma NoDup_bitmaskRows (rows : Bitmask2d) : forall h : nat -> Z,
  Inj (=) (=) h ->
  NoDup (mjoin (imap (fun y row =>
           omap id (imap (fun x value =>
                      if value =? 1 then Some (Z.of_nat x, h y) else None) row)) rows)).
Proof.
  induction rows as [|row rows IH]; intros h Hinj; [constructor|].
  rewrite imap_cons. cbn [mjoin list_join].
  apply NoDup_app. split; [|split].
  - apply (NoDup_rowCoordinates (h 0%nat) row Z.of_nat). intros a b. lia.
  - intros p Hp Hin.
    apply list_elem_of_omap in Hp as (o & Ho & Hid). cbn in Hid. subst o.
    apply elem_of_lookup_imap in Ho as (x & v & Hv & _).
    destruct (v =? 1); [|done]. injection Hv as ->.
    apply list_elem_of_join in Hin as (l & Hp & Hl).
    apply elem_of_lookup_imap in Hl as (y & row' & -> & _).
    apply list_elem_of_omap in Hp as (o & Ho & Hid). cbn in Hid. subst o.
    apply elem_of_lookup_imap in Ho as (x' & v' & Hv' & _). cbn in Hv'.
    destruct (v' =? 1); [|done]. injection Hv' as _ Hy. apply Hinj in Hy. lia.
  - apply (IH (h ∘ S)). intros a b Hab. apply Hinj in Hab. lia.
Qed.

Lemma NoDup_bitmaskToPixelArray bitmask : NoDup (bitmaskToPixelArray bitmask).
Proof. apply (NoDup_bitmaskRows bitmask Z.of_nat). intros a b. lia. Qed.

Lemma within6_window startX startY p : within6 startX startY p -> p ∈ window startX startY.
Proof.
  destruct p as [x y]. intros [Hx Hy]. cbn in Hx, Hy.
  apply list_elem_of_fmap. exists (x - startX + 5, y - startY + 5). split.
  - cbn. f_equal; lia.
  - apply elem_of_rowMajor. split; cbn; lia.
Qed.

(** X8.  The decimal point's sample set that [floodFillDecimalPoint]
    returns lists no pixel twice, has at most 121 pixels, and every pixel is
    at most 5 away from the start coordinate in each axis. *)
Theorem X8_decimal_point_at_most_121 fuel st startX startY dpPixels :
  floodFillDecimalPoint fuel st startX startY = Some dpPixels ->
  NoDup dpPixels
  ∧ (length dpPixels <= 121)%nat
  ∧ Forall (fun p => startX - 5 <= p.1 <= startX + 5 ∧ startY - 5 <= p.2 <= startY + 5) dpPixels.
Proof.
  unfold floodFillDecimalPoint.
  destruct (generateBitmask _ _ _ _ _ _ _) as [[mask []]|]; [|done].
  cbn [mbind option_bind]. intros [= <-].
  assert (Hnodup : NoDup (filter (fun p => nearStart startX startY p = true)
                                 (bitmaskToPixelArray mask)))
    by apply NoDup_filter, NoDup_bitmaskToPixelArray.
  assert (Hwithin : forall p, p ∈ filter (fun p => nearStart startX startY p = true)
                                    (bitmaskToPixelArray mask) ->
                              within6 startX startY p).
  { intros p Hp. apply list_elem_of_filter in Hp as [Hp _]. by apply nearStart_within6. }
  split; [done|]. split.
  - assert (Hlen : length (window startX startY) = 121%nat).
    { unfold window. rewrite length_fmap, length_rowMajor. reflexivity. }
    rewrite <- Hlen. apply submseteq_length, NoDup_submseteq; [done|].
    intros p Hp. by apply within6_window, Hwithin.
  - apply Forall_forall. intros p Hp. apply Hwithin in Hp as [Hx Hy]. lia.
Qed.

Lemma X8_witness :
  exists dpPixels,
    floodFillDecimalPoint 3 (constructor {| width := 1; height := 1 |} Cfg.constructor) 0 0
      = Some dpPixels
    ∧ (length dpPixels <= 121)%nat.
Proof.
  destruct (floodFillDecimalPoint 3 (constructor {| width := 1; height := 1 |} Cfg.constructor)
              0 0) as [dpPixels|] eqn:Hdp; [|by vm_compute in Hdp].
  exists dpPixels. split; [reflexivity|].
  apply (X8_decimal_point_at_most_121 3 _ 0 0 dpPixels Hdp).
Defined.

(** ** The hole components *)

Section HoleFill.

Variables (c : Canvas) (detectable background : Bitmask2d) (visited0 : gset (Z * Z)).
Hypothesis detectable_size : hasSize detectable c.

Lemma visitDirection_fresh x y d f f' :
  freshMarks c visited0 f ->
  visitDirection (holeMatchFunction detectable background) detectable x y d f = Some f' ->
  freshMarks c visited0 f'.
Proof.
  intros (Hsize & Hsub & Hmarks). unfold visitDirection.
  generalize (x + d.1) (y + d.2). intros nx ny.
  destruct (at_ detectable ny) as [row|] eqn:Hrow; [|by intros [= <-]].
  destruct (bool_decide ((nx, ny) ∈ visited f)); [by intros [= <-]|].
  destruct (holeMatchFunction _ _ _ _ _ _) as [[matched env']|] eqn:Htest; [|done].
  cbn [mbind option_bind].
  assert (Henv : env f ⊆ env' ∧ (matched = true -> ((nx, ny) ∉ env f) ∧ ((nx, ny) ∈ env'))).
  { unfold holeMatchFunction in Htest.
    destruct (bool_decide ((nx, ny) ∈ env f)) eqn:Hseen.
    - injection Htest as <- <-. done.
    - apply bool_decide_eq_false in Hseen.
      assert (env' = {[(nx, ny)]} ∪ env f) as ->.
      { destruct (at_ detectable ny); [|done]. cbn in Htest.
        destruct (bool_decide _); [|by injection Htest as _ <-].
        destruct (at_ background ny); [|done]. cbn in Htest. by injection Htest as _ <-. }
      split; [apply union_subseteq_r|]. intros _. split; [done|].
      apply elem_of_union_l, elem_of_singleton. reflexivity. }
  destruct Henv as [Hmono Hnew].
  destruct matched.
  - assert (Hin : inCanvas c (nx, ny)).
    { split; cbn.
      - exact (holeMatchFunction_inside _ _ c _ _ _ _ _ detectable_size Hrow Htest).
      - by destruct (hasSize_row _ _ _ _ detectable_size Hrow). }
    destruct (assignCell_Some _ c _ _ Hsize Hin) as (result1 & Hassign & Hsize1).
    rewrite Hassign. cbn [mbind option_bind]. intros [= <-].
    unfold freshMarks. cbn [result env].
    split; [done|]. split; [set_solver|]. intros p.
    rewrite (cellAt_assignCell _ c _ _ _ p Hsize Hin Hassign).
    destruct (decide (p = (nx, ny))) as [->|].
    + intros _. destruct (Hnew eq_refl) as [Hnot Hnow]. split; [done|]. set_solver.
    + intros Hp. apply Hmarks in Hp as [? ?]. split; [set_solver | done].
  - intros [= <-]. unfold freshMarks. cbn [result env].
    split; [done|]. split; [set_solver|].
    intros p Hp. apply Hmarks in Hp as [? ?]. split; [set_solver | done].
Qed.

Lemma visitDirections_fresh x y ds : forall f f',
  freshMarks c visited0 f ->
  visitDirections (holeMatchFunction detectable background) detectable x y ds f = Some f' ->
  freshMarks c visited0 f'.
Proof.
  induction ds as [|d ds IH]; intros f f' Hf Hrun; cbn [visitDirections] in Hrun.
  - by injection Hrun as <-.
  - destruct (visitDirection _ _ _ _ d f) as [f1|] eqn:Hstep; [|done].
    cbn [mbind option_bind] in Hrun.
    eapply IH; [|exact Hrun]. eapply visitDirection_fresh; [exact Hf | exact Hstep].
Qed.

Lemma floodLoop_fresh fuel : forall f f',
  freshMarks c visited0 f ->
  floodLoop fuel (holeMatchFunction detectable background) detectable f = Some f' ->
  freshMarks c visited0 f'.
Proof.
  induction fuel as [|fuel IH]; intros [[|[x y] rest] v r e] f' Hf Hrun;
    cbn [floodLoop queue visited result env] in Hrun; try done;
    try (by injection Hrun as <-).
  destruct (visitDirections _ _ x y directions _) as [f1|] eqn:Hvisit; [|done].
  cbn [mbind option_bind] in Hrun.
  eapply IH; [|exact Hrun].
  eapply visitDirections_fresh; [|exact Hvisit]. exact Hf.
Qed.

Lemma findHoleComponent_fresh fuel start component visited1 :
  findHoleComponent fuel c detectable background visited0 start = Some (component, visited1) ->
  visited0 ⊆ visited1
  ∧ NoDup (pixels component)
  ∧ forall p, p ∈ pixels component -> p ∈ visited1 ∧ p ∉ visited0.
Proof.
  unfold findHoleComponent, generateBitmask. cbn [default].
  destruct (floodLoop _ _ _ _) as [f'|] eqn:Hloop; [|done].
  cbn [mbind option_bind]. intros [= <- <-]. cbn [pixels].
  apply floodLoop_fresh in Hloop as (_ & Hsub & Hmarks).
  - split; [done|]. split; [apply NoDup_bitmaskToPixelArray|].
    intros p Hp. by apply Hmarks, elem_of_bitmaskToPixelArray.
  - unfold freshMarks. cbn [result env].
    split; [apply hasSize_createPixelArray|]. split; [done|].
    intros q. rewrite cellAt_createPixelArray. by destruct (bool_decide _).
Qed.

End HoleFill.

Lemma scanPixel_disjoint fuel c detectable background acc p acc' :
  hasSize detectable c ->
  disjointHoles acc ->
  scanPixel fuel c detectable background acc p = Some acc' ->
  disjointHoles acc'.
Proof.
  intros Hsize [Hin Hdisjoint]. destruct acc as [visited0 holes], p as [x y].
  unfold scanPixel. cbn [fst snd] in *.
  destruct (at_ detectable y) as [drow|]; [|done]. cbn [mbind option_bind].
  destruct (bool_decide _); [|by intros [= <-]].
  destruct (at_ background y) as [brow|]; [|done]. cbn [mbind option_bind].
  destruct (_ && _); [|by intros [= <-]].
  destruct (findHoleComponent _ _ _ _ _ _) as [[component visited1]|] eqn:Hfind; [|done].
  cbn [mbind option_bind]. intros [= <-].
  apply (findHoleComponent_fresh c detectable background visited0 Hsize) in Hfind
    as (Hsub & _ & Hfresh).
  destruct (10 <? _).
  - split; cbn [fst snd].
    + intros comp q Hcomp Hq. apply elem_of_app in Hcomp as [Hcomp|Hcomp].
      * apply Hsub. by eapply Hin.
      * apply list_elem_of_singleton in Hcomp as ->. by apply Hfresh.
    + intros i j ci cj q Hij Hi Hj Hq Hq'.
      apply lookup_app_Some in Hi as [Hi|[Hilen Hi]];
        apply lookup_app_Some in Hj as [Hj|[Hjlen Hj]].
      * by eapply (Hdisjoint i j).
      * apply list_lookup_singleton_Some in Hj as [_ <-].
        apply Hfresh in Hq' as [_ Hq']. apply Hq'. eapply Hin; [|exact Hq].
        by eapply list_elem_of_lookup_2.
      * apply list_lookup_singleton_Some in Hi as [_ <-].
        apply Hfresh in Hq as [_ Hq]. apply Hq. eapply Hin; [|exact Hq'].
        by eapply list_elem_of_lookup_2.
      * apply list_lookup_singleton_Some in Hi as [Hi _].
        apply list_lookup_singleton_Some in Hj as [Hj _]. lia.
  - split; cbn [fst snd].
    + intros comp q Hcomp Hq. apply Hsub. by eapply Hin.
    + exact Hdisjoint.
Qed.

(** X6.  The hole components that the scan returns list no pixel twice,
    and no two of them share a pixel. *)
Theorem X6_hole_components_disjoint fuel c detectable background holeComponents :
  hasSize detectable c ->
  findHoles fuel c detectable background = Some holeComponents ->
  Forall (fun component => NoDup (pixels component)) holeComponents
  ∧ (forall i j ci cj p,
       i ≠ j -> holeComponents !! i = Some ci -> holeComponents !! j = Some cj ->
       p ∈ pixels ci -> p ∉ pixels cj).
Proof.
  intros Hsize. unfold findHoles.
  destruct (forEachM _ _ _) as [[visited1 holes]|] eqn:Hscan; [|done].
  cbn [fmap option_fmap option_map snd]. intros [= <-].
  split.
  - eapply (forEachM_invariant
              (fun acc : gset (Z * Z) * list HoleComponent =>
                 Forall (fun component => NoDup (pixels component)) acc.2)) in Hscan;
      [exact Hscan | | by apply Forall_nil].
    intros [visited0 acc] [x y] [visited2 acc'] Hacc. cbn [snd] in *. unfold scanPixel.
    destruct (at_ detectable y) as [drow|]; [|done]. cbn [mbind option_bind].
    destruct (bool_decide _); [|by intros [= <- <-]].
    destruct (at_ background y) as [brow|]; [|done]. cbn [mbind option_bind].
    destruct (_ && _); [|by intros [= <- <-]].
    destruct (findHoleComponent _ _ _ _ _ _) as [[component visited3]|] eqn:Hfind; [|done].
    cbn [mbind option_bind]. intros [= <- <-].
    destruct (10 <? _); [|done].
    apply Forall_app. split; [done|]. apply Forall_singleton.
    by apply (findHoleComponent_fresh c detectable background visited0 Hsize) in Hfind
      as (_ & ? & _).
  - eapply (forEachM_invariant disjointHoles) in Hscan; [apply Hscan | |].
    + intros acc p acc' Hacc Hstep. by eapply scanPixel_disjoint.
    + split; cbn; [intros ? ? Hc; by apply elem_of_nil in Hc | done].
Qed.

Lemma X6_witness :
  exists holeComponents,
    findHoles 3 {| width := 1; height := 1 |} [[0]] [[0]] = Some holeComponents
    ∧ Forall (fun component => NoDup (pixels component)) holeComponents.
Proof.
  destruct (findHoles 3 {| width := 1; height := 1 |} [[0]] [[0]]) as [holes|] eqn:Hholes;
    [|by vm_compute in Hholes].
  exists holes. split; [reflexivity|].
  apply (X6_hole_components_disjoint 3 {| width := 1; height := 1 |} [[0]] [[0]] holes);
    [|exact Hholes].
  split; [reflexivity | by repeat constructor].
Defined.

(** ** The debug overlay *)

Lemma length_storeByte d i v : length (storeByte d i v) = length d.
Proof. unfold storeByte. destruct (i <? 0); [done | apply length_insert]. Qed.

Lemma at_storeByte d i v j :
  at_ (storeByte d i v) j
  = if decide (j = i ∧ 0 <= i < Z.of_nat (length d)) then Some (clampByte v) else at_ d j.
Proof.
  unfold storeByte. destruct (i <? 0) eqn:Hi.
  - rewrite decide_False; [done | bool_lia].
  - destruct (decide (i < Z.of_nat (length d))) as [Hlt|Hge].
    + rewrite at_insert by bool_lia.
      destruct (decide (j = i)) as [->|Hne].
      * rewrite decide_True; [done | bool_lia].
      * rewrite decide_False; [done | tauto].
    + rewrite list_insert_ge by bool_lia. rewrite decide_False; [done | lia].
Qed.

Lemma forEachM_invariant_in {A B} (P : B -> Prop) (body : B -> A -> option B) l :
  (forall b a b', a ∈ l -> P b -> body b a = Some b' -> P b') ->
  forall b b', P b -> forEachM body b l = Some b' -> P b'.
Proof.
  induction l as [|a l IH]; intros Hbody b b' Hb Hrun; cbn in Hrun.
  - by injection Hrun as <-.
  - destruct (body b a) as [b1|] eqn:Hb1; [|done]. cbn in Hrun.
    eapply IH; [| |exact Hrun].
    + intros ? ? ? Hin. apply Hbody. by right.
    + eapply Hbody; [by left | exact Hb | exact Hb1].
Qed.

(** A loop whose body establishes [P] at [a] and otherwise keeps it
    establishes [P] when [a] is among the elements. *)
Lemma forEachM_establishes {A B} (P : B -> Prop) (body : B -> A -> option B) l a :
  a ∈ l ->
  (forall b b', body b a = Some b' -> P b') ->
  (forall b x b', P b -> body b x = Some b' -> P b') ->
  forall b b', forEachM body b l = Some b' -> P b'.
Proof.
  intros Hin Hest Hkeep. induction l as [|x l IH]; intros b b' Hrun; [by apply elem_of_nil in Hin|].
  cbn in Hrun. destruct (body b x) as [b1|] eqn:Hb1; [|done]. cbn in Hrun.
  apply elem_of_cons in Hin as [->|Hin].
  - apply Hest in Hb1.
    eapply (forEachM_invariant P body l); [|exact Hb1|exact Hrun].
    intros ? ? ? ? ?. by eapply Hkeep.
  - by eapply IH.
Qed.

Section Paint.

Variables (st : Reader) (colors : list (list Cfg.Pixel)) (ambientOffset : number).

Notation c := (canvas st).

Lemma paintPixel_data digit frame p frame' :
  paintPixel st colors ambientOffset digit frame p = Some frame' ->
  exists r g b,
    data frame'
    = storeByte (storeByte (storeByte (storeByte (data frame) (byteIndex c p) r)
                              (byteIndex c p + 1) g) (byteIndex c p + 2) b)
        (byteIndex c p + 3) 255.
Proof.
  unfold paintPixel, byteIndex. destruct p as [x y]. cbn [fst snd].
  destruct (colors !! digit) as [pair|]; [|done]. cbn [mbind option_bind].
  destruct (pair !! _) as [color|]; [|done]. cbn [mbind option_bind].
  intros [= <-]. by eexists _, _, _.
Qed.

Lemma paintPixel_length digit frame p frame' :
  paintPixel st colors ambientOffset digit frame p = Some frame' ->
  length (data frame') = length (data frame).
Proof.
  intros H. apply paintPixel_data in H as (r & g & b & ->).
  by rewrite !length_storeByte.
Qed.

Lemma paintPixel_outside digit frame p frame' j :
  paintPixel st colors ambientOffset digit frame p = Some frame' ->
  ¬ (byteIndex c p <= j <= byteIndex c p + 3) ->
  at_ (data frame') j = at_ (data frame) j.
Proof.
  intros H Hj. apply paintPixel_data in H as (r & g & b & ->).
  rewrite !at_storeByte. repeat (rewrite decide_False by lia). done.
Qed.

Lemma paintPixel_opaque digit frame p frame' :
  0 <= byteIndex c p ->
  paintPixel st colors ambientOffset digit frame p = Some frame' ->
  opaqueAt c p frame'.
Proof.
  intros Hp H Hlen. pose proof (paintPixel_length _ _ _ _ H) as Hsame.
  apply paintPixel_data in H as (r & g & b & ->).
  rewrite at_storeByte, !length_storeByte. rewrite decide_True; [done|].
  lia.
Qed.

Lemma paintPixel_keeps_opaque digit frame p frame' q :
  paintPixel st colors ambientOffset digit frame p = Some frame' ->
  opaqueAt c q frame -> opaqueAt c q frame'.
Proof.
  intros H Hq Hlen. pose proof (paintPixel_length _ _ _ _ H) as Hsame.
  rewrite Hsame in Hlen. specialize (Hq Hlen).
  apply paintPixel_data in H as (r & g & b & ->).
  unfold byteIndex in *.
  generalize dependent (p.2 * width c + p.1). intros mp.
  generalize dependent (q.2 * width c + q.1). intros mq Hq Hlen.
  rewrite at_storeByte. destruct (decide _); [done|].
  rewrite !at_storeByte.
  repeat (rewrite decide_False by (intros [Heq _]; lia)). done.
Qed.

End Paint.

Lemma elem_of_allSamples st digit digitSegments segment pixels0 p :
  segmentSamples st !! digit = Some digitSegments ->
  digitSegments !! segment = Some pixels0 ->
  p ∈ pixels0 ->
  p ∈ allSamples st.
Proof.
  intros Hd Hs Hp. unfold allSamples.
  apply list_elem_of_join. exists pixels0. split; [done|].
  apply list_elem_of_join. exists digitSegments.
  split; by eapply list_elem_of_lookup_2.
Qed.

Lemma allSamples_lookup st p :
  p ∈ allSamples st ->
  exists digit digitSegments segment pixels0,
    segmentSamples st !! digit = Some digitSegments
    ∧ digitSegments !! segment = Some pixels0
    ∧ p ∈ pixels0.
Proof.
  unfold allSamples. intros Hp.
  apply list_elem_of_join in Hp as (pixels0 & Hp & Hl).
  apply list_elem_of_join in Hl as (digitSegments & Hl & Hd).
  apply list_elem_of_lookup_1 in Hl as [segment Hl].
  apply list_elem_of_lookup_1 in Hd as [digit Hd].
  by exists digit, digitSegments, segment, pixels0.
Qed.

Section DebugMask.

Variables (st : Reader) (colors : list (list Cfg.Pixel)) (ambientOffset : number).

Notation c := (canvas st).

Lemma debugMask_returns frame :
  samplesFit c (segmentSamples st) ->
  (forall digit, (digit < 6)%nat ->
     exists pair, colors !! digit = Some pair ∧ (2 <= length pair)%nat) ->
  is_Some (debugMask st colors frame ambientOffset).
Proof.
  intros (Hlen & Height & _) Hcolors. unfold debugMask.
  apply forEachM_returns. intros frame1 digit Hdigit. cbn beta. apply elem_of_seq in Hdigit.
  destruct (lookup_lt_is_Some_2 (segmentSamples st) digit ltac:(lia)) as [ds Hds].
  rewrite Hds. cbn [mbind option_bind].
  assert (Hlen8 : length ds = 8%nat) by (by eapply Forall_lookup_1 in Height).
  apply forEachM_returns. intros frame2 segment Hsegment. cbn beta. apply elem_of_seq in Hsegment.
  destruct (lookup_lt_is_Some_2 ds segment ltac:(lia)) as [pixels0 ->].
  cbn [mbind option_bind].
  apply forEachM_returns. intros frame3 [x y] _. unfold paintPixel.
  destruct (Hcolors digit ltac:(lia)) as (pair & -> & Hpair). cbn [mbind option_bind].
  destruct (lookup_lt_is_Some_2 pair
              (if isPixelLit st (getPixelGrayValue c frame3 x y) x y ambientOffset
               then 1 else 0)%nat) as [color ->]; [|done].
  destruct (isPixelLit _ _ _ _ _); lia.
Qed.

Lemma debugMask_paintedOver frame painted :
  debugMask st colors frame ambientOffset = Some painted ->
  paintedOver st frame painted.
Proof.
  unfold debugMask. intros Hrun.
  eapply (forEachM_invariant (paintedOver st frame)); [| |exact Hrun]; [|by split].
  intros frame1 digit frame1' H1. cbn beta.
  destruct (segmentSamples st !! digit) as [ds|] eqn:Hds; [|done].
  cbn [mbind option_bind]. intros Hrun1.
  eapply (forEachM_invariant (paintedOver st frame)); [|exact H1|exact Hrun1].
  intros frame2 segment frame2' H2. cbn beta.
  destruct (ds !! segment) as [pixels0|] eqn:Hpx; [|done].
  cbn [mbind option_bind]. intros Hrun2.
  eapply (forEachM_invariant_in (paintedOver st frame)); [|exact H2|exact Hrun2].
  intros frame3 p frame3' Hp [Hlen Hsame] Hpaint. split.
  - rewrite (paintPixel_length _ _ _ _ _ _ _ Hpaint). exact Hlen.
  - intros j Hj. rewrite (paintPixel_outside _ _ _ _ _ _ _ j Hpaint); [by apply Hsame|].
    apply Hj. by eapply elem_of_allSamples.
Qed.

Lemma debugMask_opaque frame painted p :
  samplesFit c (segmentSamples st) ->
  p ∈ allSamples st ->
  debugMask st colors frame ambientOffset = Some painted ->
  opaqueAt c p painted.
Proof.
  intros (Hlen & Height & Hin) Hp.
  destruct (allSamples_lookup st p Hp) as (digit & ds & segment & pixels0 & Hds & Hpx & Hp0).
  assert (Hdigit : (digit < 6)%nat) by (apply lookup_lt_Some in Hds; lia).
  assert (Hlen8 : length ds = 8%nat) by (by eapply Forall_lookup_1 in Height).
  assert (Hsegment : (segment < 8)%nat) by (apply lookup_lt_Some in Hpx; lia).
  assert (Hindex : 0 <= byteIndex c p).
  { eapply Forall_lookup_1 in Hin; [|exact Hds].
    eapply Forall_lookup_1 in Hin; [|exact Hpx].
    eapply Forall_forall in Hin; [|exact Hp0].
    destruct Hin as [? ?]. unfold byteIndex. nia. }
  assert (Hkeep3 : forall digit' frame3 x frame3',
            opaqueAt c p frame3 ->
            paintPixel st colors ambientOffset digit' frame3 x = Some frame3' ->
            opaqueAt c p frame3').
  { intros digit' frame3 x frame3' H3 Hpaint. by eapply paintPixel_keeps_opaque. }
  assert (Hkeep2 : forall digit' (ds' : SevenSegmentDisplay) frame2 (segment' : nat) frame2',
            opaqueAt c p frame2 ->
            (pixels1 ← ds' !! segment';
             forEachM (paintPixel st colors ambientOffset digit') frame2 pixels1) = Some frame2' ->
            opaqueAt c p frame2').
  { intros digit' ds' frame2 segment' frame2' H2.
    destruct (ds' !! segment') as [pixels1|]; [|done]. cbn [mbind option_bind].
    apply forEachM_invariant; [|done]. intros ? ? ?. apply Hkeep3. }
  unfold debugMask.
  apply (forEachM_establishes (opaqueAt c p) _ (seq 0 6) digit).
  - apply elem_of_seq. lia.
  - intros frame1 frame1'. cbn beta. rewrite Hds. cbn [mbind option_bind].
    apply (forEachM_establishes (opaqueAt c p) _ (seq 0 8) segment).
    + apply elem_of_seq. lia.
    + intros frame2 frame2'. cbn beta. rewrite Hpx. cbn [mbind option_bind].
      apply (forEachM_establishes (opaqueAt c p) _ pixels0 p); [done| |].
      * intros frame3 frame3'. by apply paintPixel_opaque.
      * intros ? ? ?. apply Hkeep3.
    + intros ? ? ?. apply Hkeep2.
  - intros frame1 digit' frame1' H1. cbn beta.
    destruct (segmentSamples st !! digit') as [ds'|]; [|done]. cbn [mbind option_bind].
    apply forEachM_invariant; [|done]. intros ? ? ?. apply Hkeep2.
Qed.

End DebugMask.

(** X22.  When the reader's sample sets fit the canvas and every digit has
    its two colours, [debugMask] returns.  The painted frame has the length
    of the given one and the same bytes everywhere but in the four bytes of
    the sample pixels, and the alpha byte of every sample pixel that the
    buffer holds is 255. *)
Theorem X22_debug_mask_paints_only_samples st colors frame ambientOffset :
  samplesFit (canvas st) (segmentSamples st) ->
  (forall digit, (digit < 6)%nat ->
     exists pair, colors !! digit = Some pair ∧ (2 <= length pair)%nat) ->
  exists painted,
    debugMask st colors frame ambientOffset = Some painted
    ∧ length (data painted) = length (data frame)
    ∧ (forall j,
         (forall p, p ∈ allSamples st ->
            ¬ (byteIndex (canvas st) p <= j <= byteIndex (canvas st) p + 3)) ->
         at_ (data painted) j = at_ (data frame) j)
    ∧ (forall p, p ∈ allSamples st ->
         byteIndex (canvas st) p + 3 < Z.of_nat (length (data frame)) ->
         at_ (data painted) (byteIndex (canvas st) p + 3) = Some 255).
Proof.
  intros Hfit Hcolors.
  destruct (debugMask_returns st colors ambientOffset frame Hfit Hcolors) as [painted Hrun].
  exists painted. split; [done|].
  destruct (debugMask_paintedOver _ _ _ _ _ Hrun) as [Hlen Hsame].
  split; [done|]. split; [done|].
  intros p Hp Hindex. apply (debugMask_opaque st colors ambientOffset frame painted p Hfit Hp Hrun).
  by rewrite Hlen.
Qed.

Lemma X22_witness :
  let st := flatReader 3 (onlySegmentA [(0, 0); (1, 0)]) in
  let frame := grayFrame [210; 60; 60] in
  debugMask st (Cfg.debugMaskColors Cfg.constructor) frame (ofZ 0)
  = Some {| data := [233; 26; 33; 255; 82; 4; 10; 255; 60; 60; 60; 255] |}
  ∧ exists painted,
      debugMask st (Cfg.debugMaskColors Cfg.constructor) frame (ofZ 0) = Some painted
      ∧ length (data painted) = length (data frame).
Proof.
  intros st frame. split; [by vm_compute|].
  destruct (X22_debug_mask_paints_only_samples st (Cfg.debugMaskColors Cfg.constructor)
              frame (ofZ 0)) as (painted & Hrun & Hlen & _).
  - split; [reflexivity|]. split.
    + by repeat constructor.
    + repeat constructor; cbn; lia.
  - intros digit Hdigit.
    destruct digit as [|[|[|[|[|[|]]]]]]; try lia; eexists; (split; [reflexivity | cbn; lia]).
  - by exists painted.
Defined.

(** ** Pixels outside the frame *)

Lemma gray_outside c frame x y :
  ¬ (0 <= (y * width c + x) * 4 ∧ (y * width c + x) * 4 + 2 < Z.of_nat (length (data frame))) ->
  getPixelGrayValue c frame x y = NaN.
Proof.
  intros Hout. unfold getPixelGrayValue. cbn zeta.
  destruct (at_ (data frame) _) as [r|] eqn:Hr; [|done].
  destruct (at_ (data frame) (_ + 1)) as [g|] eqn:Hg; [|done].
  destruct (at_ (data frame) (_ + 2)) as [b|] eqn:Hb; [|done].
  exfalso. apply Hout.
  pose proof (proj1 (at_is_Some _ _) (mk_is_Some _ _ Hr)).
  pose proof (proj1 (at_is_Some _ _) (mk_is_Some _ _ Hb)). lia.
Qed.

Lemma isPixelLit_NaN st x y ambientOffset : isPixelLit st NaN x y ambientOffset = false.
Proof.
  unfold isPixelLit.
  destruct (at_ (litReference st) y) as [litRow|]; [destruct (at_ (unlitReference st) y) as [unlitRow|]|].
  - cbn zeta. destruct ambientOffset; cbn [sub SFsub NaN];
      destruct (orNaN (at_ litRow x)); cbn [sub SFsub SFopp SFadd abs SFabs];
      destruct (max _ _); reflexivity.
  - by destruct (match at_ (grayArray st) y with Some _ => _ | None => _ end).
  - by destruct (match at_ (grayArray st) y with Some _ => _ | None => _ end).
Qed.

(** X20.  A pixel whose colour bytes are not all inside the frame's buffer
    has the gray value NaN, and [isPixelLit] answers false for it, whatever
    the references and the ambient offset are. *)
Theorem X20_pixel_outside_frame_is_unlit st frame ambientOffset x y :
  ¬ (0 <= (y * width (canvas st) + x) * 4
     ∧ (y * width (canvas st) + x) * 4 + 2 < Z.of_nat (length (data frame))) ->
  getPixelGrayValue (canvas st) frame x y = NaN
  ∧ isPixelLit st (getPixelGrayValue (canvas st) frame x y) x y ambientOffset = false
  ∧ sampleLit st frame ambientOffset (x, y) = false.
Proof.
  intros Hout. pose proof (gray_outside _ _ _ _ Hout) as Hgray.
  split; [done|]. rewrite Hgray. split; [apply isPixelLit_NaN|].
  unfold sampleLit. cbn [fst snd]. rewrite Hgray. apply isPixelLit_NaN.
Qed.

Lemma X20_witness :
  sampleLit (flatReader 3 emptySegmentSamples) (grayFrame [210]) (ofZ 0) (1, 0) = false.
Proof.
  refine (proj2 (proj2 (X20_pixel_outside_frame_is_unlit (flatReader 3 emptySegmentSamples)
                          (grayFrame [210]) (ofZ 0) 1 0 _))).
  cbn. lia.
Defined.

(** ** The pixel list of a bitmask *)

(** X9.  [bitmaskToPixelArray] lists exactly the coordinates (x, y) whose
    cell [bitmask[y][x]] is 1, each once; for a bitmask of the canvas's size
    they are inside the canvas, and no more than the canvas has pixels. *)
Theorem X9_bitmask_pixel_list bitmask :
  NoDup (bitmaskToPixelArray bitmask)
  ∧ (forall p, p ∈ bitmaskToPixelArray bitmask <-> cellAt bitmask p = Some 1)
  ∧ (forall c, hasSize bitmask c ->
       Forall (inCanvas c) (bitmaskToPixelArray bitmask)
       ∧ (length (bitmaskToPixelArray bitmask)
          <= Z.to_nat (height c) * Z.to_nat (width c))%nat).
Proof.
  split; [apply NoDup_bitmaskToPixelArray|]. split; [apply elem_of_bitmaskToPixelArray|].
  intros c Hsize.
  assert (Hin : forall p, p ∈ bitmaskToPixelArray bitmask -> inCanvas c p).
  { intros [x y] Hp. apply elem_of_bitmaskToPixelArray in Hp. unfold cellAt in Hp. cbn in Hp.
    destruct (at_ bitmask y) as [row|] eqn:Hrow; [|done]. cbn in Hp.
    destruct (hasSize_row _ _ _ _ Hsize Hrow) as [Hy Hlen].
    pose proof (proj1 (at_is_Some _ _) (mk_is_Some _ _ Hp)). split; cbn; lia. }
  split; [by apply Forall_forall|].
  rewrite <- length_rowMajor. apply submseteq_length, NoDup_submseteq.
  - apply NoDup_bitmaskToPixelArray.
  - intros [x y] Hp. by apply elem_of_rowMajor, Hin.
Qed.

Lemma X9_witness :
  Forall (inCanvas {| width := 2; height := 2 |}) (bitmaskToPixelArray [[0; 1]; [1; 0]])
  ∧ ((1, 0) ∈ bitmaskToPixelArray [[0; 1]; [1; 0]]).
Proof.
  destruct (X9_bitmask_pixel_list [[0; 1]; [1; 0]]) as (_ & Hin & Hsize).
  split.
  - apply (Hsize {| width := 2; height := 2 |}). split; [reflexivity | by repeat constructor].
  - apply Hin. reflexivity.
Defined.

(** ** The ambient offset of a reader without background *)

Lemma foldl_fixed {A B} (f : B -> A -> B) l b :
  (forall a, a ∈ l -> f b a = b) -> foldl f b l = b.
Proof.
  induction l as [|a l IH]; intros Hf; cbn; [done|].
  rewrite Hf by left. apply IH. intros ? ?. apply Hf. by right.
Qed.

Lemma estimateAmbientOffset_no_background st frame :
  backgroundMask st = createPixelArray (canvas st) 0 ->
  estimateAmbientOffset st frame = ofZ 0.
Proof.
  intros Hmask. unfold estimateAmbientOffset. rewrite Hmask.
  destruct (length _ =? 0)%nat; [done|].
  rewrite foldl_fixed; [done|].
  intros y _.
  destruct (at_ (createPixelArray (canvas st) 0) y) as [maskRow|] eqn:Hrow; [|done].
  destruct (at_ (unlitReference st) y) as [unlitRow|]; [|done].
  apply foldl_fixed. intros x _.
  assert (Hcell : truthyCell (at_ maskRow x) = false).
  { pose proof (cellAt_createPixelArray (canvas st) (x, y)) as Hcell.
    unfold cellAt in Hcell. cbn [fst snd] in Hcell. rewrite Hrow in Hcell. cbn in Hcell.
    rewrite Hcell. by destruct (bool_decide _). }
  by rewrite Hcell.
Qed.

(** X16.  A reader that was just constructed or just reset has no sample
    pixel: [readDisplays] decodes six blanks and announces them as a change,
    and the ambient offset is 0 as no pixel is background. *)
Theorem X16_uncalibrated_reads_blank :
  (forall canvas0 configuration frame,
     snd <$> readDisplays frame (constructor canvas0 configuration)
     = Some [DispatchChange "      "])
  ∧ (forall st frame,
       snd <$> readDisplays frame (resetCalibration st).1
       = Some [DispatchChange "      "])
  ∧ (forall st frame,
       segmentSamples st = emptySegmentSamples ->
       decodeDisplays st frame = Some "      ")
  ∧ (forall canvas0 configuration frame,
       estimateAmbientOffset (constructor canvas0 configuration) frame = ofZ 0)
  ∧ (forall st frame,
       estimateAmbientOffset (resetCalibration st).1 frame = ofZ 0).
Proof.
  assert (Hblank : forall st frame,
            segmentSamples st = emptySegmentSamples ->
            decodeDisplays st frame = Some "      ").
  { intros st frame Hs. unfold decodeDisplays. rewrite Hs. reflexivity. }
  split; [|split; [|split; [exact Hblank|split]]].
  - intros canvas0 configuration frame. unfold readDisplays.
    rewrite Hblank by done. reflexivity.
  - intros st frame. unfold readDisplays. rewrite Hblank by done. reflexivity.
  - intros canvas0 configuration frame. by apply estimateAmbientOffset_no_background.
  - intros st frame. by apply estimateAmbientOffset_no_background.
Qed.

Lemma X16_witness :
  decodeDisplays (constructor {| width := 1; height := 1 |} Cfg.constructor) (grayFrame [0])
  = Some "      ".
Proof.
  destruct X16_uncalibrated_reads_blank as (_ & _ & Hblank & _).
  apply Hblank. reflexivity.
Defined.

(** ** The configuration *)

Lemma assign_validConfiguration a c : validConfiguration c -> validConfiguration (Cfg.assign a c).
Proof.
  intros (Hg & Hd & Hr). destruct a as [value|value|value|value]; cbn.
  - done.
  - unfold Cfg.set_decimalPointFloodFillThreshold.
    destruct (Cfg.validThreshold value) eqn:Hv; done.
  - unfold Cfg.set_grayThreshold.
    destruct (Cfg.validThreshold value) eqn:Hv; done.
  - unfold Cfg.set_rotate180.
    destruct (Cfg.typeof_boolean value) eqn:Hv; done.
Qed.

Lemma assigns_validConfiguration l : forall c,
  validConfiguration c -> validConfiguration (Cfg.assigns l c).
Proof.
  induction l as [|a l IH]; intros c Hc; [done|].
  apply (IH (Cfg.assign a c)). by apply assign_validConfiguration.
Qed.

Lemma validConfiguration_constructor : validConfiguration Cfg.constructor.
Proof. by vm_compute. Qed.

Lemma validThreshold_range value :
  Cfg.validThreshold value = true ->
  gt (Cfg.ToNumber value) (ofZ 0) = true ∧ lt (Cfg.ToNumber value) (ofZ 255) = true.
Proof.
  unfold Cfg.validThreshold. intros H.
  apply andb_prop in H as [H Hlt]. apply andb_prop in H as [_ Hgt]. done.
Qed.

(** X23.  Whatever is assigned to the properties of a configuration, in any
    order, both thresholds keep passing the setters' test and [rotate180]
    stays a boolean: a reader constructed from the configuration has both
    thresholds greater than 0 and less than 255.  An assignment of a value
    that fails the test leaves the configuration as it was, and
    [debugMaskColors] takes any value assigned to it. *)
Theorem X23_configuration_stays_valid l :
  let c := Cfg.assigns l Cfg.constructor in
  validConfiguration c
  ∧ (forall canvas0,
       let st := constructor canvas0 c in
       gt (grayThreshold st) (ofZ 0) = true ∧ lt (grayThreshold st) (ofZ 255) = true
       ∧ gt (floodFillDpThreshold st) (ofZ 0) = true
       ∧ lt (floodFillDpThreshold st) (ofZ 255) = true)
  ∧ (forall value,
       Cfg.validThreshold value = false ->
       Cfg.assigns (l ++ [Cfg.AssignGrayThreshold value]) Cfg.constructor = c
       ∧ Cfg.assigns (l ++ [Cfg.AssignDecimalPointFloodFillThreshold value]) Cfg.constructor = c)
  ∧ (forall value,
       Cfg.debugMaskColors (Cfg.assigns (l ++ [Cfg.AssignDebugMaskColors value]) Cfg.constructor)
       = value).
Proof.
  intros c.
  assert (Hc : validConfiguration c)
    by apply assigns_validConfiguration, validConfiguration_constructor.
  split; [exact Hc|]. split; [|split].
  - intros canvas0 st. destruct Hc as (Hg & Hd & _).
    apply validThreshold_range in Hg as [? ?]. apply validThreshold_range in Hd as [? ?].
    done.
  - intros value Hv. unfold Cfg.assigns. rewrite !foldl_app. cbn.
    unfold Cfg.set_grayThreshold, Cfg.set_decimalPointFloodFillThreshold. by rewrite Hv.
  - intros value. unfold Cfg.assigns. rewrite foldl_app. reflexivity.
Qed.

Lemma X23_witness :
  let c := Cfg.assigns [Cfg.AssignGrayThreshold (Cfg.JNumber (ofZ 255));
                    Cfg.AssignGrayThreshold (Cfg.JBoolean true);
                    Cfg.AssignRotate180 Cfg.JNull;
                    Cfg.AssignDecimalPointFloodFillThreshold (Cfg.JNumber (ofZ 25))]
             Cfg.constructor in
  validConfiguration c
  ∧ Cfg.grayThreshold c = Cfg.JBoolean true
  ∧ Cfg.rotate180 c = Cfg.JBoolean true.
Proof.
  intros c. split; [|by vm_compute].
  exact (proj1 (X23_configuration_stays_valid _)).
Defined.
